(** * zclsyntax: the body/block parser, its error recovery and the
      string-literal escape decoder

    A shallow embedding of [zcl/zclsyntax/parser.go].  Go structs become
    records whose projections are named [<Struct>_<Field>]; the parser's
    mutable state (the embedded peeker and the [recovery] flag) is threaded
    explicitly; a Go [panic] is the [Panic] outcome of the [result] type.

    Loops are written with a fuel argument, one unit per iteration, and every
    entry point supplies a fuel computed from the number of unread tokens; the
    theorems below show that this fuel is never exhausted.  The recursion
    ParseBody -> ParseBodyItem -> finishParsingBodyBlock -> ParseBody is
    written over a [depth] argument that stands for the call stack the host
    grants: one unit per nested activation of ParseBody. *)

From Stdlib Require Import ZArith Lia List Ascii String Bool.
From stdpp Require Import base option list gmap strings.

Local Open Scope string_scope.
Local Open Scope Z_scope.
Local Open Scope list_scope.

Set Warnings "-register-all".

(** ** Outcomes of running Go code *)

Inductive result (A : Type) : Type :=
| Ok (a : A)
| Panic (msg : string)
| OutOfFuel
| StackOverflow.

Arguments Ok {A} a.
Arguments Panic {A} msg.
Arguments OutOfFuel {A}.
Arguments StackOverflow {A}.

Definition result_bind {A B : Type} (f : A -> result B) (m : result A) : result B :=
  match m with
  | Ok a => f a
  | Panic msg => Panic msg
  | OutOfFuel => OutOfFuel
  | StackOverflow => StackOverflow
  end.

#[global] Instance result_ret : MRet result := fun A a => Ok a.
#[global] Instance result_mbind : MBind result := fun A B f m => result_bind f m.

(** ** Go's [int] (64 bits, two's complement) *)

Definition int_min : Z := - 2 ^ 63.
Definition int_max : Z := 2 ^ 63 - 1.

Definition int_wrap (z : Z) : Z := (z + 2 ^ 63) mod 2 ^ 64 - 2 ^ 63.

Definition int_add (a b : Z) : Z := int_wrap (a + b).
Definition int_sub (a b : Z) : Z := int_wrap (a - b).

Definition in_int (z : Z) : Prop := int_min <= z <= int_max.

(** ** Bytes and strings

    A Go [string] and a [[]byte] are both sequences of bytes; they are
    modelled by [string], whose characters are the 8-bit [ascii]. *)

Definition byte_dquote : ascii := "034"%char.
Definition byte_backslash : ascii := "092"%char.
Definition byte_newline : ascii := "010"%char.
Definition byte_cr : ascii := "013"%char.
Definition byte_tab : ascii := "009"%char.

Definition str1 (c : ascii) : string := String c EmptyString.

Definition len (s : string) : Z := Z.of_nat (String.length s).

(** ** Source positions and diagnostics (package zcl) *)

Record Pos : Type := mkPos {
  Pos_Line : Z;
  Pos_Column : Z;
  Pos_Byte : Z
}.

Record Range : Type := mkRange {
  Range_Filename : string;
  Range_Start : Pos;
  Range_End : Pos
}.

Inductive DiagnosticSeverity : Type := DiagError | DiagWarning.

Record Diagnostic : Type := mkDiagnostic {
  Diagnostic_Severity : DiagnosticSeverity;
  Diagnostic_Summary : string;
  Diagnostic_Detail : string;
  Diagnostic_Subject : option Range;
  Diagnostic_Context : option Range
}.

Definition Diagnostics : Type := list Diagnostic.

#[global] Instance DiagnosticSeverity_eq_dec : EqDecision DiagnosticSeverity.
Proof. solve_decision. Defined.

(** Modelled from the spec: [Diagnostics.HasErrors] belongs to package zcl,
    which is not among the sources.  The diagnostics "reported an error" when
    one of them has severity error. *)
Definition HasErrors (diags : Diagnostics) : bool :=
  existsb (fun d => bool_decide (Diagnostic_Severity d = DiagError)) diags.

(** ** Tokens *)

(** Modelled from the spec: the enumeration itself (token.go) is not among
    the sources.  The constructors are the token types parser.go names;
    [TokenOther] stands for every further member of the enumeration. *)
Inductive TokenType : Type :=
| TokenOBrace | TokenCBrace
| TokenOBrack | TokenCBrack
| TokenOParen | TokenCParen
| TokenOQuote | TokenCQuote
| TokenOHeredoc | TokenCHeredoc
| TokenEqual
| TokenIdent
| TokenQuotedLit
| TokenStringLit
| TokenTemplateInterp
| TokenTemplateControl
| TokenTemplateSeqEnd
| TokenNewline
| TokenEOF
| TokenNil
| TokenOther (code : N).

#[global] Instance TokenType_eq_dec : EqDecision TokenType.
Proof. solve_decision. Defined.

Record Token : Type := mkToken {
  Token_Type : TokenType;
  Token_Bytes : string;
  Token_Range : Range
}.

(** ** The token source

    Modelled from the spec: the peeker (peeker.go) is not among the sources.
    The input is a finite sequence of tokens followed by an end-of-file
    sentinel.  [Peek] returns the token at the front without consuming it,
    [Read] consumes and returns it; at the end of the sequence both yield the
    sentinel and nothing is consumed.  [PrevRange] is the range of the most
    recently consumed token and [NextRange] that of the next unread one. *)
Record peeker : Type := mkPeeker {
  peeker_Unread : list Token;
  peeker_LastRead : Range;
  peeker_EOFRange : Range
}.

Definition eofToken (pk : peeker) : Token :=
  mkToken TokenEOF "" (peeker_EOFRange pk).

Definition peeker_Peek (pk : peeker) : Token :=
  match peeker_Unread pk with
  | tok :: _ => tok
  | [] => eofToken pk
  end.

Definition peeker_Read (pk : peeker) : Token * peeker :=
  match peeker_Unread pk with
  | tok :: rest => (tok, mkPeeker rest (Token_Range tok) (peeker_EOFRange pk))
  | [] => (eofToken pk, pk)
  end.

Definition peeker_NextRange (pk : peeker) : Range := Token_Range (peeker_Peek pk).
Definition peeker_PrevRange (pk : peeker) : Range := peeker_LastRead pk.

(** ** The parser state: the embedded peeker and the recovery flag *)

Record parser : Type := mkParser {
  parser_peeker : peeker;
  parser_recovery : bool
}.

Definition Unread (p : parser) : list Token := peeker_Unread (parser_peeker p).

Definition Peek (p : parser) : Token := peeker_Peek (parser_peeker p).

Definition Read (p : parser) : Token * parser :=
  let '(tok, pk) := peeker_Read (parser_peeker p) in
  (tok, mkParser pk (parser_recovery p)).

Definition NextRange (p : parser) : Range := peeker_NextRange (parser_peeker p).
Definition PrevRange (p : parser) : Range := peeker_PrevRange (parser_peeker p).

Definition set_recovery (p : parser) : parser := mkParser (parser_peeker p) true.

(** ** oppositeBracket *)

Definition oppositeBracket (ty : TokenType) : TokenType :=
  match ty with
  | TokenOBrace => TokenCBrace
  | TokenOBrack => TokenCBrack
  | TokenOParen => TokenCParen
  | TokenOQuote => TokenCQuote
  | TokenOHeredoc => TokenCHeredoc
  | TokenCBrace => TokenOBrace
  | TokenCBrack => TokenOBrack
  | TokenCParen => TokenOParen
  | TokenCQuote => TokenOQuote
  | TokenCHeredoc => TokenOHeredoc
  | TokenTemplateControl => TokenTemplateSeqEnd
  | TokenTemplateInterp => TokenTemplateSeqEnd
  | TokenTemplateSeqEnd => TokenTemplateInterp
  | _ => TokenNil
  end.

(** ** recover

    One unit of [fuel] is one iteration of the [for] loop, that is one call
    of [Read].  The [switch] compares [ty] with [start], then with [end],
    then with TokenEOF, in that order. *)
Fixpoint recover_loop (fuel : nat) (start end_ : TokenType) (nest : Z) (p : parser)
  : result parser :=
  match fuel with
  | O => OutOfFuel
  | S fuel' =>
    let '(tok, p1) := Read p in
    let ty :=
      if bool_decide (end_ = TokenTemplateSeqEnd)
         && bool_decide (Token_Type tok = TokenTemplateControl)
      then TokenTemplateInterp
      else Token_Type tok in
    if bool_decide (ty = start) then
      recover_loop fuel' start end_ (int_add nest 1) p1
    else if bool_decide (ty = end_) then
      if nest <? 1 then Ok p1
      else recover_loop fuel' start end_ (int_sub nest 1) p1
    else if bool_decide (ty = TokenEOF) then Ok p1
    else recover_loop fuel' start end_ nest p1
  end.

Definition recover_fuel (p : parser) : nat := 2 * length (Unread p) + 1.

Definition recover (end_ : TokenType) (p : parser) : result parser :=
  let start := oppositeBracket end_ in
  let p0 := set_recovery p in
  recover_loop (recover_fuel p0) start end_ 0 p0.

(** ** recoverAfterBodyItem

    The slice [open] is used as a stack whose top is its last element; the
    model keeps the top at the head of the list.  [pop_through] is the pair
    of statements "pop while the top is not the wanted opener; then pop once
    more if anything is left". *)
Fixpoint pop_through (wanted : TokenType -> bool) (open : list TokenType)
  : list TokenType :=
  match open with
  | [] => []
  | top :: below => if wanted top then below else pop_through wanted below
  end.

Definition is_opener (ty : TokenType) : bool :=
  match ty with
  | TokenOBrace | TokenOBrack | TokenOParen | TokenOQuote | TokenOHeredoc
  | TokenTemplateInterp | TokenTemplateControl => true
  | _ => false
  end.

Definition is_plain_closer (ty : TokenType) : bool :=
  match ty with
  | TokenCBrace | TokenCBrack | TokenCParen | TokenCQuote | TokenCHeredoc => true
  | _ => false
  end.

Definition is_template_opener (ty : TokenType) : bool :=
  match ty with
  | TokenTemplateInterp | TokenTemplateControl => true
  | _ => false
  end.

Fixpoint recoverAfterBodyItem_loop (fuel : nat) (open : list TokenType) (p : parser)
  : result parser :=
  match fuel with
  | O => OutOfFuel
  | S fuel' =>
    let '(tok, p1) := Read p in
    match Token_Type tok with
    | TokenNewline =>
        match open with
        | [] => Ok p1
        | _ => recoverAfterBodyItem_loop fuel' open p1
        end
    | TokenEOF => Ok p1
    | ty =>
        if is_opener ty then
          recoverAfterBodyItem_loop fuel' (ty :: open) p1
        else if is_plain_closer ty then
          let opener := oppositeBracket ty in
          recoverAfterBodyItem_loop fuel'
            (pop_through (fun t => bool_decide (t = opener)) open) p1
        else if bool_decide (ty = TokenTemplateSeqEnd) then
          recoverAfterBodyItem_loop fuel' (pop_through is_template_opener open) p1
        else
          recoverAfterBodyItem_loop fuel' open p1
    end
  end.

Definition loop_fuel (p : parser) : nat := S (length (Unread p)).

Definition recoverAfterBodyItem (p : parser) : result parser :=
  let p0 := set_recovery p in
  recoverAfterBodyItem_loop (loop_fuel p0) [] p0.

(** ** recoverOver

    The loop labelled [Token] reads up to and including the first token of
    type [start] or the end of the file; [recover] then looks for the end of
    the container found. *)
Fixpoint recoverOver_loop (fuel : nat) (start : TokenType) (p : parser) : result parser :=
  match fuel with
  | O => OutOfFuel
  | S fuel' =>
    let '(tok, p1) := Read p in
    if bool_decide (Token_Type tok = start) || bool_decide (Token_Type tok = TokenEOF)
    then Ok p1
    else recoverOver_loop fuel' start p1
  end.

Definition recoverOver (start : TokenType) (p : parser) : result parser :=
  let end_ := oppositeBracket start in
  p1 ← recoverOver_loop (loop_fuel p) start p;
  recover end_ p1.

(** ** What the parser takes from other packages

    - [cty_Value] and [Traversal]: the value type of package cty and the
      variable-path type of package zcl, carried by expression nodes;
    - [ScanGraphemeClusters]: the split function of package textseg, here as
      the list of grapheme clusters of the whole byte sequence;
    - [RangeBetween] and [Range_String]: [zcl.RangeBetween] and
      [Range.String] of package zcl;
    - [strconv_Quote]: the rendering of the verb [%q] of package fmt. *)
Section Zclsyntax.

Variable cty_Value : Type.
Variable Traversal : Type.
Variable ScanGraphemeClusters : string -> list string.
Variable RangeBetween : Range -> Range -> Range.
Variable Range_String : Range -> string.
Variable strconv_Quote : string -> string.

(** ** Expressions (expression.go) *)

Inductive Expression : Type :=
| LiteralValueExpr (Val : cty_Value) (SrcRange : Range)
| ScopeTraversalExpr (Trav : Traversal) (SrcRange : Range)
| FunctionCallExpr (Name : string) (Args : list Expression)
    (NameRange OpenParenRange CloseParenRange : Range).

Definition Expression_Range (e : Expression) : Range :=
  match e with
  | LiteralValueExpr _ r => r
  | ScopeTraversalExpr _ r => r
  | FunctionCallExpr _ _ nameRange _ closeParen => RangeBetween nameRange closeParen
  end.

Definition Expression_StartRange (e : Expression) : Range :=
  match e with
  | LiteralValueExpr _ r => r
  | ScopeTraversalExpr _ r => r
  | FunctionCallExpr _ _ nameRange openParen _ => RangeBetween nameRange openParen
  end.

(** ** Bodies, blocks and attributes

    Modelled from the spec: the struct declarations (structure.go) are not
    among the sources; the fields are those parser.go assigns and reads, and
    for [Attribute] those the data model of the spec lists.  A nil [*Body] is
    [None]. *)
Record Attribute : Type := mkAttribute {
  Attribute_Name : string;
  Attribute_Expr : Expression;
  Attribute_SrcRange : Range;
  Attribute_NameRange : Range
}.

Inductive Body : Type :=
  mkBody (Attributes : gmap string Attribute) (Blocks : list Block)
         (SrcRange EndRange : Range)
with Block : Type :=
  mkBlock (Type_ : string) (Labels : list string) (Body_ : option Body)
          (TypeRange : Range) (LabelRanges : list Range)
          (OpenBraceRange CloseBraceRange : Range).

Definition Body_Attributes (b : Body) : gmap string Attribute :=
  match b with mkBody attrs _ _ _ => attrs end.
Definition Body_Blocks (b : Body) : list Block :=
  match b with mkBody _ blocks _ _ => blocks end.
Definition Body_SrcRange (b : Body) : Range :=
  match b with mkBody _ _ r _ => r end.
Definition Body_EndRange (b : Body) : Range :=
  match b with mkBody _ _ _ r => r end.

Definition Block_Type (b : Block) : string :=
  match b with mkBlock ty _ _ _ _ _ _ => ty end.
Definition Block_Labels (b : Block) : list string :=
  match b with mkBlock _ labels _ _ _ _ _ => labels end.
Definition Block_Body (b : Block) : option Body :=
  match b with mkBlock _ _ body _ _ _ _ => body end.
Definition Block_TypeRange (b : Block) : Range :=
  match b with mkBlock _ _ _ r _ _ _ => r end.
Definition Block_LabelRanges (b : Block) : list Range :=
  match b with mkBlock _ _ _ _ rs _ _ => rs end.
Definition Block_OpenBraceRange (b : Block) : Range :=
  match b with mkBlock _ _ _ _ _ r _ => r end.
Definition Block_CloseBraceRange (b : Block) : Range :=
  match b with mkBlock _ _ _ _ _ _ r => r end.

(** The values of the interface type [Node] that a body item can be. *)
Inductive Node : Type :=
| NodeNil
| NodeBlock (b : Block)
| NodeAttribute (a : Attribute)
| NodeExpression (e : Expression).

(** ** Walking the child nodes (expression.go)

    [internalWalkFunc] is the type of the function a walk applies to every
    child node; here one without effects of its own.  The type assertion
    [w(arg).(Expression)] panics when what [w] returns is not an expression;
    the text of that run-time error is not modelled, and neither is the
    partly rewritten argument slice a panic leaves behind. *)
Definition internalWalkFunc : Type := Node -> Node.

Definition assertExpression (n : Node) : result Expression :=
  match n with
  | NodeExpression e => Ok e
  | _ => Panic "interface conversion"
  end.

(** The loop [for i, arg := range e.Args] of FunctionCallExpr.walkChildNodes. *)
Fixpoint walkArgs (w : internalWalkFunc) (args : list Expression)
  : result (list Expression) :=
  match args with
  | [] => Ok []
  | arg :: rest =>
      arg' ← assertExpression (w (NodeExpression arg));
      rest' ← walkArgs w rest;
      Ok (arg' :: rest')
  end.

(** The expression after the walk: literal values and scope traversals have
    no child nodes. *)
Definition Expression_walkChildNodes (w : internalWalkFunc) (e : Expression)
  : result Expression :=
  match e with
  | LiteralValueExpr _ _ => Ok e
  | ScopeTraversalExpr _ _ => Ok e
  | FunctionCallExpr name args nameRange openParen closeParen =>
      args' ← walkArgs w args;
      Ok (FunctionCallExpr name args' nameRange openParen closeParen)
  end.

(** ** decodeStringLit *)

Definition quoteMark : string := str1 byte_dquote.
Definition backslash : string := str1 byte_backslash.

Record decodeState : Type := mkDecodeState {
  ds_ret : string;
  ds_esc : string;
  ds_newPos : Pos;
  ds_diags : Diagnostics
}.

Definition is_line_ending (ch : string) : bool :=
  match ch with
  | String c EmptyString => bool_decide (c = byte_newline)
  | String _ (String c EmptyString) => bool_decide (c = byte_newline)
  | _ => false
  end.

Definition advancePos (pos : Pos) (ch : string) : Pos :=
  if is_line_ending ch
  then mkPos (int_add (Pos_Line pos) 1) 0 (int_add (Pos_Byte pos) (len ch))
  else mkPos (Pos_Line pos) (int_add (Pos_Column pos) 1) (int_add (Pos_Byte pos) (len ch)).

Definition single (ch : string) : option ascii :=
  match ch with
  | String c EmptyString => Some c
  | _ => None
  end.

Definition backslashEscape (c : ascii) : option ascii :=
  if bool_decide (c = "n"%char) then Some byte_newline
  else if bool_decide (c = "r"%char) then Some byte_cr
  else if bool_decide (c = "t"%char) then Some byte_tab
  else if bool_decide (c = byte_dquote) then Some byte_dquote
  else if bool_decide (c = byte_backslash) then Some byte_backslash
  else None.

Definition is_marker (c : ascii) : bool :=
  bool_decide (c = "$"%char) || bool_decide (c = "!"%char).

Definition invalidEscapeDetail (ch : string) : string :=
  match single ch with
  | Some c =>
      if is_marker c then
        "The characters " +:+ quoteMark +:+ backslash +:+ ch +:+ quoteMark
        +:+ " do not form a recognized escape sequence. To escape a "
        +:+ quoteMark +:+ ch +:+ "{" +:+ quoteMark +:+ " template sequence, use "
        +:+ quoteMark +:+ ch +:+ ch +:+ "{" +:+ quoteMark +:+ "."
      else
        "The characters " +:+ quoteMark +:+ backslash +:+ ch +:+ quoteMark
        +:+ " do not form a recognized escape sequence."
  | None =>
      "The characters " +:+ quoteMark +:+ backslash +:+ ch +:+ quoteMark
      +:+ " do not form a recognized escape sequence."
  end.

Definition invalidEscapeDiag (filename : string) (pos : Pos) (ch : string) : Diagnostic :=
  mkDiagnostic DiagError "Invalid escape sequence" (invalidEscapeDetail ch)
    (Some (mkRange filename
       (mkPos (Pos_Line pos) (int_sub (Pos_Column pos) 1) (int_sub (Pos_Byte pos) 1))
       (mkPos (Pos_Line pos) (int_add (Pos_Column pos) 1) (int_add (Pos_Byte pos) (len ch)))))
    None.

(** One iteration of the loop labelled [Character]: [ch] is the grapheme
    cluster the scanner delivers, [pos] the position before it. *)
Definition decodeStep (quoted : bool) (filename : string) (st : decodeState) (ch : string)
  : result decodeState :=
  let pos := ds_newPos st in
  let newPos := advancePos pos ch in
  let ret := ds_ret st in
  let diags := ds_diags st in
  match ds_esc st with
  | String e0 esc_tl =>
      let esc := ds_esc st in
      if bool_decide (e0 = byte_backslash) then
        match (c ← single ch; backslashEscape c) with
        | Some r => Ok (mkDecodeState (ret +:+ str1 r) "" newPos diags)
        | None =>
            Ok (mkDecodeState (ret +:+ ch) "" newPos
                  (diags ++ [invalidEscapeDiag filename pos ch]))
        end
      else if is_marker e0 then
        match esc_tl with
        | EmptyString =>
            if bool_decide (single ch = Some e0)
            then Ok (mkDecodeState ret (esc +:+ str1 e0) newPos diags)
            else Ok (mkDecodeState (ret +:+ esc +:+ ch) "" newPos diags)
        | String _ EmptyString =>
            if bool_decide (single ch = Some "{"%char)
            then Ok (mkDecodeState (ret +:+ str1 e0 +:+ ch) "" newPos diags)
            else Ok (mkDecodeState (ret +:+ esc +:+ ch) "" newPos diags)
        | _ => Panic "have invalid escape sequence >2 characters"
        end
      else Ok (mkDecodeState ret esc newPos diags)
  | EmptyString =>
      match single ch with
      | Some c =>
          if bool_decide (c = byte_backslash) then
            if quoted
            then Ok (mkDecodeState ret (str1 byte_backslash) newPos diags)
            else Ok (mkDecodeState (ret +:+ ch) "" newPos diags)
          else if bool_decide (c = "$"%char) then
            Ok (mkDecodeState ret "$" newPos diags)
          else if bool_decide (c = "!"%char) then
            Ok (mkDecodeState ret "!" newPos diags)
          else Ok (mkDecodeState (ret +:+ ch) "" newPos diags)
      | None => Ok (mkDecodeState (ret +:+ ch) "" newPos diags)
      end
  end.

Fixpoint decodeLoop (quoted : bool) (filename : string) (st : decodeState)
  (clusters : list string) : result decodeState :=
  match clusters with
  | [] => Ok st
  | ch :: rest =>
      st' ← decodeStep quoted filename st ch;
      decodeLoop quoted filename st' rest
  end.

Definition decodeStringLit (tok : Token) : result (string * Diagnostics) :=
  match
    match Token_Type tok with
    | TokenQuotedLit => Some true
    | TokenStringLit => Some false
    | _ => None
    end
  with
  | None =>
      Panic "decodeQuotedLit can only be used with TokenStringLit and TokenQuotedLit tokens"
  | Some quoted =>
      st ← decodeLoop quoted (Range_Filename (Token_Range tok))
             (mkDecodeState "" "" (Range_Start (Token_Range tok)) [])
             (ScanGraphemeClusters (Token_Bytes tok));
      Ok (ds_ret st, ds_diags st)
  end.

(** ** parseQuotedStringLiteral *)

(** The zero value of [Token], which [cQuote] holds when the loop is left
    without a closing quote.  Modelled from the spec: the zero token type is
    the "no token" member [TokenNil] of the enumeration. *)
Definition zeroPos : Pos := mkPos 0 0 0.
Definition zeroRange : Range := mkRange "" zeroPos zeroPos.
Definition zeroToken : Token := mkToken TokenNil "" zeroRange.

Definition templateNotAllowedDiag (oQuote tok : Token) : Diagnostic :=
  let which :=
    if bool_decide (Token_Type tok = TokenTemplateControl) then "!" else "$" in
  mkDiagnostic DiagError "Invalid string literal"
    ("Template sequences are not allowed in this string. To include a literal "
     +:+ strconv_Quote which +:+ ", double it (as " +:+ quoteMark +:+ which +:+ which +:+ quoteMark
     +:+ ") to escape it.")
    (Some (Token_Range tok))
    (Some (RangeBetween (Token_Range oQuote) (Token_Range tok))).

Definition unterminatedStringDiag (oQuote tok : Token) : Diagnostic :=
  mkDiagnostic DiagError "Unterminated string literal"
    "Unable to find the closing quote mark before the end of the file."
    (Some (Token_Range tok))
    (Some (RangeBetween (Token_Range oQuote) (Token_Range tok))).

Definition invalidStringItemDiag (oQuote tok : Token) : Diagnostic :=
  mkDiagnostic DiagError "Invalid string literal"
    "This item is not valid in a string literal."
    (Some (Token_Range tok))
    (Some (RangeBetween (Token_Range oQuote) (Token_Range tok))).

(** The loop labelled [Token] of parseQuotedStringLiteral; it yields the
    buffer [ret], the token [cQuote], the diagnostics and the parser. *)
Fixpoint parseQuotedStringLiteral_loop (fuel : nat) (oQuote : Token) (ret : string)
  (diags : Diagnostics) (p : parser)
  : result (string * Token * Diagnostics * parser) :=
  match fuel with
  | O => OutOfFuel
  | S fuel' =>
    let '(tok, p1) := Read p in
    match Token_Type tok with
    | TokenCQuote => Ok (ret, tok, diags, p1)
    | TokenQuotedLit =>
        '(s, sDiags) ← decodeStringLit tok;
        parseQuotedStringLiteral_loop fuel' oQuote (ret +:+ s) (diags ++ sDiags) p1
    | TokenTemplateControl | TokenTemplateInterp =>
        p2 ← recover TokenTemplateSeqEnd p1;
        parseQuotedStringLiteral_loop fuel' oQuote ret
          (diags ++ [templateNotAllowedDiag oQuote tok]) p2
    | TokenEOF =>
        Ok (ret, zeroToken, diags ++ [unterminatedStringDiag oQuote tok], p1)
    | _ =>
        p2 ← recover TokenOQuote p1;
        Ok (ret, zeroToken, diags ++ [invalidStringItemDiag oQuote tok], p2)
    end
  end.

Definition parseQuotedStringLiteral (p : parser)
  : result (string * Range * Diagnostics * parser) :=
  let '(oQuote, p1) := Read p in
  if negb (bool_decide (Token_Type oQuote = TokenOQuote)) then
    Ok ("", Token_Range oQuote,
        [mkDiagnostic DiagError "Invalid string literal"
           "A quoted string is required here." (Some (Token_Range oQuote)) None],
        p1)
  else
    '(ret, cQuote, diags, p2) ← parseQuotedStringLiteral_loop (loop_fuel p1) oQuote "" [] p1;
    Ok (ret, RangeBetween (Token_Range oQuote) (Token_Range cQuote), diags, p2).

(** ** finishParsingBodyAttribute *)

Definition finishParsingBodyAttribute (ident : Token) (p : parser)
  : result (Node * Diagnostics * parser) :=
  Panic "attribute parsing not yet implemented".

(** ** finishParsingBodyBlock *)

Definition invalidBlockDiag (detail : string) (ident tok : Token) : Diagnostic :=
  mkDiagnostic DiagError "Invalid block definition" detail
    (Some (Token_Range tok))
    (Some (RangeBetween (Token_Range ident) (Token_Range tok))).

Definition equalsInBlockDetail : string :=
  "The equals sign " +:+ quoteMark +:+ "=" +:+ quoteMark
  +:+ " indicates an attribute definition, and must not be used when defining a block.".

Definition newlineInBlockDetail : string :=
  "A block definition must have block content delimited by " +:+ quoteMark +:+ "{" +:+ quoteMark
  +:+ " and " +:+ quoteMark +:+ "}" +:+ quoteMark +:+ ", starting on the same line as the block header.".

Definition labelOrBraceDetail : string :=
  "Either a quoted string block label or an opening brace (" +:+ quoteMark +:+ "{" +:+ quoteMark
  +:+ ") is expected here.".

(** The block both error exits of the header loop return. *)
Definition partialBlock (ident : Token) (labels : list string) (labelRanges : list Range)
  : Block :=
  mkBlock (Token_Bytes ident) labels None
    (Token_Range ident) labelRanges (Token_Range ident) (Token_Range ident).

(** How the loop labelled [Token] of finishParsingBodyBlock is left: by a
    [return] from inside it, or by [break] with the opening brace read. *)
Inductive headerExit : Type :=
| HeaderReturn (b : Block) (diags : Diagnostics) (p : parser)
| HeaderBreak (oBrace : Token) (labels : list string) (labelRanges : list Range)
    (diags : Diagnostics) (p : parser).

Fixpoint blockHeader_loop (fuel : nat) (ident : Token) (labels : list string)
  (labelRanges : list Range) (diags : Diagnostics) (p : parser) : result headerExit :=
  match fuel with
  | O => OutOfFuel
  | S fuel' =>
    let tok := Peek p in
    match Token_Type tok with
    | TokenOBrace =>
        let '(oBrace, p1) := Read p in
        Ok (HeaderBreak oBrace labels labelRanges diags p1)
    | TokenOQuote =>
        '(label, labelRange, labelDiags, p1) ← parseQuotedStringLiteral p;
        let diags := diags ++ labelDiags in
        let labels := labels ++ [label] in
        let labelRanges := labelRanges ++ [labelRange] in
        if HasErrors labelDiags then
          p2 ← recoverAfterBodyItem p1;
          Ok (HeaderReturn (partialBlock ident labels labelRanges) diags p2)
        else blockHeader_loop fuel' ident labels labelRanges diags p1
    | ty =>
        let diags :=
          match ty with
          | TokenEqual => diags ++ [invalidBlockDiag equalsInBlockDetail ident tok]
          | TokenNewline => diags ++ [invalidBlockDiag newlineInBlockDetail ident tok]
          | _ =>
              if negb (parser_recovery p)
              then diags ++ [invalidBlockDiag labelOrBraceDetail ident tok]
              else diags
          end in
        p2 ← recoverAfterBodyItem p;
        Ok (HeaderReturn (partialBlock ident labels labelRanges) diags p2)
    end
  end.

Section BodyItems.

(** The recursive call of ParseBody, granted one activation less. *)
Variable ParseBody_rec : TokenType -> parser -> result (Body * Diagnostics * parser).

Definition finishParsingBodyBlock_open (ident : Token) (p : parser)
  : result (Node * Diagnostics * parser) :=
  exit ← blockHeader_loop (loop_fuel p) ident [] [] [] p;
  match exit with
  | HeaderReturn b diags p1 => Ok (NodeBlock b, diags, p1)
  | HeaderBreak oBrace labels labelRanges diags p1 =>
      '(body, bodyDiags, p2) ← ParseBody_rec TokenCBrace p1;
      let diags := diags ++ bodyDiags in
      let cBraceRange := PrevRange p2 in
      Ok (NodeBlock
            (mkBlock (Token_Bytes ident) labels (Some body)
               (Token_Range ident) labelRanges (Token_Range oBrace) cBraceRange),
          diags, p2)
  end.

Definition definitionRequiredDiag (detail : string) (tok : Token) : Diagnostic :=
  mkDiagnostic DiagError "Attribute or block definition required" detail
    (Some (Token_Range tok)) None.

Definition definitionRequiredDetail : string :=
  "An attribute or block definition is required here.".

Definition useEqualsDetail : string :=
  "An attribute or block definition is required here. To define an attribute, use the equals sign "
  +:+ quoteMark +:+ "=" +:+ quoteMark +:+ " to introduce the attribute value.".

Definition ParseBodyItem_open (p : parser) : result (Node * Diagnostics * parser) :=
  let '(ident, p1) := Read p in
  if negb (bool_decide (Token_Type ident = TokenIdent)) then
    p2 ← recoverAfterBodyItem p1;
    Ok (NodeNil, [definitionRequiredDiag definitionRequiredDetail ident], p2)
  else
    let next := Peek p1 in
    match Token_Type next with
    | TokenEqual => finishParsingBodyAttribute ident p1
    | TokenOQuote | TokenOBrace => finishParsingBodyBlock_open ident p1
    | _ =>
        p2 ← recoverAfterBodyItem p1;
        Ok (NodeNil, [definitionRequiredDiag useEqualsDetail ident], p2)
    end.

End BodyItems.

(** ** ParseBody *)

Definition attributeRedefinedDiag (titem existing : Attribute) : Diagnostic :=
  mkDiagnostic DiagError "Attribute redefined"
    ("The attribute " +:+ strconv_Quote (Attribute_Name titem)
     +:+ " was already defined at " +:+ Range_String (Attribute_NameRange existing)
     +:+ ". Each attribute may be defined only once.")
    (Some (Attribute_NameRange titem)) None.

Definition quotedNameDiag (bad : Token) : Diagnostic :=
  mkDiagnostic DiagError "Invalid attribute name" "Attribute names must not be quoted."
    (Some (Token_Range bad)) None.

(** The loop labelled [Token] of ParseBody, over the item parser it calls;
    it yields [attrs], [blocks], [diags], [endRange] and the parser. *)
Fixpoint ParseBody_loop
  (parseItem : parser -> result (Node * Diagnostics * parser))
  (fuel : nat) (end_ : TokenType)
  (attrs : gmap string Attribute) (blocks : list Block) (diags : Diagnostics) (p : parser)
  : result (gmap string Attribute * list Block * Diagnostics * Range * parser) :=
  match fuel with
  | O => OutOfFuel
  | S fuel' =>
    let next := Peek p in
    if bool_decide (Token_Type next = end_) then
      let endRange := NextRange p in
      let '(_, p1) := Read p in
      Ok (attrs, blocks, diags, endRange, p1)
    else
      match Token_Type next with
      | TokenNewline =>
          let '(_, p1) := Read p in
          ParseBody_loop parseItem fuel' end_ attrs blocks diags p1
      | TokenIdent =>
          '(item, itemDiags, p1) ← parseItem p;
          let diags := diags ++ itemDiags in
          match item with
          | NodeBlock titem =>
              ParseBody_loop parseItem fuel' end_ attrs (blocks ++ [titem]) diags p1
          | NodeAttribute titem =>
              match attrs !! Attribute_Name titem with
              | Some existing =>
                  ParseBody_loop parseItem fuel' end_ attrs blocks
                    (diags ++ [attributeRedefinedDiag titem existing]) p1
              | None =>
                  ParseBody_loop parseItem fuel' end_
                    (<[Attribute_Name titem := titem]> attrs) blocks diags p1
              end
          | _ => ParseBody_loop parseItem fuel' end_ attrs blocks diags p1
          end
      | _ =>
          let '(bad, p1) := Read p in
          let diags :=
            if negb (parser_recovery p1) then
              if bool_decide (Token_Type bad = TokenOQuote)
              then diags ++ [quotedNameDiag bad]
              else diags ++ [definitionRequiredDiag definitionRequiredDetail bad]
            else diags in
          let endRange := PrevRange p1 in
          p2 ← recover end_ p1;
          Ok (attrs, blocks, diags, endRange, p2)
      end
  end.

Fixpoint ParseBody (depth : nat) (end_ : TokenType) (p : parser)
  : result (Body * Diagnostics * parser) :=
  match depth with
  | O => StackOverflow
  | S depth' =>
      let startRange := PrevRange p in
      '(attrs, blocks, diags, endRange, p1) ←
        ParseBody_loop (ParseBodyItem_open (ParseBody depth')) (loop_fuel p) end_ ∅ [] [] p;
      Ok (mkBody attrs blocks (RangeBetween startRange endRange)
            (mkRange (Range_Filename endRange) (Range_End endRange) (Range_End endRange)),
          diags, p1)
  end.

Definition ParseBodyItem (depth : nat) : parser -> result (Node * Diagnostics * parser) :=
  ParseBodyItem_open (ParseBody depth).

Definition finishParsingBodyBlock (depth : nat)
  : Token -> parser -> result (Node * Diagnostics * parser) :=
  finishParsingBodyBlock_open (ParseBody depth).

(** ** Vocabulary of the statements *)

(** The split of a byte sequence into one cluster per byte: what the
    grapheme scanner delivers on text of unaccented ASCII letters, digits
    and punctuation. *)
Definition bytewise (s : string) : list string :=
  map str1 (list_ascii_of_string s).

Definition quotedLit (bytes : string) (r : Range) : Token :=
  mkToken TokenQuotedLit bytes r.

Definition decodePanicMessage : string :=
  "decodeQuotedLit can only be used with TokenStringLit and TokenQuotedLit tokens".

Definition initialDecodeState (tok : Token) : decodeState :=
  mkDecodeState "" "" (Range_Start (Token_Range tok)) [].

Definition decodeMode (tok : Token) : option bool :=
  match Token_Type tok with
  | TokenQuotedLit => Some true
  | TokenStringLit => Some false
  | _ => None
  end.

(** The contents the escape buffer [esc] can have: nothing, a backslash,
    one marker character, or the same marker character twice. *)
Definition esc_wf (esc : string) : Prop :=
  match esc with
  | EmptyString => True
  | String e0 EmptyString => e0 = byte_backslash \/ is_marker e0 = true
  | String e0 (String e1 EmptyString) => is_marker e0 = true /\ e1 = e0
  | _ => False
  end.

(** The parser after [n] further calls of [Read]. *)
Fixpoint readN (n : nat) (p : parser) : parser :=
  match n with
  | O => p
  | S n' => readN n' (Read p).2
  end.

(** A parser about to read [toks], with nothing read before. *)
Definition startParser (toks : list Token) : parser :=
  mkParser (mkPeeker toks zeroRange zeroRange) false.

(** Literal text inside a quoted label that decodes without diagnostics. *)
Definition cleanQuotedLit (tok : Token) : Prop :=
  Token_Type tok = TokenQuotedLit /\ exists s, decodeStringLit tok = Ok (s, []).

(** The tokens of one quoted block label free of errors: an opening quote,
    literal text, a closing quote. *)
Inductive wf_label : list Token -> Prop :=
| wf_label_intro (oQuote : Token) (lits : list Token) (cQuote : Token) :
    Token_Type oQuote = TokenOQuote ->
    Forall cleanQuotedLit lits ->
    Token_Type cQuote = TokenCQuote ->
    wf_label (oQuote :: lits ++ [cQuote]).

Inductive wf_labels : list Token -> Prop :=
| wf_labels_nil : wf_labels []
| wf_labels_cons (label rest : list Token) :
    wf_label label -> wf_labels rest -> wf_labels (label ++ rest).

(** [wf_items d toks idents]: the tokens [toks] are a sequence of body items
    without syntax errors and without attributes, namely newlines and blocks
    (type name, labels, opening brace, items, closing brace), nested at most
    [d] deep; [idents] are the type-name tokens of the blocks of the sequence
    itself, in source order. *)
Inductive wf_items : nat -> list Token -> list Token -> Prop :=
| wf_items_nil (d : nat) : wf_items d [] []
| wf_items_newline (d : nat) (nl : Token) (toks idents : list Token) :
    Token_Type nl = TokenNewline ->
    wf_items d toks idents ->
    wf_items d (nl :: toks) idents
| wf_items_block (d : nat) (ident : Token) (labels : list Token) (oBrace : Token)
    (body inner : list Token) (cBrace : Token) (toks idents : list Token) :
    Token_Type ident = TokenIdent ->
    wf_labels labels ->
    Token_Type oBrace = TokenOBrace ->
    wf_items d body inner ->
    Token_Type cBrace = TokenCBrace ->
    wf_items (S d) toks idents ->
    wf_items (S d) (ident :: labels ++ oBrace :: body ++ cBrace :: toks) (ident :: idents).

(** Every block of a tree carries as many label ranges as labels. *)
Fixpoint block_labels_ok (b : Block) : Prop :=
  match b with
  | mkBlock _ labels body _ labelRanges _ _ =>
      length labels = length labelRanges /\
      match body with
      | None => True
      | Some (mkBody _ blocks _ _) =>
          (fix all (bs : list Block) : Prop :=
             match bs with
             | [] => True
             | b' :: bs' => block_labels_ok b' /\ all bs'
             end) blocks
      end
  end.

Definition body_labels_ok (body : Body) : Prop :=
  Forall block_labels_ok (Body_Blocks body).

(** [headerErrorAt p perr]: scanning a block header from [p], the parser
    detects an error, and [perr] is the state in which it does: after a
    quoted label whose parse reported an error, or in front of a token that
    is neither a label nor the opening brace (an equals sign, a newline, or
    anything else), possibly after labels free of errors. *)
Inductive headerErrorAt : parser -> parser -> Prop :=
| headerError_label p label labelRange labelDiags p1 :
    Token_Type (Peek p) = TokenOQuote ->
    parseQuotedStringLiteral p = Ok (label, labelRange, labelDiags, p1) ->
    HasErrors labelDiags = true ->
    headerErrorAt p p1
| headerError_token p :
    Token_Type (Peek p) <> TokenOQuote ->
    Token_Type (Peek p) <> TokenOBrace ->
    headerErrorAt p p
| headerError_later p label labelRange labelDiags p1 perr :
    Token_Type (Peek p) = TokenOQuote ->
    parseQuotedStringLiteral p = Ok (label, labelRange, labelDiags, p1) ->
    HasErrors labelDiags = false ->
    headerErrorAt p1 perr ->
    headerErrorAt p perr.


Definition attributePanicMessage : string := "attribute parsing not yet implemented".

(** [templateBalanced k toks]: in [toks] every template opener (of either
    kind) is closed by a template-sequence-end and the other way round, the
    nesting being at most [k] deep; [toks] holds no end-of-file token. *)
Inductive templateBalanced : nat -> list Token -> Prop :=
| templateBalanced_nil (k : nat) : templateBalanced k []
| templateBalanced_plain (k : nat) (tok : Token) (toks : list Token) :
    is_template_opener (Token_Type tok) = false ->
    Token_Type tok <> TokenTemplateSeqEnd ->
    Token_Type tok <> TokenEOF ->
    templateBalanced k toks ->
    templateBalanced k (tok :: toks)
| templateBalanced_nested (k : nat) (topen : Token) (inner : list Token) (tend : Token)
    (toks : list Token) :
    is_template_opener (Token_Type topen) = true ->
    templateBalanced k inner ->
    Token_Type tend = TokenTemplateSeqEnd ->
    templateBalanced (S k) toks ->
    templateBalanced (S k) (topen :: inner ++ tend :: toks).

(** A quoted label with one template sequence in it:
    [oQuote lits1 topen inner tend lits2 cQuote]. *)
Definition templateLabel (oQuote : Token) (lits1 : list Token) (topen : Token)
  (inner : list Token) (tend : Token) (lits2 : list Token) (cQuote : Token) : list Token :=
  oQuote :: lits1 ++ topen :: inner ++ tend :: lits2 ++ [cQuote].

Definition templateNotAllowedDetail (which : string) : string :=
  "Template sequences are not allowed in this string. To include a literal "
  +:+ strconv_Quote which +:+ ", double it (as " +:+ quoteMark +:+ which +:+ which +:+ quoteMark
  +:+ ") to escape it.".

(** What a parsing function run from [p] may come to: it returns, having
    consumed some of the unread tokens from the front, or it panics because
    attribute parsing is missing; it neither exhausts the fuel of a loop nor
    the call stack. *)
Definition returnsOrAttributePanic {A : Type} (p : parser) (r : result (A * parser)) : Prop :=
  match r with
  | Ok (_, p') => Unread p' `suffix_of` Unread p
  | Panic msg => msg = attributePanicMessage
  | OutOfFuel | StackOverflow => False
  end.

(** The header loop consumes tokens from the front, and at least the brace
    when it is left by [break]. *)
Definition headerExit_ok (p : parser) (exit : headerExit) : Prop :=
  match exit with
  | HeaderReturn _ _ p' => Unread p' `suffix_of` Unread p
  | HeaderBreak _ _ _ _ p' =>
      Unread p' `suffix_of` Unread p /\ (length (Unread p') < length (Unread p))%nat
  end.

(** The type under which [recover] counts a token when it looks for
    [end_]: both template openers count as the interpolation opener when the
    template-sequence-end is sought. *)
Definition recoverType (end_ : TokenType) (tok : Token) : TokenType :=
  if bool_decide (end_ = TokenTemplateSeqEnd)
     && bool_decide (Token_Type tok = TokenTemplateControl)
  then TokenTemplateInterp
  else Token_Type tok.

(** [pairsBalanced end_ k toks]: in [toks] every token counted as the opener
    opposite [end_] is closed by a token of type [end_] and the other way
    round, the nesting being at most [k] deep; [toks] holds no end-of-file
    token. *)
Inductive pairsBalanced (end_ : TokenType) : nat -> list Token -> Prop :=
| pairsBalanced_nil (k : nat) : pairsBalanced end_ k []
| pairsBalanced_plain (k : nat) (tok : Token) (toks : list Token) :
    recoverType end_ tok <> oppositeBracket end_ ->
    recoverType end_ tok <> end_ ->
    recoverType end_ tok <> TokenEOF ->
    pairsBalanced end_ k toks ->
    pairsBalanced end_ k (tok :: toks)
| pairsBalanced_nested (k : nat) (topen : Token) (inner : list Token) (tend : Token)
    (toks : list Token) :
    recoverType end_ topen = oppositeBracket end_ ->
    pairsBalanced end_ k inner ->
    recoverType end_ tend = end_ ->
    pairsBalanced end_ (S k) toks ->
    pairsBalanced end_ (S k) (topen :: inner ++ tend :: toks).

(** [closes opener closer]: the closing token [closer] pops the opening
    token [opener] off the stack of recoverAfterBodyItem. *)
Definition closes (opener closer : Token) : Prop :=
  is_opener (Token_Type opener) = true /\
  ((is_plain_closer (Token_Type closer) = true /\
    oppositeBracket (Token_Type closer) = Token_Type opener) \/
   (Token_Type closer = TokenTemplateSeqEnd /\
    is_template_opener (Token_Type opener) = true)).

(** A token that recoverAfterBodyItem reads without touching its stack,
    newlines apart. *)
Definition inert (tok : Token) : Prop :=
  is_opener (Token_Type tok) = false /\
  is_plain_closer (Token_Type tok) = false /\
  Token_Type tok <> TokenTemplateSeqEnd /\
  Token_Type tok <> TokenEOF.

(** Tokens between an opening bracketer and its closer: inert tokens and
    newlines, and bracketed groups of the same kind. *)
Inductive insideBalanced : list Token -> Prop :=
| insideBalanced_nil : insideBalanced []
| insideBalanced_inert (tok : Token) (toks : list Token) :
    inert tok -> insideBalanced toks -> insideBalanced (tok :: toks)
| insideBalanced_group (opener : Token) (inner : list Token) (closer : Token)
    (toks : list Token) :
    closes opener closer -> insideBalanced inner -> insideBalanced toks ->
    insideBalanced (opener :: inner ++ closer :: toks).

(** The rest of a line outside all brackets: inert tokens other than
    newlines, closers that close nothing, and bracketed groups. *)
Inductive lineBalanced : list Token -> Prop :=
| lineBalanced_nil : lineBalanced []
| lineBalanced_inert (tok : Token) (toks : list Token) :
    inert tok -> Token_Type tok <> TokenNewline ->
    lineBalanced toks -> lineBalanced (tok :: toks)
| lineBalanced_stray (tok : Token) (toks : list Token) :
    is_plain_closer (Token_Type tok) = true \/ Token_Type tok = TokenTemplateSeqEnd ->
    lineBalanced toks -> lineBalanced (tok :: toks)
| lineBalanced_group (opener : Token) (inner : list Token) (closer : Token)
    (toks : list Token) :
    closes opener closer -> insideBalanced inner -> lineBalanced toks ->
    lineBalanced (opener :: inner ++ closer :: toks).

(** [stopsAfter stop p p']: from [p] the parser has read on to [p'], which
    is either the end of the input or the point just after a token that
    satisfies [stop]. *)
Definition stopsAfter (stop : Token -> Prop) (p p' : parser) : Prop :=
  Unread p' = [] \/
  exists consumed tok, Unread p = consumed ++ tok :: Unread p' /\ stop tok.

(** The bytes of a sequence of clusters, one after the other. *)
Definition concatClusters (clusters : list string) : string :=
  foldr String.append "" clusters.

(** A cluster that starts no escape: not a dollar sign, not an exclamation
    mark and, in quoted mode, not a backslash. *)
Definition plainCluster (quoted : bool) (ch : string) : Prop :=
  match single ch with
  | Some c =>
      c <> "$"%char /\ c <> "!"%char /\ (quoted = true -> c <> byte_backslash)
  | None => True
  end.

(** The diagnostic the escape decoder reports, whatever its position. *)
Definition isInvalidEscapeDiag (filename : string) (d : Diagnostic) : Prop :=
  Diagnostic_Severity d = DiagError /\
  Diagnostic_Summary d = "Invalid escape sequence" /\
  Diagnostic_Context d = None /\
  exists r, Diagnostic_Subject d = Some r /\ Range_Filename r = filename.

(** In unquoted mode the escape buffer never holds a backslash. *)
Definition esc_unquoted (quoted : bool) (esc : string) : Prop :=
  quoted = false ->
  match esc with
  | String e0 _ => e0 <> byte_backslash
  | EmptyString => True
  end.

(** A diagnostic of severity error. *)
Definition isError (d : Diagnostic) : Prop := Diagnostic_Severity d = DiagError.

(** [trail p new p']: a parsing function run from [p] has reported [new] and
    left the parser at [p'].  What it reported are errors; it has not left
    recovery mode; and it has entered recovery mode only with a report. *)
Definition trail (p : parser) (new : Diagnostics) (p' : parser) : Prop :=
  Forall isError new /\
  (parser_recovery p = true -> parser_recovery p' = true) /\
  (parser_recovery p' = true -> parser_recovery p = true \/ new <> []).

(** The zero-width range at the end of [r]. *)
Definition endOf (r : Range) : Range :=
  mkRange (Range_Filename r) (Range_End r) (Range_End r).

(** A block with a body that spans from the opening brace to the closing
    brace of the block, all of whose nested blocks are complete as well. *)
Fixpoint block_complete (b : Block) : Prop :=
  match b with
  | mkBlock _ _ body _ _ oBrace cBrace =>
      match body with
      | None => False
      | Some (mkBody _ blocks srcRange endRange) =>
          srcRange = RangeBetween oBrace cBrace /\
          endRange = endOf cBrace /\
          (fix all (bs : list Block) : Prop :=
             match bs with
             | [] => True
             | b' :: bs' => block_complete b' /\ all bs'
             end) blocks
      end
  end.

Definition body_complete (body : Body) : Prop :=
  Forall block_complete (Body_Blocks body).

(** A body parsed from [p] to [p'] whose blocks are complete and which,
    when a closing token ends it, spans from the token before it to that
    closing token. *)
Definition body_parsed (end_ : TokenType) (p : parser) (body : Body) (p' : parser) : Prop :=
  body_complete body /\
  (end_ <> TokenEOF ->
   Body_SrcRange body = RangeBetween (PrevRange p) (PrevRange p') /\
   Body_EndRange body = endOf (PrevRange p')).

Definition item_complete (item : Node) (p' : parser) : Prop :=
  match item with
  | NodeBlock b => block_complete b
  | NodeNil => False
  | _ => True
  end.

(** What one parsing function owes its caller: a trail, and a complete
    result when it started outside recovery mode and reported nothing. *)
Definition reports {A : Type} (complete : A -> parser -> Prop) (p : parser)
  (r : result (A * Diagnostics * parser)) : Prop :=
  forall x diags p', r = Ok (x, diags, p') ->
    trail p diags p' /\ (parser_recovery p = false -> diags = [] -> complete x p').

(** The text and the diagnostics decodeStringLit gives for one token. *)
Definition decodedText (tok : Token) : string :=
  match decodeStringLit tok with
  | Ok (s, _) => s
  | _ => ""
  end.

Definition decodedDiags (tok : Token) : Diagnostics :=
  match decodeStringLit tok with
  | Ok (_, ds) => ds
  | _ => []
  end.

Definition isQuotedLit (tok : Token) : Prop := Token_Type tok = TokenQuotedLit.

(** The decoded literals of a label, one after the other, and what decoding
    them reports. *)
Definition labelText (lits : list Token) : string :=
  concatClusters (map decodedText lits).

Definition labelDiags (lits : list Token) : Diagnostics :=
  concat (map decodedDiags lits).

(** Somewhere in [toks] an identifier is directly followed by an equals
    sign. *)
Definition hasAttributeStart (toks : list Token) : Prop :=
  exists pre ident equals rest,
    toks = pre ++ ident :: equals :: rest /\
    Token_Type ident = TokenIdent /\ Token_Type equals = TokenEqual.

(** The position after the clusters [cs], counted from [pos]. *)
Definition posAfter (pos : Pos) (cs : list string) : Pos :=
  fold_left advancePos cs pos.

Definition noLineEnding (ch : string) : Prop := is_line_ending ch = false.

(** A quoted label as its tokens: the opening quote, the literals and the
    closing quote. *)
Definition labelTokens (l : Token * list Token * Token) : list Token :=
  let '(oQuote, lits, cQuote) := l in oQuote :: lits ++ [cQuote].

Definition headerTokens (ls : list (Token * list Token * Token)) : list Token :=
  concat (map labelTokens ls).

(** A label of literal text whose decoding reports nothing. *)
Definition cleanLabel (l : Token * list Token * Token) : Prop :=
  let '(oQuote, lits, cQuote) := l in
  Token_Type oQuote = TokenOQuote /\
  Forall isQuotedLit lits /\
  labelDiags lits = [] /\
  Token_Type cQuote = TokenCQuote.

Definition labelOf (l : Token * list Token * Token) : string :=
  let '(_, lits, _) := l in labelText lits.

Definition labelRangeOf (l : Token * list Token * Token) : Range :=
  let '(oQuote, _, cQuote) := l in
  RangeBetween (Token_Range oQuote) (Token_Range cQuote).

(** What finishParsingBodyBlock reports for the token [bad] found where a
    label or the opening brace is expected. *)
Definition headerDiags (ident bad : Token) (recovering : bool) : Diagnostics :=
  match Token_Type bad with
  | TokenEqual => [invalidBlockDiag equalsInBlockDetail ident bad]
  | TokenNewline => [invalidBlockDiag newlineInBlockDetail ident bad]
  | _ => if recovering then [] else [invalidBlockDiag labelOrBraceDetail ident bad]
  end.

(** ** Sample inputs

    Simple stand-ins for what the parser takes from other packages (a
    scanner that delivers ASCII text byte by byte, keeping a carriage return
    and the line feed after it together; plain renderings of ranges and of
    quoted strings) and a few token streams. *)

Fixpoint asciiClusters (s : string) : list string :=
  match s with
  | EmptyString => []
  | String c rest =>
      match rest with
      | String c2 rest2 =>
          if bool_decide (c = byte_cr) && bool_decide (c2 = byte_newline)
          then String c (String c2 EmptyString) :: asciiClusters rest2
          else str1 c :: asciiClusters rest
      | EmptyString => [str1 c]
      end
  end.

Definition spanBetween (a b : Range) : Range :=
  mkRange (Range_Filename a) (Range_Start a) (Range_End b).

Definition rangeName (r : Range) : string := Range_Filename r.

Definition quoteASCII (s : string) : string := quoteMark +:+ s +:+ quoteMark.

Definition rangeAt (i : Z) : Range :=
  mkRange "test.zcl" (mkPos 1 (i + 1) i) (mkPos 1 (i + 2) (i + 1)).

Definition tokenAt (ty : TokenType) (bytes : string) (i : Z) : Token :=
  mkToken ty bytes (rangeAt i).

(** [a { } <newline> b "x" { c { } } <newline>] *)
Definition twoBlocks : list Token :=
  [ tokenAt TokenIdent "a" 0; tokenAt TokenOBrace "{" 2; tokenAt TokenCBrace "}" 3;
    tokenAt TokenNewline "" 4;
    tokenAt TokenIdent "b" 5; tokenAt TokenOQuote "" 7; tokenAt TokenQuotedLit "x" 8;
    tokenAt TokenCQuote "" 9; tokenAt TokenOBrace "{" 11;
    tokenAt TokenIdent "c" 13; tokenAt TokenOBrace "{" 15; tokenAt TokenCBrace "}" 16;
    tokenAt TokenCBrace "}" 18; tokenAt TokenNewline "" 19 ].

(** [a = 1 <newline>] *)
Definition oneAttribute : list Token :=
  [ tokenAt TokenIdent "a" 0; tokenAt TokenEqual "=" 2; tokenAt (TokenOther 1) "1" 4;
    tokenAt TokenNewline "" 5 ].

(** [a = 1 <newline> a = 2 <newline>] *)
Definition attributeTwice : list Token :=
  [ tokenAt TokenIdent "a" 0; tokenAt TokenEqual "=" 2; tokenAt (TokenOther 1) "1" 4;
    tokenAt TokenNewline "" 5;
    tokenAt TokenIdent "a" 6; tokenAt TokenEqual "=" 8; tokenAt (TokenOther 1) "2" 10;
    tokenAt TokenNewline "" 11 ].

(** [a "${x}" { } <newline> b { } <newline>] *)
Definition templateInLabel : list Token :=
  [ tokenAt TokenIdent "a" 0; tokenAt TokenOQuote "" 2; tokenAt TokenTemplateInterp "${" 3;
    tokenAt TokenIdent "x" 5; tokenAt TokenTemplateSeqEnd "}" 6; tokenAt TokenCQuote "" 7;
    tokenAt TokenOBrace "{" 9; tokenAt TokenCBrace "}" 10; tokenAt TokenNewline "" 11;
    tokenAt TokenIdent "b" 12; tokenAt TokenOBrace "{" 14; tokenAt TokenCBrace "}" 15;
    tokenAt TokenNewline "" 16 ].


(** [x { y } } <newline>]: what is left of a brace group, seen from inside. *)
Definition insideBraces : list Token :=
  [ tokenAt TokenIdent "x" 0; tokenAt TokenOBrace "{" 2; tokenAt TokenIdent "y" 4;
    tokenAt TokenCBrace "}" 6; tokenAt TokenCBrace "}" 8; tokenAt TokenNewline "" 9 ].

(** [a { x } <newline>] *)
Definition braceGroup : list Token :=
  [ tokenAt TokenIdent "a" 0; tokenAt TokenOBrace "{" 2; tokenAt TokenIdent "x" 4;
    tokenAt TokenCBrace "}" 6; tokenAt TokenNewline "" 7 ].


(** [a b <newline> c { } <newline>] *)
Definition itemInError : list Token :=
  [ tokenAt TokenIdent "a" 0; tokenAt TokenIdent "b" 2; tokenAt TokenNewline "" 3;
    tokenAt TokenIdent "c" 4; tokenAt TokenOBrace "{" 6; tokenAt TokenCBrace "}" 7;
    tokenAt TokenNewline "" 8 ].

(** [a { } = x } <newline>]: the inside of a block, with a stray equals sign. *)
Definition strayEquals : list Token :=
  [ tokenAt TokenIdent "a" 0; tokenAt TokenOBrace "{" 2; tokenAt TokenCBrace "}" 3;
    tokenAt TokenEqual "=" 5; tokenAt TokenIdent "x" 7; tokenAt TokenCBrace "}" 9;
    tokenAt TokenNewline "" 10 ].

(** [a { } <newline>] *)
Definition oneBlock : list Token :=
  [ tokenAt TokenIdent "a" 0; tokenAt TokenOBrace "{" 2; tokenAt TokenCBrace "}" 3;
    tokenAt TokenNewline "" 4 ].

(** An opening quote and [x], then the end of the input. *)
Definition openLabel : list Token :=
  [ tokenAt TokenOQuote "" 0; tokenAt TokenQuotedLit "x" 1 ].

(** A label with an identifier token in it, then a brace and two more
    opening quotes. *)
Definition itemInLabel : list Token :=
  [ tokenAt TokenOQuote "" 0; tokenAt TokenQuotedLit "x" 1; tokenAt TokenIdent "y" 3;
    tokenAt TokenCQuote "" 4; tokenAt TokenOBrace "{" 6; tokenAt TokenOQuote "" 8;
    tokenAt TokenOQuote "" 10; tokenAt TokenNewline "" 11 ].

(** ["x" = <newline>]: a header that ends in an equals sign. *)
Definition labelThenEquals : list Token :=
  [ tokenAt TokenOQuote "" 2; tokenAt TokenQuotedLit "x" 3; tokenAt TokenCQuote "" 4;
    tokenAt TokenEqual "=" 6; tokenAt TokenNewline "" 7 ].

(** * Properties *)

(** ** Go's int *)

Lemma int_wrap_small z : in_int z -> int_wrap z = z.
Proof.
  unfold in_int, int_min, int_max, int_wrap. intros Hz.
  rewrite Z.mod_small by lia. lia.
Qed.

Lemma int_wrap_range z : in_int (int_wrap z).
Proof.
  unfold in_int, int_min, int_max, int_wrap.
  pose proof (Z.mod_pos_bound (z + 2 ^ 63) (2 ^ 64) ltac:(lia)). lia.
Qed.

Lemma int_add_one_le n : in_int n -> int_add n 1 <= n + 1.
Proof.
  intros Hn. destruct (Z.eq_dec n int_max) as [->|Hne].
  - vm_compute. discriminate.
  - unfold int_add. rewrite int_wrap_small; [lia|].
    unfold in_int, int_min, int_max in *. lia.
Qed.

Lemma int_sub_one n : in_int n -> 1 <= n -> int_sub n 1 = n - 1.
Proof.
  intros Hn Hpos. unfold int_sub. apply int_wrap_small.
  unfold in_int, int_min, int_max in *. lia.
Qed.

(** ** The token source *)

Lemma Read_cons p tok rest :
  Unread p = tok :: rest ->
  Read p = (tok, mkParser (mkPeeker rest (Token_Range tok) (peeker_EOFRange (parser_peeker p)))
                    (parser_recovery p)).
Proof.
  unfold Unread, Read, peeker_Read. intros ->. reflexivity.
Qed.

Lemma Read_nil p :
  Unread p = [] -> Read p = (eofToken (parser_peeker p), p).
Proof.
  unfold Unread, Read, peeker_Read. intros ->. destruct p; reflexivity.
Qed.

Lemma Peek_cons p tok rest : Unread p = tok :: rest -> Peek p = tok.
Proof. unfold Unread, Peek, peeker_Peek. intros ->. reflexivity. Qed.

Lemma Peek_nil p : Unread p = [] -> Peek p = eofToken (parser_peeker p).
Proof. unfold Unread, Peek, peeker_Peek. intros ->. reflexivity. Qed.

Lemma Read_suffix p :
  Unread (Read p).2 `suffix_of` Unread p /\
  parser_recovery (Read p).2 = parser_recovery p.
Proof.
  destruct (Unread p) as [|tok rest] eqn:Hu.
  - rewrite (Read_nil p Hu). simpl. rewrite Hu. done.
  - rewrite (Read_cons p tok rest Hu). simpl. split; [|done].
    unfold Unread at 1. simpl. by apply suffix_cons_r.
Qed.

(** [Read] either consumes one token, or stands at the end of the input and
    delivers the end-of-file sentinel. *)
Lemma Read_cases p :
  (exists tok rest, Unread p = tok :: rest /\ (Read p).1 = tok /\
                    Unread (Read p).2 = rest) \/
  (Unread p = [] /\ Token_Type (Read p).1 = TokenEOF /\ (Read p).2 = p).
Proof.
  destruct (Unread p) as [|tok rest] eqn:Hu.
  - right. rewrite (Read_nil p Hu). done.
  - left. exists tok, rest. rewrite (Read_cons p tok rest Hu). done.
Qed.

Lemma oppositeBracket_not_EOF ty : oppositeBracket ty <> TokenEOF.
Proof. destruct ty; discriminate. Qed.

(** ** Termination of the two recovery scans *)

Lemma recover_loop_terminates fuel start end_ nest p :
  start <> TokenEOF ->
  in_int nest ->
  (2 * length (Unread p) + Z.to_nat nest + 1 <= fuel)%nat ->
  exists p', recover_loop fuel start end_ nest p = Ok p' /\
             Unread p' `suffix_of` Unread p /\
             parser_recovery p' = parser_recovery p.
Proof.
  intros Hstart. revert nest p.
  induction fuel as [|fuel IH]; intros nest p Hnest Hfuel; [lia|].
  cbn [recover_loop].
  destruct (Read p) as [tok p1] eqn:HR.
  pose proof (Read_suffix p) as [Hsuf Hrec]. rewrite HR in Hsuf, Hrec. simpl in Hsuf, Hrec.
  pose proof (Read_cases p) as Hcases. rewrite HR in Hcases. simpl in Hcases.
  set (ty := if _ && _ then _ else _).
  assert (Hcont : forall nest',
    in_int nest' ->
    (Z.to_nat nest' <= Z.to_nat nest + 1)%nat ->
    (exists tok' rest, Unread p = tok' :: rest /\ Unread p1 = rest) ->
    exists p', recover_loop fuel start end_ nest' p1 = Ok p' /\
               Unread p' `suffix_of` Unread p /\
               parser_recovery p' = parser_recovery p).
  { intros nest' Hin Hle (tok' & rest & Hu & Hu1).
    destruct (IH nest' p1 Hin) as (p' & Hp' & Hs & Hr).
    - rewrite Hu in Hfuel. rewrite Hu1. simpl in Hfuel. lia.
    - exists p'. split; [done|]. split; [by etrans|congruence]. }
  assert (Hlast : exists p', Ok p1 = Ok p' /\
               Unread p' `suffix_of` Unread p /\
               parser_recovery p' = parser_recovery p) by (by exists p1).
  destruct Hcases as [(tok' & rest & Hu & -> & Hu1)|(Hu & Hty & ->)].
  - assert (Hcons : exists tok' rest, Unread p = tok' :: rest /\ Unread p1 = rest)
      by (by exists tok', rest).
    repeat case_bool_decide; try done.
    + apply Hcont; [apply int_wrap_range| |done].
      pose proof (int_add_one_le nest Hnest). lia.
    + destruct (nest <? 1) eqn:Hlt; [done|]. apply Z.ltb_ge in Hlt.
      apply Hcont; [apply int_wrap_range| |done].
      rewrite int_sub_one by done. lia.
    + apply Hcont; [done|lia|done].
  - assert (ty = TokenEOF) as Hty'.
    { subst ty. rewrite Hty. by rewrite andb_false_r. }
    rewrite Hty'. clearbody ty.
    rewrite bool_decide_eq_false_2 by congruence.
    case_bool_decide as Hend; [|by rewrite bool_decide_eq_true_2].
    destruct (nest <? 1) eqn:Hlt; [done|]. apply Z.ltb_ge in Hlt.
    destruct (IH (int_sub nest 1) p) as (p' & Hp' & Hs & Hr).
    + apply int_wrap_range.
    + rewrite int_sub_one by done. lia.
    + by exists p'.
Qed.

Lemma recover_loop_fuel_irrelevant fuel fuel' start end_ nest p p' :
  recover_loop fuel start end_ nest p = Ok p' ->
  (fuel <= fuel')%nat ->
  recover_loop fuel' start end_ nest p = Ok p'.
Proof.
  revert fuel' nest p. induction fuel as [|fuel IH]; intros fuel' nest p; [done|].
  destruct fuel' as [|fuel']; [lia|]. intros H Hle.
  cbn [recover_loop] in *. destruct (Read p) as [tok p1].
  destruct (bool_decide (_ = start)); [apply IH; [done|lia]|].
  destruct (bool_decide (_ = end_)).
  { destruct (nest <? 1); [done|]. apply IH; [done|lia]. }
  destruct (bool_decide (_ = TokenEOF)); [done|]. apply IH; [done|lia].
Qed.

Lemma recover_total end_ p :
  exists p', recover end_ p = Ok p' /\
             Unread p' `suffix_of` Unread p /\
             parser_recovery p' = true.
Proof.
  unfold recover.
  destruct (recover_loop_terminates (recover_fuel (set_recovery p))
              (oppositeBracket end_) end_ 0 (set_recovery p))
    as (p' & Hp' & Hs & Hr).
  - apply oppositeBracket_not_EOF.
  - by vm_compute.
  - unfold recover_fuel. simpl. lia.
  - by exists p'.
Qed.

Lemma recoverAfterBodyItem_loop_terminates fuel open p :
  (length (Unread p) < fuel)%nat ->
  exists p', recoverAfterBodyItem_loop fuel open p = Ok p' /\
             Unread p' `suffix_of` Unread p /\
             parser_recovery p' = parser_recovery p.
Proof.
  revert open p. induction fuel as [|fuel IH]; intros open p Hfuel; [lia|].
  cbn [recoverAfterBodyItem_loop].
  destruct (Read p) as [tok p1] eqn:HR.
  pose proof (Read_suffix p) as [Hsuf Hrec]. rewrite HR in Hsuf, Hrec. simpl in Hsuf, Hrec.
  pose proof (Read_cases p) as Hcases. rewrite HR in Hcases. simpl in Hcases.
  destruct Hcases as [(tok' & rest & Hu & -> & Hu1)|(Hu & Hty & ->)].
  - assert (Hcont : forall open',
      exists p', recoverAfterBodyItem_loop fuel open' p1 = Ok p' /\
                 Unread p' `suffix_of` Unread p /\
                 parser_recovery p' = parser_recovery p).
    { intros open'. destruct (IH open' p1) as (p' & Hp' & Hs & Hr).
      - rewrite Hu in Hfuel. rewrite Hu1. simpl in Hfuel. lia.
      - exists p'. split; [done|]. split; [by etrans|congruence]. }
    destruct (Token_Type tok') eqn:Hty; simpl; try apply Hcont; try by exists p1.
    destruct open; [by exists p1|apply Hcont].
  - rewrite Hty. by exists p.
Qed.

Lemma recoverAfterBodyItem_loop_fuel_irrelevant fuel fuel' open p p' :
  recoverAfterBodyItem_loop fuel open p = Ok p' ->
  (fuel <= fuel')%nat ->
  recoverAfterBodyItem_loop fuel' open p = Ok p'.
Proof.
  revert fuel' open p. induction fuel as [|fuel IH]; intros fuel' open p; [done|].
  destruct fuel' as [|fuel']; [lia|]. intros H Hle.
  cbn [recoverAfterBodyItem_loop] in *. destruct (Read p) as [tok p1].
  destruct (Token_Type tok); simpl in *; try done; try (apply IH; [done|lia]).
  destruct open; [done|]. apply IH; [done|lia].
Qed.

Lemma recoverAfterBodyItem_total p :
  exists p', recoverAfterBodyItem p = Ok p' /\
             Unread p' `suffix_of` Unread p /\
             parser_recovery p' = true.
Proof.
  unfold recoverAfterBodyItem.
  destruct (recoverAfterBodyItem_loop_terminates (loop_fuel (set_recovery p)) []
              (set_recovery p)) as (p' & Hp' & Hs & Hr).
  - unfold loop_fuel. lia.
  - by exists p'.
Qed.

(** C2.  Both recovery scans terminate on every finite token sequence: each
    returns a parser state, reached by consuming a prefix [consumed] of the
    tokens that were still unread (so at most as many tokens as remained),
    and any larger number of iterations allowed to the loop yields the same
    state. *)
Theorem recovery_terminates_within_remaining_input (end_ : TokenType) (p : parser) :
  (exists p' consumed,
      recover end_ p = Ok p' /\
      Unread p = consumed ++ Unread p' /\
      (length consumed <= length (Unread p))%nat /\
      forall fuel, (recover_fuel (set_recovery p) <= fuel)%nat ->
        recover_loop fuel (oppositeBracket end_) end_ 0 (set_recovery p) = Ok p') /\
  (exists p' consumed,
      recoverAfterBodyItem p = Ok p' /\
      Unread p = consumed ++ Unread p' /\
      (length consumed <= length (Unread p))%nat /\
      forall fuel, (loop_fuel (set_recovery p) <= fuel)%nat ->
        recoverAfterBodyItem_loop fuel [] (set_recovery p) = Ok p').
Proof.
  split.
  - destruct (recover_total end_ p) as (p' & Hp' & [consumed Hs] & _).
    exists p', consumed. repeat split; [done|done| |].
    + rewrite Hs, length_app. lia.
    + intros fuel Hfuel. by eapply recover_loop_fuel_irrelevant.
  - destruct (recoverAfterBodyItem_total p) as (p' & Hp' & [consumed Hs] & _).
    exists p', consumed. repeat split; [done|done| |].
    + rewrite Hs, length_app. lia.
    + intros fuel Hfuel. by eapply recoverAfterBodyItem_loop_fuel_irrelevant.
Qed.

(** ** The escape decoder *)

Lemma decodeStringLit_unfold tok :
  decodeStringLit tok =
  match decodeMode tok with
  | None => Panic decodePanicMessage
  | Some quoted =>
      st ← decodeLoop quoted (Range_Filename (Token_Range tok))
             (initialDecodeState tok) (ScanGraphemeClusters (Token_Bytes tok));
      Ok (ds_ret st, ds_diags st)
  end.
Proof. reflexivity. Qed.

Lemma decodeStep_ok quoted filename st ch :
  (String.length (ds_esc st) <= 2)%nat ->
  exists st', decodeStep quoted filename st ch = Ok st' /\
              (String.length (ds_esc st') <= 2)%nat.
Proof.
  intros Hlen. unfold decodeStep.
  destruct (ds_esc st) as [|e0 [|e1 [|e2 tl]]] eqn:Hesc; simpl in Hlen; try lia.
  - destruct (single ch) as [c|]; [|eexists; split; [done|simpl; lia]].
    repeat case_bool_decide; try destruct quoted;
      eexists; (split; [done|simpl; lia]).
  - case_bool_decide.
    + destruct (c ← single ch; backslashEscape c);
        eexists; (split; [done|simpl; lia]).
    + destruct (is_marker e0); [case_bool_decide|];
        eexists; (split; [done|simpl; lia]).
  - case_bool_decide.
    + destruct (c ← single ch; backslashEscape c);
        eexists; (split; [done|simpl; lia]).
    + destruct (is_marker e0); [case_bool_decide|];
        eexists; (split; [done|simpl; lia]).
Qed.

Lemma decodeLoop_ok quoted filename clusters st :
  (String.length (ds_esc st) <= 2)%nat ->
  exists st', decodeLoop quoted filename st clusters = Ok st'.
Proof.
  revert st. induction clusters as [|ch rest IH]; intros st Hlen; simpl.
  - by exists st.
  - destruct (decodeStep_ok quoted filename st ch Hlen) as (st1 & -> & Hlen1).
    simpl. by apply IH.
Qed.

Lemma decodeLoop_app quoted filename cs1 cs2 st :
  decodeLoop quoted filename st (cs1 ++ cs2) =
  st1 ← decodeLoop quoted filename st cs1; decodeLoop quoted filename st1 cs2.
Proof.
  revert st. induction cs1 as [|ch rest IH]; intros st; simpl; [done|].
  destruct (decodeStep quoted filename st ch); simpl; auto.
Qed.

Lemma decodeStringLit_ok tok :
  is_Some (decodeMode tok) -> exists r, decodeStringLit tok = Ok r.
Proof.
  intros [quoted Hmode]. rewrite decodeStringLit_unfold, Hmode.
  destruct (decodeLoop_ok quoted (Range_Filename (Token_Range tok))
              (ScanGraphemeClusters (Token_Bytes tok)) (initialDecodeState tok))
    as (st & ->); [simpl; lia|].
  by eexists.
Qed.

Lemma is_marker_not_backslash m : is_marker m = true -> m <> byte_backslash.
Proof. intros H ->. vm_compute in H. discriminate. Qed.

Ltac decode_step_cases st ch quoted :=
  unfold decodeStep;
  destruct (ds_esc st) as [|?e0 [|?e1 [|?e2 ?tl]]] eqn:?Hesc; simpl;
  repeat first
    [ progress case_bool_decide
    | match goal with
      | |- context [match single ch with _ => _ end] => destruct (single ch) eqn:?Hch
      | |- context [match (c ← single ch; backslashEscape c) with _ => _ end] =>
          destruct (c ← single ch; backslashEscape c) eqn:?Hbs
      | |- context [if is_marker ?e then _ else _] => destruct (is_marker e) eqn:?Hmk
      | |- context [if quoted then _ else _] => destruct quoted
      end ].

Lemma decodeStep_wf quoted filename st ch st' :
  esc_wf (ds_esc st) ->
  decodeStep quoted filename st ch = Ok st' ->
  esc_wf (ds_esc st').
Proof.
  intros Hwf. revert Hwf.
  decode_step_cases st ch quoted; intros Hwf Hst; try discriminate;
    injection Hst as <-; simpl; try done; subst; auto;
    try (right; reflexivity);
    first [ destruct Hwf as [?|?]; congruence | destruct Hwf as [? ?]; congruence ].
Qed.

Lemma decodeLoop_wf quoted filename clusters st st' :
  esc_wf (ds_esc st) ->
  decodeLoop quoted filename st clusters = Ok st' ->
  esc_wf (ds_esc st').
Proof.
  revert st. induction clusters as [|ch rest IH]; intros st Hwf; simpl.
  - by intros [= <-].
  - destruct (decodeStep quoted filename st ch) as [st1| | |] eqn:Hstep; try done.
    simpl. apply IH. by eapply decodeStep_wf.
Qed.

Lemma single_Some ch c : single ch = Some c -> ch = str1 c.
Proof. unfold str1. destruct ch as [|c' [|]]; simpl; congruence. Qed.

(** The buffer holds two characters after a step only when it held one
    marker character and the cluster read is that same character. *)
Lemma decodeStep_pending_two quoted filename st ch st' :
  esc_wf (ds_esc st) ->
  decodeStep quoted filename st ch = Ok st' ->
  String.length (ds_esc st') = 2%nat ->
  exists m, is_marker m = true /\ ds_esc st = str1 m /\ ch = str1 m /\
            ds_esc st' = str1 m +:+ str1 m /\
            ds_ret st' = ds_ret st /\ ds_diags st' = ds_diags st.
Proof.
  intros Hwf. revert Hwf.
  decode_step_cases st ch quoted; intros Hwf Hst; try discriminate;
    injection Hst as <-; simpl; try discriminate; intros _.
  - exists e0. by rewrite (single_Some ch e0).
  - destruct Hwf; congruence.
  - destruct Hwf; congruence.
Qed.

(** The buffer holds one marker character after a step only when it was
    empty and the cluster read is that character. *)
Lemma decodeStep_pending_one quoted filename st ch st' m :
  esc_wf (ds_esc st) ->
  decodeStep quoted filename st ch = Ok st' ->
  is_marker m = true ->
  ds_esc st' = str1 m ->
  ds_esc st = "" /\ ch = str1 m /\
  ds_ret st' = ds_ret st /\ ds_diags st' = ds_diags st.
Proof.
  intros Hwf. revert Hwf.
  decode_step_cases st ch quoted; intros Hwf Hst; try discriminate;
    injection Hst as <-; simpl; try discriminate; intros Hm Hesc'.
  all: try (injection Hesc' as <-).
  all: try (by apply is_marker_not_backslash in Hm).
  all: try (match goal with H : single _ = Some _ |- _ =>
              apply single_Some in H end; by subst).
  all: try (destruct Hwf; congruence).
Qed.

Lemma decodeLoop_snoc quoted filename cs ch st :
  decodeLoop quoted filename st (cs ++ [ch]) =
  st1 ← decodeLoop quoted filename st cs; decodeStep quoted filename st1 ch.
Proof.
  rewrite decodeLoop_app. destruct (decodeLoop quoted filename st cs); simpl; try done.
  by destruct (decodeStep quoted filename a ch).
Qed.

Lemma decodeLoop_snoc_inv quoted filename cs ch st final :
  decodeLoop quoted filename st (cs ++ [ch]) = Ok final ->
  exists st1, decodeLoop quoted filename st cs = Ok st1 /\
              decodeStep quoted filename st1 ch = Ok final.
Proof.
  rewrite decodeLoop_snoc.
  destruct (decodeLoop quoted filename st cs) as [st1| | |]; try done.
  simpl. by exists st1.
Qed.

(** C5.  The escape decoding table, in quoted mode, for every scanner that
    delivers these four literals byte by byte: backslash-n decodes to a
    newline, backslash-q to [q] with exactly one "Invalid escape sequence"
    diagnostic, a doubled dollar before a brace to a single dollar, and a
    lone dollar to itself; the first, third and fourth without diagnostics. *)
Theorem escape_decoding_table (r : Range) :
  ScanGraphemeClusters "a\nb" = bytewise "a\nb" ->
  ScanGraphemeClusters "\q" = bytewise "\q" ->
  ScanGraphemeClusters "$${val}" = bytewise "$${val}" ->
  ScanGraphemeClusters "$x" = bytewise "$x" ->
  decodeStringLit (quotedLit "a\nb" r) = Ok ("a" +:+ str1 byte_newline +:+ "b", []) /\
  (exists d, decodeStringLit (quotedLit "\q" r) = Ok ("q", [d]) /\
             Diagnostic_Summary d = "Invalid escape sequence" /\
             Diagnostic_Severity d = DiagError) /\
  decodeStringLit (quotedLit "$${val}" r) = Ok ("${val}", []) /\
  decodeStringLit (quotedLit "$x" r) = Ok ("$x", []).
Proof.
  intros H1 H2 H3 H4. split; [|split; [|split]].
  - rewrite decodeStringLit_unfold. simpl. rewrite H1. reflexivity.
  - eexists. split.
    { rewrite decodeStringLit_unfold. simpl. rewrite H2. reflexivity. }
    split; reflexivity.
  - rewrite decodeStringLit_unfold. simpl. rewrite H3. reflexivity.
  - rewrite decodeStringLit_unfold. simpl. rewrite H4. reflexivity.
Qed.

(** C7.  When the bytes of a literal end while the escape buffer holds a
    two-character marker escape, the last two clusters are that marker
    twice, and the decoder returns exactly the text and diagnostics it had
    before them: the buffered characters are dropped.  In particular the
    bytes [ab$$] decode to [ab]. *)
Theorem pending_marker_escape_is_dropped :
  (forall (tok : Token) (quoted : bool) (final : decodeState),
     decodeMode tok = Some quoted ->
     decodeLoop quoted (Range_Filename (Token_Range tok)) (initialDecodeState tok)
       (ScanGraphemeClusters (Token_Bytes tok)) = Ok final ->
     String.length (ds_esc final) = 2%nat ->
     exists cs m st,
       is_marker m = true /\
       ScanGraphemeClusters (Token_Bytes tok) = cs ++ [str1 m; str1 m] /\
       ds_esc final = str1 m +:+ str1 m /\
       decodeLoop quoted (Range_Filename (Token_Range tok)) (initialDecodeState tok) cs
         = Ok st /\
       ds_esc st = "" /\
       decodeStringLit tok = Ok (ds_ret st, ds_diags st)) /\
  (forall r : Range,
     ScanGraphemeClusters "ab$$" = bytewise "ab$$" ->
     decodeStringLit (quotedLit "ab$$" r) = Ok ("ab", [])).
Proof.
  split.
  - intros tok quoted final Hmode Hloop Hlen.
    rewrite decodeStringLit_unfold, Hmode, Hloop. simpl.
    destruct (ScanGraphemeClusters (Token_Bytes tok)) as [|c2 l' _] using rev_ind.
    { injection Hloop as <-. discriminate. }
    apply decodeLoop_snoc_inv in Hloop as (st1 & Hl1 & Hs2).
    assert (esc_wf (ds_esc st1)) as Hwf1 by (by eapply decodeLoop_wf; [|exact Hl1]).
    destruct (decodeStep_pending_two _ _ _ _ _ Hwf1 Hs2 Hlen)
      as (m & Hm & Hesc1 & -> & Hesc2 & Hret2 & Hdiags2).
    destruct l' as [|c1 l'' _] using rev_ind.
    { injection Hl1 as <-. discriminate. }
    apply decodeLoop_snoc_inv in Hl1 as (st0 & Hl0 & Hs1).
    assert (esc_wf (ds_esc st0)) as Hwf0 by (by eapply decodeLoop_wf; [|exact Hl0]).
    destruct (decodeStep_pending_one _ _ _ _ _ m Hwf0 Hs1 Hm Hesc1)
      as (Hesc0 & -> & Hret1 & Hdiags1).
    exists l'', m, st0. rewrite <- app_assoc. simpl.
    repeat split; try done. congruence.
  - intros r H. rewrite decodeStringLit_unfold. simpl. rewrite H. reflexivity.
Qed.

(** ** parseQuotedStringLiteral always returns *)

Lemma suffix_length_lt {A} (l1 l2 : list A) (n : nat) :
  l1 `suffix_of` l2 -> (length l2 < n)%nat -> (length l1 < n)%nat.
Proof. intros Hs%suffix_length. lia. Qed.

Lemma parseQuotedStringLiteral_loop_total fuel oQuote ret diags p :
  (length (Unread p) < fuel)%nat ->
  exists ret' cQuote diags' p',
    parseQuotedStringLiteral_loop fuel oQuote ret diags p = Ok (ret', cQuote, diags', p') /\
    Unread p' `suffix_of` Unread p.
Proof.
  revert ret diags p. induction fuel as [|fuel IH]; intros ret diags p Hfuel; [lia|].
  cbn [parseQuotedStringLiteral_loop].
  destruct (Read p) as [tok p1] eqn:HR.
  pose proof (Read_suffix p) as [Hsuf _]. rewrite HR in Hsuf. simpl in Hsuf.
  pose proof (Read_cases p) as Hcases. rewrite HR in Hcases. simpl in Hcases.
  assert (Hstop : forall (ret' : string) (cQuote : Token) (diags' : Diagnostics),
    exists ret'' cQuote' diags'' p',
      Ok (ret', cQuote, diags', p1) = Ok (ret'', cQuote', diags'', p') /\
      Unread p' `suffix_of` Unread p) by (intros; by eexists _, _, _, _).
  assert (Hrecover : forall end_ (ret' : string) (cQuote : Token) (diags' : Diagnostics),
    exists ret'' cQuote' diags'' p',
      (p2 ← recover end_ p1; Ok (ret', cQuote, diags', p2))
        = Ok (ret'', cQuote', diags'', p') /\
      Unread p' `suffix_of` Unread p).
  { intros end_ ret' cQuote diags'.
    destruct (recover_total end_ p1) as (p2 & -> & Hs2 & _). simpl.
    eexists _, _, _, _. split; [done|]. by etrans. }
  destruct Hcases as [(tok' & rest & Hu & -> & Hu1)|(Hu & Hty & ->)].
  - assert (Hlt : (length (Unread p1) < fuel)%nat).
    { rewrite Hu in Hfuel. rewrite Hu1. simpl in Hfuel. lia. }
    destruct (Token_Type tok') eqn:Hty; try apply Hstop; try apply Hrecover.
    + destruct (decodeStringLit_ok tok') as ([s sDiags] & ->).
      { unfold decodeMode. rewrite Hty. by eexists. }
      simpl. destruct (IH (ret +:+ s) (diags ++ sDiags) p1 Hlt)
        as (ret' & cQuote & diags' & p' & -> & Hs).
      eexists _, _, _, _. split; [done|]. by etrans.
    + destruct (recover_total TokenTemplateSeqEnd p1) as (p2 & -> & Hs2 & _). simpl.
      destruct (IH ret (diags ++ [templateNotAllowedDiag oQuote tok']) p2)
        as (ret' & cQuote & diags' & p' & -> & Hs).
      { by eapply suffix_length_lt. }
      eexists _, _, _, _. split; [done|]. etrans; [done|]. by etrans.
    + destruct (recover_total TokenTemplateSeqEnd p1) as (p2 & -> & Hs2 & _). simpl.
      destruct (IH ret (diags ++ [templateNotAllowedDiag oQuote tok']) p2)
        as (ret' & cQuote & diags' & p' & -> & Hs).
      { by eapply suffix_length_lt. }
      eexists _, _, _, _. split; [done|]. etrans; [done|]. by etrans.
  - rewrite Hty. apply Hstop.
Qed.

Lemma parseQuotedStringLiteral_total p :
  exists label labelRange diags p',
    parseQuotedStringLiteral p = Ok (label, labelRange, diags, p') /\
    Unread p' `suffix_of` Unread (Read p).2.
Proof.
  unfold parseQuotedStringLiteral. destruct (Read p) as [oQuote p1].
  cbn [snd]. cbv beta iota.
  case_bool_decide; cbn [negb]; [|by eexists _, _, _, _].
  destruct (parseQuotedStringLiteral_loop_total (loop_fuel p1) oQuote "" [] p1)
    as (ret & cQuote & diags & p' & -> & Hs); [unfold loop_fuel; lia|].
  by eexists _, _, _, _.
Qed.

(** C10.  decodeStringLit panics on every token that is neither quoted
    literal text nor raw string literal text, and returns on the two it is
    meant for; parseQuotedStringLiteral, which hands it quoted literal text
    only, always returns: the panic is out of its reach. *)
Theorem decodeStringLit_panic_unreachable_from_quoted_literal :
  (forall tok : Token,
     Token_Type tok <> TokenQuotedLit -> Token_Type tok <> TokenStringLit ->
     decodeStringLit tok = Panic decodePanicMessage) /\
  (forall tok : Token,
     Token_Type tok = TokenQuotedLit \/ Token_Type tok = TokenStringLit ->
     exists text diags, decodeStringLit tok = Ok (text, diags)) /\
  (forall p : parser,
     exists label labelRange diags p',
       parseQuotedStringLiteral p = Ok (label, labelRange, diags, p')).
Proof.
  split; [|split].
  - intros tok Hq Hs. rewrite decodeStringLit_unfold. unfold decodeMode.
    by destruct (Token_Type tok).
  - intros tok Hty. destruct (decodeStringLit_ok tok) as ([text diags] & ->).
    + unfold decodeMode. destruct Hty as [-> | ->]; by eexists.
    + by eexists _, _.
  - intros p. destruct (parseQuotedStringLiteral_total p)
      as (label & labelRange & diags & p' & -> & _).
    by eexists _, _, _, _.
Qed.

(** ** Block headers *)

Lemma Peek_nonempty p ty :
  Token_Type (Peek p) = ty -> ty <> TokenEOF ->
  exists tok rest, Unread p = tok :: rest /\ Peek p = tok.
Proof.
  intros Hty Hne. destruct (Unread p) as [|tok rest] eqn:Hu.
  - rewrite (Peek_nil p Hu) in Hty. simpl in Hty. congruence.
  - exists tok, rest. by rewrite (Peek_cons p tok rest Hu).
Qed.

Lemma parseQuotedStringLiteral_consumes p label labelRange diags p1 :
  parseQuotedStringLiteral p = Ok (label, labelRange, diags, p1) ->
  Token_Type (Peek p) = TokenOQuote ->
  (length (Unread p1) < length (Unread p))%nat.
Proof.
  intros Hparse Hpeek.
  destruct (Peek_nonempty p _ Hpeek) as (tok & rest & Hu & _); [done|].
  destruct (parseQuotedStringLiteral_total p) as (l & r & d & p' & Heq & Hs).
  rewrite Hparse in Heq. injection Heq as <- <- <- <-.
  apply suffix_length in Hs. rewrite (Read_cons p tok rest Hu) in Hs.
  change (length (Unread p1) <= length rest)%nat in Hs. rewrite Hu. simpl. lia.
Qed.

Lemma blockHeader_loop_error ident p perr :
  headerErrorAt p perr ->
  forall fuel labels labelRanges diags,
    (length (Unread p) < fuel)%nat ->
    exists labels' labelRanges' diags' p',
      blockHeader_loop fuel ident labels labelRanges diags p
        = Ok (HeaderReturn (partialBlock ident labels' labelRanges') diags' p') /\
      recoverAfterBodyItem perr = Ok p' /\
      parser_recovery p' = true.
Proof.
  induction 1 as [p label labelRange labelDiags p1 Hpeek Hparse Herr
                 |p Hq Hb
                 |p label labelRange labelDiags p1 perr Hpeek Hparse Herr Hlater IH];
    intros fuel labels labelRanges diags Hfuel;
    (destruct fuel as [|fuel]; [lia|]); cbn [blockHeader_loop].
  - rewrite Hpeek, Hparse. simpl. rewrite Herr.
    destruct (recoverAfterBodyItem_total p1) as (p2 & Hp2 & _ & Hr).
    rewrite Hp2. simpl. by eexists _, _, _, _.
  - destruct (recoverAfterBodyItem_total p) as (p2 & Hp2 & _ & Hr).
    destruct (Token_Type (Peek p)); try done;
      rewrite Hp2; simpl; by eexists _, _, _, _.
  - rewrite Hpeek, Hparse. simpl. rewrite Herr.
    apply IH. pose proof (parseQuotedStringLiteral_consumes _ _ _ _ _ Hparse Hpeek). lia.
Qed.

(** C4.  Whenever the header of a block is in error (a quoted label whose
    parse reported an error, or an equals sign, a newline or any other token
    where a label or the opening brace is expected), finishParsingBodyBlock
    runs body-item recovery from the state [perr] in which the error was
    detected and returns a partial block: its body is absent, and its
    open-brace and close-brace ranges are the range of the type name. *)
Theorem header_error_yields_partial_block
  (depth : nat) (ident : Token) (p perr : parser) :
  headerErrorAt p perr ->
  exists b diags p',
    finishParsingBodyBlock depth ident p = Ok (NodeBlock b, diags, p') /\
    recoverAfterBodyItem perr = Ok p' /\
    parser_recovery p' = true /\
    Block_Body b = None /\
    Block_OpenBraceRange b = Token_Range ident /\
    Block_CloseBraceRange b = Token_Range ident /\
    Block_TypeRange b = Token_Range ident /\
    Block_Type b = Token_Bytes ident.
Proof.
  intros Herr. unfold finishParsingBodyBlock, finishParsingBodyBlock_open.
  destruct (blockHeader_loop_error ident p perr Herr (loop_fuel p) [] [] [])
    as (labels & labelRanges & diags & p' & -> & Hrec & Hflag);
    [unfold loop_fuel; lia|].
  simpl. by eexists _, _, _.
Qed.

(** ** Labels and label ranges *)

Lemma block_labels_ok_unfold ty labels body typeRange labelRanges oBrace cBrace :
  block_labels_ok (mkBlock ty labels body typeRange labelRanges oBrace cBrace) <->
  length labels = length labelRanges /\
  match body with
  | None => True
  | Some body' => body_labels_ok body'
  end.
Proof.
  simpl. destruct body as [[attrs blocks r1 r2]|]; [|done].
  unfold body_labels_ok. simpl.
  assert ((fix all (bs : list Block) : Prop :=
             match bs with
             | [] => True
             | b' :: bs' => block_labels_ok b' /\ all bs'
             end) blocks <-> Forall block_labels_ok blocks) as ->; [|done].
  induction blocks as [|b bs IH]; [by split|].
  rewrite Forall_cons, IH. done.
Qed.

Lemma block_labels_ok_lengths b :
  block_labels_ok b -> length (Block_Labels b) = length (Block_LabelRanges b).
Proof. destruct b. rewrite block_labels_ok_unfold. by intros [? _]. Qed.

Lemma blockHeader_loop_lengths fuel ident labels labelRanges diags p exit :
  length labels = length labelRanges ->
  blockHeader_loop fuel ident labels labelRanges diags p = Ok exit ->
  match exit with
  | HeaderReturn b _ _ => block_labels_ok b
  | HeaderBreak _ labels' labelRanges' _ _ => length labels' = length labelRanges'
  end.
Proof.
  revert labels labelRanges diags p.
  induction fuel as [|fuel IH]; intros labels labelRanges diags p Hlen; [done|].
  cbn [blockHeader_loop].
  assert (Hret : forall (ls : list string) (rs : list Range) (ds : Diagnostics) q,
    length ls = length rs ->
    (p2 ← recoverAfterBodyItem q; Ok (HeaderReturn (partialBlock ident ls rs) ds p2))
      = Ok exit ->
    match exit with
    | HeaderReturn b _ _ => block_labels_ok b
    | HeaderBreak _ labels' labelRanges' _ _ => length labels' = length labelRanges'
    end).
  { intros ls rs ds q Hl. destruct (recoverAfterBodyItem q); try done.
    simpl. intros [= <-]. unfold partialBlock. by rewrite block_labels_ok_unfold. }
  destruct (Token_Type (Peek p)); try (by apply Hret).
  - destruct (Read p) as [oBrace p1]. by intros [= <-].
  - destruct (parseQuotedStringLiteral p) as [[[[label labelRange] labelDiags] p1]| | |];
      try done.
    simpl. assert (length (labels ++ [label]) = length (labelRanges ++ [labelRange]))
      by (rewrite !length_app; simpl; lia).
    destruct (HasErrors labelDiags); [by apply Hret|by apply IH].
Qed.

Section LoopInvariant.

Variable parseItem : parser -> result (Node * Diagnostics * parser).
Hypothesis parseItem_ok : forall p b diags p',
  parseItem p = Ok (NodeBlock b, diags, p') -> block_labels_ok b.

Lemma ParseBody_loop_labels_ok fuel end_ attrs blocks diags p attrs' blocks' diags' r p' :
  Forall block_labels_ok blocks ->
  ParseBody_loop parseItem fuel end_ attrs blocks diags p
    = Ok (attrs', blocks', diags', r, p') ->
  Forall block_labels_ok blocks'.
Proof.
  revert attrs blocks diags p.
  induction fuel as [|fuel IH]; intros attrs blocks diags p Hall; [done|].
  cbn [ParseBody_loop]. case_bool_decide.
  { destruct (Read p). by intros [= <- <- <- <- <-]. }
  destruct (Token_Type (Peek p));
    try (destruct (Read p) as [bad p1]; destruct (recover end_ p1); try done;
         simpl; by intros [= <- <- <- <- <-]).
  - destruct (parseItem p) as [[[item itemDiags] p1]| | |] eqn:Hitem; try done.
    simpl. destruct item as [|b|a|e]; try by apply IH.
    + apply IH. apply Forall_app. split; [done|].
      apply Forall_singleton. by eapply parseItem_ok.
    + destruct (attrs !! Attribute_Name a); by apply IH.
  - destruct (Read p) as [nl p1]. by apply IH.
Qed.

End LoopInvariant.

Lemma ParseBody_labels_ok depth :
  forall end_ p body diags p',
    ParseBody depth end_ p = Ok (body, diags, p') -> body_labels_ok body.
Proof.
  induction depth as [|depth IH]; intros end_ p body diags p'; [done|].
  cbn [ParseBody].
  destruct (ParseBody_loop _ _ _ _ _ _ _)
    as [[[[[attrs blocks] diags0] endRange] p1]| | |] eqn:Hloop; try done.
  simpl. intros [= <- <- <-]. unfold body_labels_ok. simpl.
  eapply ParseBody_loop_labels_ok; [|by apply Forall_nil|exact Hloop].
  intros q b ds q'. unfold ParseBodyItem_open.
  destruct (Read q) as [ident q1].
  case_bool_decide; cbn [negb].
  2: { destruct (recoverAfterBodyItem q1); done. }
  assert (Hblock : finishParsingBodyBlock_open (ParseBody depth) ident q1
                     = Ok (NodeBlock b, ds, q') -> block_labels_ok b).
  { unfold finishParsingBodyBlock_open.
    destruct (blockHeader_loop _ _ _ _ _ _) as [exit| | |] eqn:Hheader; try done.
    apply blockHeader_loop_lengths in Hheader; [|done].
    simpl. destruct exit as [b0 ds0 q2|oBrace labels labelRanges ds0 q2].
    - by intros [= <- <- <-].
    - destruct (ParseBody depth TokenCBrace q2) as [[[body' ds1] q3]| | |] eqn:Hbody;
        try done.
      simpl. intros [= <- <- <-]. rewrite block_labels_ok_unfold. split; [done|].
      by eapply IH. }
  destruct (Token_Type (Peek q1)); try done;
    destruct (recoverAfterBodyItem q1); done.
Qed.

(** C9.  Every block the parser returns, complete or partial, at the top
    of a body or nested in one, has as many label ranges as labels. *)
Theorem labels_and_label_ranges_have_equal_length :
  (forall depth ident p b diags p',
     finishParsingBodyBlock depth ident p = Ok (NodeBlock b, diags, p') ->
     length (Block_Labels b) = length (Block_LabelRanges b) /\ block_labels_ok b) /\
  (forall depth end_ p body diags p',
     ParseBody depth end_ p = Ok (body, diags, p') ->
     Forall (fun b => length (Block_Labels b) = length (Block_LabelRanges b) /\
                      block_labels_ok b) (Body_Blocks body)).
Proof.
  split.
  - intros depth ident p b diags p'.
    unfold finishParsingBodyBlock, finishParsingBodyBlock_open.
    destruct (blockHeader_loop _ _ _ _ _ _) as [exit| | |] eqn:Hheader; try done.
    apply blockHeader_loop_lengths in Hheader; [|done].
    simpl. destruct exit as [b0 ds0 q2|oBrace labels labelRanges ds0 q2].
    + intros [= <- <- <-]. split; [by apply block_labels_ok_lengths|done].
    + destruct (ParseBody depth TokenCBrace q2) as [[[body' ds1] q3]| | |] eqn:Hbody;
        try done.
      simpl. intros [= <- <- <-]. split; [done|].
      rewrite block_labels_ok_unfold. split; [done|]. by eapply ParseBody_labels_ok.
  - intros depth end_ p body diags p' Hparse.
    apply ParseBody_labels_ok in Hparse. unfold body_labels_ok in Hparse.
    eapply Forall_impl; [exact Hparse|].
    intros b Hb. split; [by apply block_labels_ok_lengths|done].
Qed.

(** ** Reading ahead *)

Lemma readN_add a b p : readN b (readN a p) = readN (a + b) p.
Proof. revert p. induction a as [|a IH]; intros p; simpl; [done|apply IH]. Qed.

Lemma Unread_readN pre post n p :
  Unread p = pre ++ post -> n = length pre -> Unread (readN n p) = post.
Proof.
  intros Hu ->. revert p Hu. induction pre as [|tok pre IH]; intros p Hu; simpl; [done|].
  apply IH. simpl in Hu. by rewrite (Read_cons p tok _ Hu).
Qed.

Lemma recovery_readN n p : parser_recovery (readN n p) = parser_recovery p.
Proof.
  revert p. induction n as [|n IH]; intros p; simpl; [done|].
  rewrite IH. apply Read_suffix.
Qed.

Lemma Read_readN p tok rest :
  Unread p = tok :: rest -> Read p = (tok, readN 1 p).
Proof. intros Hu. simpl. by rewrite (Read_cons p tok rest Hu). Qed.

(** ** Labels free of errors *)

Lemma bind_Ok {A B : Type} (a : A) (f : A -> result B) : (Ok a ≫= f) = f a.
Proof. reflexivity. Qed.

Ltac bind_ok := rewrite bind_Ok; cbv beta iota.

Lemma parseQuotedStringLiteral_loop_clean lits :
  Forall cleanQuotedLit lits ->
  forall fuel oQuote ret diags p cQuote rest,
    Unread p = lits ++ cQuote :: rest ->
    Token_Type cQuote = TokenCQuote ->
    (length (Unread p) < fuel)%nat ->
    exists ret',
      parseQuotedStringLiteral_loop fuel oQuote ret diags p
        = Ok (ret', cQuote, diags, readN (S (length lits)) p).
Proof.
  induction 1 as [|lit lits [Hty [s Hs]] Hlits IH];
    intros fuel oQuote ret diags p cQuote rest Hu HcQuote Hfuel;
    (destruct fuel as [|fuel]; [lia|]); cbn [parseQuotedStringLiteral_loop].
  - rewrite (Read_readN p cQuote rest Hu), HcQuote. by eexists.
  - rewrite (Read_readN p lit _ Hu), Hty, Hs. bind_ok. rewrite app_nil_r.
    assert (Hu1 : Unread (readN 1 p) = lits ++ cQuote :: rest)
      by (by eapply Unread_readN with (pre := [lit])).
    destruct (IH fuel oQuote (ret +:+ s) diags (readN 1 p) cQuote rest) as [ret' ->];
      [done|done| |].
    + rewrite Hu in Hfuel. rewrite Hu1. simpl in Hfuel. lia.
    + exists ret'. by rewrite readN_add.
Qed.

Lemma parseQuotedStringLiteral_clean label p rest :
  wf_label label ->
  Unread p = label ++ rest ->
  exists text labelRange,
    parseQuotedStringLiteral p = Ok (text, labelRange, [], readN (length label) p).
Proof.
  intros [oQuote lits cQuote HoQuote Hlits HcQuote] Hu.
  unfold parseQuotedStringLiteral. simpl in Hu. rewrite <- app_assoc in Hu. simpl in Hu.
  rewrite (Read_readN p oQuote _ Hu). cbv beta iota.
  rewrite bool_decide_eq_true_2 by done. cbn [negb].
  destruct (parseQuotedStringLiteral_loop_clean lits Hlits
              (loop_fuel (readN 1 p)) oQuote "" [] (readN 1 p) cQuote rest)
    as [ret' ->]; [by eapply Unread_readN with (pre := [oQuote])|done| |].
  - unfold loop_fuel. lia.
  - bind_ok. rewrite readN_add.
    replace (length (oQuote :: lits ++ [cQuote])) with (1 + S (length lits))%nat
      by (simpl; rewrite length_app; simpl; lia).
    by eexists _, _.
Qed.

Lemma wf_label_head label :
  wf_label label ->
  exists oQuote tl, label = oQuote :: tl /\ Token_Type oQuote = TokenOQuote.
Proof. intros [oQuote lits cQuote HoQuote _ _]. by eexists _, _. Qed.

Lemma blockHeader_loop_clean ls :
  wf_labels ls ->
  forall fuel ident labels labelRanges diags p oBrace rest,
    Unread p = ls ++ oBrace :: rest ->
    Token_Type oBrace = TokenOBrace ->
    (length (Unread p) < fuel)%nat ->
    exists labels' labelRanges',
      blockHeader_loop fuel ident labels labelRanges diags p
        = Ok (HeaderBreak oBrace labels' labelRanges' diags (readN (S (length ls)) p)).
Proof.
  induction 1 as [|label ls Hlabel Hls IH];
    intros fuel ident labels labelRanges diags p oBrace rest Hu HoBrace Hfuel;
    (destruct fuel as [|fuel]; [lia|]); cbn [blockHeader_loop].
  - rewrite (Peek_cons p oBrace rest Hu), HoBrace, (Read_readN p oBrace rest Hu).
    by eexists _, _.
  - rewrite <- app_assoc in Hu.
    destruct (wf_label_head label Hlabel) as (oQuote & tl & Hhead & HoQuote).
    assert (Hpeek : Peek p = oQuote)
      by (apply (Peek_cons p oQuote (tl ++ ls ++ oBrace :: rest)); by rewrite Hu, Hhead).
    rewrite Hpeek, HoQuote.
    destruct (parseQuotedStringLiteral_clean label p _ Hlabel Hu) as (text & r & ->).
    bind_ok. change (HasErrors []) with false. cbv iota. rewrite app_nil_r.
    assert (Hu1 : Unread (readN (length label) p) = ls ++ oBrace :: rest)
      by (by eapply Unread_readN).
    destruct (IH fuel ident (labels ++ [text]) (labelRanges ++ [r]) diags
                (readN (length label) p) oBrace rest Hu1 HoBrace)
      as (labels' & labelRanges' & ->).
    + rewrite Hu1. rewrite Hu, Hhead in Hfuel. rewrite Hhead in Hu1.
      simpl in Hfuel. rewrite length_app in Hfuel. lia.
    + rewrite readN_add.
      replace (S (length (label ++ ls))) with (length label + S (length ls))%nat
        by (rewrite length_app; lia).
      by eexists _, _.
Qed.

Lemma header_start ls oBrace rest p :
  wf_labels ls ->
  Token_Type oBrace = TokenOBrace ->
  Unread p = ls ++ oBrace :: rest ->
  Token_Type (Peek p) = TokenOQuote \/ Token_Type (Peek p) = TokenOBrace.
Proof.
  intros [|label ls' Hlabel _] HoBrace Hu.
  - right. by rewrite (Peek_cons p oBrace rest Hu).
  - left. destruct (wf_label_head label Hlabel) as (oQuote & tl & -> & HoQuote).
    rewrite <- app_assoc in Hu. simpl in Hu. by rewrite (Peek_cons p oQuote _ Hu).
Qed.

(** ** Bodies without syntax errors *)

(** The body loop, run over a sequence of error-free items, appends one
    block per block of the sequence, in order, reports nothing, leaves the
    attributes alone and stands right after the sequence. *)
Lemma ParseBody_loop_items d toks idents :
  wf_items d toks idents ->
  forall depth fuel end_ attrs blocks diags p rest,
    (d <= depth)%nat ->
    Unread p = toks ++ rest ->
    end_ <> TokenNewline -> end_ <> TokenIdent ->
    (length (toks ++ rest) < fuel)%nat ->
    exists fuel' newblocks,
      ParseBody_loop (ParseBodyItem_open (ParseBody depth)) fuel end_ attrs blocks diags p
        = ParseBody_loop (ParseBodyItem_open (ParseBody depth)) fuel' end_ attrs
            (blocks ++ newblocks) diags (readN (length toks) p) /\
      (length rest < fuel')%nat /\
      map Block_Type newblocks = map Token_Bytes idents /\
      map Block_TypeRange newblocks = map Token_Range idents.
Proof.
  induction 1 as [d
                 |d nl toks idents Hnl Htoks IH
                 |d ident labels oBrace body inner cBrace toks idents
                    Hident Hlabels HoBrace Hbody IHbody HcBrace Htoks IHtoks];
    intros depth fuel end_ attrs blocks diags p rest Hdepth Hu Hend1 Hend2 Hfuel.
  - exists fuel, []. rewrite app_nil_r. by simpl in *.
  - destruct fuel as [|fuel]; [simpl in Hfuel; lia|]. cbn [ParseBody_loop].
    simpl in Hu. rewrite (Peek_cons p nl _ Hu), Hnl.
    rewrite bool_decide_eq_false_2 by congruence.
    rewrite (Read_readN p nl _ Hu).
    assert (Hu1 : Unread (readN 1 p) = toks ++ rest)
      by (by eapply Unread_readN with (pre := [nl])).
    destruct (IH depth fuel end_ attrs blocks diags (readN 1 p) rest)
      as (fuel' & newblocks & -> & Hfuel' & Hty & Hrange); try done.
    { simpl in Hfuel. lia. }
    exists fuel', newblocks. by rewrite readN_add.
  - destruct depth as [|depth']; [lia|].
    destruct fuel as [|fuel]; [simpl in Hfuel; lia|].
    simpl in Hu. rewrite <- !app_assoc in Hu. simpl in Hu.
    rewrite <- !app_assoc in Hu. simpl in Hu.
    set (n := (1 + S (length labels) + length body + 1)%nat).
    assert (Hitem : exists b,
      ParseBodyItem_open (ParseBody (S depth')) p = Ok (NodeBlock b, [], readN n p) /\
      Block_Type b = Token_Bytes ident /\ Block_TypeRange b = Token_Range ident).
    { unfold ParseBodyItem_open. rewrite (Read_readN p ident _ Hu). cbv beta iota.
      rewrite bool_decide_eq_true_2 by done. cbn [negb].
      assert (Hu1 : Unread (readN 1 p) =
                    labels ++ oBrace :: body ++ cBrace :: toks ++ rest)
        by (by eapply Unread_readN with (pre := [ident])).
      assert (Hblock : exists b,
        finishParsingBodyBlock_open (ParseBody (S depth')) ident (readN 1 p)
          = Ok (NodeBlock b, [], readN n p) /\
        Block_Type b = Token_Bytes ident /\ Block_TypeRange b = Token_Range ident).
      { unfold finishParsingBodyBlock_open.
        destruct (blockHeader_loop_clean labels Hlabels (loop_fuel (readN 1 p)) ident
                    [] [] [] (readN 1 p) oBrace _ Hu1 HoBrace)
          as (labels' & labelRanges' & ->); [unfold loop_fuel; lia|].
        bind_ok. rewrite readN_add.
        set (p2 := readN (1 + S (length labels)) p).
        assert (Hu2 : Unread p2 = body ++ cBrace :: toks ++ rest).
        { eapply Unread_readN with (pre := ident :: labels ++ [oBrace]).
          - rewrite Hu. simpl. by rewrite <- app_assoc.
          - simpl. rewrite length_app. simpl. lia. }
        cbn [ParseBody].
        destruct (IHbody depth' (loop_fuel p2) TokenCBrace ∅ [] [] p2
                    (cBrace :: toks ++ rest))
          as (fuel' & innerblocks & -> & Hfuel' & _ & _); try done.
        { lia. }
        { unfold loop_fuel. rewrite Hu2. lia. }
        destruct fuel' as [|fuel']; [simpl in Hfuel'; lia|]. cbn [ParseBody_loop].
        subst p2. rewrite readN_add.
        set (p3 := readN (1 + S (length labels) + length body) p).
        assert (Hu3 : Unread p3 = cBrace :: toks ++ rest).
        { eapply Unread_readN with (pre := ident :: labels ++ oBrace :: body).
          - rewrite Hu. simpl. rewrite <- app_assoc. simpl. done.
          - simpl. rewrite length_app. simpl. lia. }
        rewrite (Peek_cons p3 cBrace _ Hu3), HcBrace.
        rewrite bool_decide_eq_true_2 by done.
        rewrite (Read_readN p3 cBrace _ Hu3). bind_ok. bind_ok.
        subst p3. rewrite readN_add. fold n. eexists. split; [done|]. done. }
      destruct (header_start labels oBrace _ (readN 1 p) Hlabels HoBrace Hu1)
        as [-> | ->]; exact Hblock. }
    destruct Hitem as (b & Hitem & Hbty & Hbrange).
    cbn [ParseBody_loop]. rewrite (Peek_cons p ident _ Hu), Hident.
    rewrite bool_decide_eq_false_2 by congruence.
    rewrite Hitem. bind_ok. rewrite app_nil_r.
    assert (Hu4 : Unread (readN n p) = toks ++ rest).
    { eapply Unread_readN with (pre := ident :: labels ++ oBrace :: body ++ [cBrace]).
      - rewrite Hu. simpl. rewrite <- !app_assoc. simpl. rewrite <- !app_assoc. done.
      - subst n. simpl. rewrite !length_app. simpl. rewrite length_app. simpl. lia. }
    destruct (IHtoks (S depth') fuel end_ attrs (blocks ++ [b]) diags (readN n p) rest)
      as (fuel' & newblocks & -> & Hfuel' & Hty & Hrange); try done.
    { simpl in Hfuel. rewrite !length_app in Hfuel. simpl in Hfuel.
      rewrite !length_app in Hfuel. simpl in Hfuel. rewrite !length_app in *. lia. }
    exists fuel', (b :: newblocks). rewrite readN_add, <- app_assoc.
    cbn [app length map].
    replace (S (length (labels ++ oBrace :: body ++ cBrace :: toks)))
      with (n + length toks)%nat
      by (subst n; rewrite !length_app; simpl; rewrite !length_app; simpl; lia).
    repeat split; [done|by f_equal|by f_equal].
Qed.

Lemma ParseBody_wf_items d toks idents depth end_ p rest :
  wf_items d toks idents ->
  Unread p = toks ++ rest ->
  (d < depth)%nat ->
  end_ <> TokenNewline -> end_ <> TokenIdent ->
  Token_Type (Peek (readN (length toks) p)) = end_ ->
  exists body,
    ParseBody depth end_ p = Ok (body, [], (Read (readN (length toks) p)).2) /\
    Body_Attributes body = ∅ /\
    map Block_Type (Body_Blocks body) = map Token_Bytes idents /\
    map Block_TypeRange (Body_Blocks body) = map Token_Range idents.
Proof.
  intros Hwf Hu Hdepth Hend1 Hend2 Hpeek.
  destruct depth as [|depth]; [lia|]. cbn [ParseBody].
  destruct (ParseBody_loop_items d toks idents Hwf depth (loop_fuel p) end_
              ∅ [] [] p rest)
    as (fuel' & newblocks & -> & Hfuel' & Hty & Hrange); try done.
  { lia. }
  { unfold loop_fuel. rewrite Hu. lia. }
  destruct fuel' as [|fuel']; [lia|]. cbn [ParseBody_loop].
  rewrite Hpeek, bool_decide_eq_true_2 by done.
  destruct (Read (readN (length toks) p)) as [tok p']. bind_ok.
  eexists. by split.
Qed.

(** C1, amended.  For every token stream that is a body of [M] blocks,
    without attributes and without syntax errors, nested at most [d] deep,
    ParseBody (given a call stack for more than [d] nested activations)
    returns zero diagnostics, an empty attribute map and a list of [M]
    blocks, which are the blocks of the stream in source order; it reads the
    whole stream. *)
Theorem wellformed_blocks_parse_in_order
  (d : nat) (toks idents : list Token) (depth : nat) (p : parser) :
  wf_items d toks idents ->
  Unread p = toks ->
  (d < depth)%nat ->
  exists body p',
    ParseBody depth TokenEOF p = Ok (body, [], p') /\
    size (Body_Attributes body) = 0%nat /\
    length (Body_Blocks body) = length idents /\
    map Block_Type (Body_Blocks body) = map Token_Bytes idents /\
    map Block_TypeRange (Body_Blocks body) = map Token_Range idents /\
    Unread p' = [].
Proof.
  intros Hwf Hu Hdepth.
  assert (Hend : Unread (readN (length toks) p) = [])
    by (eapply Unread_readN; [by rewrite app_nil_r|done]).
  destruct (ParseBody_wf_items d toks idents depth TokenEOF p [] Hwf)
    as (body & Hparse & Hattrs & Hty & Hrange); try done.
  { by rewrite app_nil_r. }
  { by rewrite (Peek_nil _ Hend). }
  rewrite (Read_nil _ Hend) in Hparse. simpl in Hparse.
  exists body, (readN (length toks) p). split; [done|].
  rewrite Hattrs, map_size_empty. repeat split; try done.
  by rewrite <- (length_map Block_Type), Hty, length_map.
Qed.

(** ** Nested blocks and the call stack *)

Section Nested.

Variables ident oBrace cBrace : Token.
Hypothesis Hident : Token_Type ident = TokenIdent.
Hypothesis HoBrace : Token_Type oBrace = TokenOBrace.
Hypothesis HcBrace : Token_Type cBrace = TokenCBrace.




End Nested.

(** ** Attributes *)

Definition isNewline (tok : Token) : Prop := Token_Type tok = TokenNewline.

Lemma ParseBody_loop_newlines parseItem nls :
  Forall isNewline nls ->
  forall fuel end_ attrs blocks diags p rest,
    Unread p = nls ++ rest ->
    end_ <> TokenNewline ->
    ParseBody_loop parseItem (length nls + fuel) end_ attrs blocks diags p
      = ParseBody_loop parseItem fuel end_ attrs blocks diags (readN (length nls) p).
Proof.
  induction 1 as [|nl nls Hnl Hnls IH]; intros fuel end_ attrs blocks diags p rest Hu Hend;
    [done|].
  cbn [length Nat.add ParseBody_loop]. simpl in Hu.
  rewrite (Peek_cons p nl _ Hu), Hnl, bool_decide_eq_false_2 by congruence.
  rewrite (Read_readN p nl _ Hu).
  rewrite (IH fuel end_ attrs blocks diags (readN 1 p) rest); [|by eapply Unread_readN with (pre := [nl])|done].
  by rewrite readN_add.
Qed.

Lemma ParseBody_attribute_panics depth end_ p ident equals rest :
  Unread p = ident :: equals :: rest ->
  Token_Type ident = TokenIdent ->
  Token_Type equals = TokenEqual ->
  end_ <> TokenIdent ->
  ParseBody (S depth) end_ p = Panic attributePanicMessage.
Proof.
  intros Hu Hident Hequals Hend. cbn [ParseBody]. unfold loop_fuel. cbn [ParseBody_loop].
  rewrite (Peek_cons p ident _ Hu), Hident, bool_decide_eq_false_2 by congruence.
  unfold ParseBodyItem_open. rewrite (Read_readN p ident _ Hu). cbv beta iota.
  rewrite bool_decide_eq_true_2 by done. cbn [negb].
  assert (Hu1 : Unread (readN 1 p) = equals :: rest)
    by (by eapply Unread_readN with (pre := [ident])).
  by rewrite (Peek_cons _ equals _ Hu1), Hequals.
Qed.

(** C3, amended.  Attribute parsing is not implemented: on a body that
    starts with an attribute, such as [a = 1] followed by [a = 2], ParseBody
    panics at the first equals sign and yields neither diagnostics nor an
    attribute map.  The loop of ParseBody itself treats a redefinition as the
    claim says: run with any item parser that returns an attribute for each of
    two definitions of one name (newlines between and after them), it yields
    exactly one diagnostic, "Attribute redefined", whose subject is the name
    range of the second definition and whose detail names the range of the
    first, and the attribute map keeps the first definition alone. *)
Theorem attribute_redefinition
  (parseItem : parser -> result (Node * Diagnostics * parser)) :
  (forall depth p ident equals rest,
     Unread p = ident :: equals :: rest ->
     Token_Type ident = TokenIdent ->
     Token_Type equals = TokenEqual ->
     ParseBody (S depth) TokenEOF p = Panic attributePanicMessage) /\
  (forall (p0 p1 p3 : parser) (a1 a2 : Attribute) (nls1 rest1 nls2 : list Token)
          (fuel : nat),
     Token_Type (Peek p0) = TokenIdent ->
     parseItem p0 = Ok (NodeAttribute a1, [], p1) ->
     Unread p1 = nls1 ++ rest1 -> Forall isNewline nls1 ->
     Token_Type (Peek (readN (length nls1) p1)) = TokenIdent ->
     parseItem (readN (length nls1) p1) = Ok (NodeAttribute a2, [], p3) ->
     Unread p3 = nls2 -> Forall isNewline nls2 ->
     Attribute_Name a2 = Attribute_Name a1 ->
     (length nls1 + length nls2 + 3 <= fuel)%nat ->
     exists attrs d endRange p',
       ParseBody_loop parseItem fuel TokenEOF ∅ [] [] p0
         = Ok (attrs, [], [d], endRange, p') /\
       Diagnostic_Severity d = DiagError /\
       Diagnostic_Summary d = "Attribute redefined" /\
       Diagnostic_Subject d = Some (Attribute_NameRange a2) /\
       Diagnostic_Detail d =
         "The attribute " +:+ strconv_Quote (Attribute_Name a2)
         +:+ " was already defined at " +:+ Range_String (Attribute_NameRange a1)
         +:+ ". Each attribute may be defined only once." /\
       attrs !! Attribute_Name a1 = Some a1 /\
       size attrs = 1%nat).
Proof.
  split.
  - intros depth p ident equals rest Hu Hident Hequals.
    by eapply ParseBody_attribute_panics.
  - intros p0 p1 p3 a1 a2 nls1 rest1 nls2 fuel
      Hpeek0 Hitem0 Hu1 Hnls1 Hpeek2 Hitem2 Hu3 Hnls2 Hname Hfuel.
    replace fuel
      with (S (length nls1 + S (length nls2 + S (fuel - (length nls1 + length nls2 + 3)))))
      by lia.
    set (k := (fuel - (length nls1 + length nls2 + 3))%nat).
    cbn [ParseBody_loop]. rewrite Hpeek0, bool_decide_eq_false_2 by done.
    rewrite Hitem0. bind_ok. rewrite lookup_empty.
    rewrite (ParseBody_loop_newlines parseItem nls1 Hnls1 _ _ _ _ _ p1 rest1 Hu1)
      by done.
    cbn [ParseBody_loop]. rewrite Hpeek2, bool_decide_eq_false_2 by done.
    rewrite Hitem2. bind_ok. rewrite Hname, lookup_insert_eq.
    rewrite (ParseBody_loop_newlines parseItem nls2 Hnls2 _ _ _ _ _ p3 [])
      by (by rewrite ?app_nil_r).
    assert (Hend : Unread (readN (length nls2) p3) = [])
      by (eapply Unread_readN; [by rewrite app_nil_r|done]).
    cbn [ParseBody_loop]. rewrite (Peek_nil _ Hend). cbn [eofToken Token_Type].
    rewrite bool_decide_eq_true_2 by done. rewrite (Read_nil _ Hend).
    eexists _, _, _, _. split; [reflexivity|].
    repeat split; try reflexivity.
    + cbn [attributeRedefinedDiag Diagnostic_Detail]. by rewrite Hname.
    + apply lookup_insert_eq.
    + rewrite map_size_insert_None by apply lookup_empty. by rewrite map_size_empty.
Qed.

(** ** Template sequences in a quoted label *)

Lemma readN_set_recovery n p : readN n (set_recovery p) = set_recovery (readN n p).
Proof.
  revert p. induction n as [|n IH]; intros p; [done|].
  cbn [readN]. rewrite <- IH. f_equal.
  unfold Read, set_recovery. simpl. by destruct (peeker_Read (parser_peeker p)).
Qed.

Lemma Unread_set_recovery p : Unread (set_recovery p) = Unread p.
Proof. reflexivity. Qed.

Lemma recoverAfterBodyItem_set_recovery p :
  recoverAfterBodyItem (set_recovery p) = recoverAfterBodyItem p.
Proof. reflexivity. Qed.

Lemma template_opener_normalized ty :
  is_template_opener ty = true ->
  (if bool_decide (TokenTemplateSeqEnd = TokenTemplateSeqEnd)
      && bool_decide (ty = TokenTemplateControl)
   then TokenTemplateInterp else ty) = TokenTemplateInterp.
Proof. by destruct ty. Qed.

Lemma not_template_opener_normalized ty :
  is_template_opener ty = false ->
  (if bool_decide (TokenTemplateSeqEnd = TokenTemplateSeqEnd)
      && bool_decide (ty = TokenTemplateControl)
   then TokenTemplateInterp else ty) = ty /\ ty <> TokenTemplateInterp.
Proof. by destruct ty. Qed.

Lemma recover_loop_balanced k toks :
  templateBalanced k toks ->
  forall fuel nest p rest,
    0 <= nest -> nest + Z.of_nat k <= int_max ->
    Unread p = toks ++ rest ->
    recover_loop (length toks + fuel) TokenTemplateInterp TokenTemplateSeqEnd nest p
      = recover_loop fuel TokenTemplateInterp TokenTemplateSeqEnd nest
          (readN (length toks) p).
Proof.
  induction 1 as [k
                 |k tok toks Hopener Hend Heof Htoks IH
                 |k topen inner tend toks Hopener Hinner IHinner Htend Htoks IHtoks];
    intros fuel nest p rest Hnest Hmax Hu; [done| |].
  - cbn [length Nat.add recover_loop]. simpl in Hu. rewrite (Read_readN p tok _ Hu).
    destruct (not_template_opener_normalized _ Hopener) as [-> Hne].
    rewrite !bool_decide_eq_false_2 by done.
    rewrite (IH fuel nest (readN 1 p) rest); [by rewrite readN_add|done|done|].
    by eapply Unread_readN with (pre := [tok]).
  - simpl in Hu. rewrite <- app_assoc in Hu. simpl in Hu.
    replace (length (topen :: inner ++ tend :: toks) + fuel)%nat
      with (S (length inner + S (length toks + fuel)))
      by (simpl; rewrite length_app; simpl; lia).
    cbn [recover_loop]. rewrite (Read_readN p topen _ Hu).
    rewrite (template_opener_normalized _ Hopener), bool_decide_eq_true_2 by done.
    assert (Hincr : int_add nest 1 = nest + 1).
    { apply int_wrap_small. unfold in_int, int_min, int_max in *. lia. }
    rewrite Hincr.
    rewrite (IHinner _ (nest + 1) (readN 1 p) (tend :: toks ++ rest));
      [|lia|lia|by eapply Unread_readN with (pre := [topen])].
    rewrite readN_add. cbn [recover_loop].
    assert (Hu2 : Unread (readN (1 + length inner) p) = tend :: toks ++ rest).
    { eapply Unread_readN with (pre := topen :: inner); [by rewrite Hu|done]. }
    rewrite (Read_readN _ tend _ Hu2), Htend. cbn [andb bool_decide decide_rel].
    rewrite bool_decide_eq_false_2 by done.
    rewrite bool_decide_eq_true_2 by done.
    assert ((nest + 1 <? 1) = false) as -> by (apply Z.ltb_ge; lia).
    assert (Hdecr : int_sub (nest + 1) 1 = nest).
    { unfold int_sub. rewrite int_wrap_small; [lia|].
      unfold in_int, int_min, int_max in *. lia. }
    rewrite Hdecr, readN_add.
    rewrite (IHtoks fuel nest _ rest); [|done|lia|].
    + rewrite readN_add. do 2 f_equal. simpl. rewrite length_app. simpl. lia.
    + eapply Unread_readN with (pre := topen :: inner ++ [tend]).
      * rewrite Hu. simpl. by rewrite <- app_assoc.
      * simpl. rewrite length_app. simpl. lia.
Qed.

Lemma recover_template_sequence k inner tend rest p :
  templateBalanced k inner ->
  Z.of_nat k <= int_max ->
  Token_Type tend = TokenTemplateSeqEnd ->
  Unread p = inner ++ tend :: rest ->
  recover TokenTemplateSeqEnd p = Ok (set_recovery (readN (S (length inner)) p)).
Proof.
  intros Hbal Hk Htend Hu. unfold recover. cbn [oppositeBracket].
  replace (recover_fuel (set_recovery p))
    with (length inner + S (length inner + 2 * S (length rest)))%nat
    by (unfold recover_fuel; rewrite Unread_set_recovery, Hu, length_app; simpl; lia).
  rewrite (recover_loop_balanced k inner Hbal _ 0 (set_recovery p) (tend :: rest));
    [|done|lia|done].
  cbn [recover_loop].
  assert (Hu1 : Unread (readN (length inner) (set_recovery p)) = tend :: rest)
    by (by eapply Unread_readN).
  rewrite (Read_readN _ tend _ Hu1), Htend. cbn [andb bool_decide decide_rel].
  rewrite bool_decide_eq_false_2 by done.
  rewrite bool_decide_eq_true_2 by done.
  cbn [Z.ltb Z.compare]. rewrite readN_add, readN_set_recovery.
  do 3 f_equal. lia.
Qed.

Lemma parseQuotedStringLiteral_loop_lits lits :
  Forall cleanQuotedLit lits ->
  forall fuel oQuote ret diags p rest,
    Unread p = lits ++ rest ->
    exists ret',
      parseQuotedStringLiteral_loop (length lits + fuel) oQuote ret diags p
        = parseQuotedStringLiteral_loop fuel oQuote ret' diags (readN (length lits) p).
Proof.
  induction 1 as [|lit lits [Hty [s Hs]] Hlits IH];
    intros fuel oQuote ret diags p rest Hu; [by exists ret|].
  cbn [length Nat.add parseQuotedStringLiteral_loop]. simpl in Hu.
  rewrite (Read_readN p lit _ Hu), Hty, Hs. bind_ok. rewrite app_nil_r.
  destruct (IH fuel oQuote (ret +:+ s) diags (readN 1 p) rest) as [ret' ->];
    [by eapply Unread_readN with (pre := [lit])|].
  exists ret'. by rewrite readN_add.
Qed.

Lemma parseQuotedStringLiteral_template
  oQuote lits1 topen k inner tend lits2 cQuote rest p :
  Token_Type oQuote = TokenOQuote ->
  Forall cleanQuotedLit lits1 ->
  is_template_opener (Token_Type topen) = true ->
  templateBalanced k inner -> Z.of_nat k <= int_max ->
  Token_Type tend = TokenTemplateSeqEnd ->
  Forall cleanQuotedLit lits2 ->
  Token_Type cQuote = TokenCQuote ->
  Unread p = templateLabel oQuote lits1 topen inner tend lits2 cQuote ++ rest ->
  exists text labelRange,
    parseQuotedStringLiteral p
      = Ok (text, labelRange, [templateNotAllowedDiag oQuote topen],
            set_recovery
              (readN (length (templateLabel oQuote lits1 topen inner tend lits2 cQuote)) p)).
Proof.
  intros HoQuote Hlits1 Hopener Hbal Hk Htend Hlits2 HcQuote Hu.
  unfold templateLabel in *. simpl in Hu.
  repeat (rewrite <- app_assoc in Hu; simpl in Hu).
  unfold parseQuotedStringLiteral. rewrite (Read_readN p oQuote _ Hu). cbv beta iota.
  rewrite bool_decide_eq_true_2 by done. cbn [negb].
  assert (Hu1 : Unread (readN 1 p)
                = lits1 ++ topen :: inner ++ tend :: lits2 ++ cQuote :: rest)
    by (by eapply Unread_readN with (pre := [oQuote])).
  replace (loop_fuel (readN 1 p))
    with (length lits1 + S (length lits2 + S (length inner + length rest + 2)))%nat
    by (unfold loop_fuel; rewrite Hu1; repeat (rewrite length_app; simpl); lia).
  destruct (parseQuotedStringLiteral_loop_lits lits1 Hlits1
              (S (length lits2 + S (length inner + length rest + 2))) oQuote "" []
              (readN 1 p) _ Hu1) as [ret1 ->].
  rewrite readN_add. cbn [parseQuotedStringLiteral_loop].
  assert (Hu2 : Unread (readN (1 + length lits1) p)
                = topen :: inner ++ tend :: lits2 ++ cQuote :: rest).
  { eapply Unread_readN with (pre := oQuote :: lits1); [by rewrite Hu|done]. }
  rewrite (Read_readN _ topen _ Hu2).
  assert (Hu3 : Unread (readN 1 (readN (1 + length lits1) p))
                = inner ++ tend :: lits2 ++ cQuote :: rest)
    by (by eapply Unread_readN with (pre := [topen])).
  assert (Hu4 : Unread (set_recovery (readN (S (length inner))
                          (readN 1 (readN (1 + length lits1) p))))
                = lits2 ++ cQuote :: rest).
  { rewrite Unread_set_recovery. by eapply Unread_readN with (pre := inner ++ [tend]);
      [rewrite <- app_assoc|rewrite length_app; simpl; lia]. }
  assert (Hu5 : Unread (readN (length lits2) (set_recovery (readN (S (length inner))
                          (readN 1 (readN (1 + length lits1) p)))))
                = cQuote :: rest) by (by eapply Unread_readN).
  destruct (parseQuotedStringLiteral_loop_lits lits2 Hlits2
              (S (length inner + length rest + 2)) oQuote ret1
              [templateNotAllowedDiag oQuote topen] _ _ Hu4) as [ret2 Hloop2].
  revert Hopener.
  destruct (Token_Type topen) eqn:Hty; intros Hopener;
    try (by vm_compute in Hopener);
    cbv iota; eexists _, _;
    rewrite (recover_template_sequence k inner tend _ _ Hbal Hk Htend Hu3);
    bind_ok; cbn [app]; rewrite Hloop2; cbn [parseQuotedStringLiteral_loop];
    rewrite (Read_readN _ cQuote _ Hu5), HcQuote; bind_ok;
    match goal with
    | |- Ok (_, _, _, ?a) = Ok (_, _, _, ?b) => replace a with b; [reflexivity|]
    end;
    rewrite !readN_set_recovery, !readN_add; do 2 f_equal;
    simpl; repeat (rewrite length_app; simpl); lia.
Qed.

(** C6.  A template-interpolation-open or template-control-open token
    inside a quoted block label is reported by one diagnostic, whose summary
    is "Invalid string literal" and whose detail says that template sequences
    are not allowed and that the marker ([$] or [!]) is escaped by doubling
    it; the parser then skips to just after the matching
    template-sequence-end and reads the label to its closing quote.  The block
    is returned as a partial block, body-item recovery runs, and the items
    [following] the point where it stops are parsed as usual: the whole parse
    reports that one diagnostic and nothing else. *)
Theorem template_in_label_reported_once
  (depth d k : nat) (ident oQuote topen tend cQuote : Token)
  (lits1 inner lits2 hdr following idents : list Token) (p pnext : parser) :
  Token_Type ident = TokenIdent ->
  Token_Type oQuote = TokenOQuote ->
  Forall cleanQuotedLit lits1 ->
  is_template_opener (Token_Type topen) = true ->
  templateBalanced k inner -> Z.of_nat k <= int_max ->
  Token_Type tend = TokenTemplateSeqEnd ->
  Forall cleanQuotedLit lits2 ->
  Token_Type cQuote = TokenCQuote ->
  Unread p = ident :: templateLabel oQuote lits1 topen inner tend lits2 cQuote ++ hdr ->
  recoverAfterBodyItem
    (readN (S (length (templateLabel oQuote lits1 topen inner tend lits2 cQuote))) p)
    = Ok pnext ->
  Unread pnext = following ->
  wf_items d following idents ->
  (d < depth)%nat ->
  Diagnostic_Summary (templateNotAllowedDiag oQuote topen) = "Invalid string literal" /\
  Diagnostic_Detail (templateNotAllowedDiag oQuote topen)
    = templateNotAllowedDetail
        (if bool_decide (Token_Type topen = TokenTemplateControl) then "!" else "$") /\
  recover TokenTemplateSeqEnd (readN (3 + length lits1) p)
    = Ok (set_recovery (readN (3 + length lits1 + S (length inner)) p)) /\
  (exists text labelRange,
     parseQuotedStringLiteral (readN 1 p)
       = Ok (text, labelRange, [templateNotAllowedDiag oQuote topen],
             set_recovery
               (readN (S (length (templateLabel oQuote lits1 topen inner tend lits2
                                    cQuote))) p))) /\
  exists body b blocks p',
    ParseBody depth TokenEOF p = Ok (body, [templateNotAllowedDiag oQuote topen], p') /\
    Body_Blocks body = b :: blocks /\
    Block_Type b = Token_Bytes ident /\
    Block_Body b = None /\
    map Block_Type blocks = map Token_Bytes idents /\
    map Block_TypeRange blocks = map Token_Range idents /\
    Unread p' = [].
Proof.
  intros Hident HoQuote Hlits1 Hopener Hbal Hk Htend Hlits2 HcQuote Hu Hrecover
    Hnext Hwf Hdepth.
  set (label := templateLabel oQuote lits1 topen inner tend lits2 cQuote) in *.
  set (diag := templateNotAllowedDiag oQuote topen).
  assert (Hu1 : Unread (readN 1 p) = label ++ hdr)
    by (by eapply Unread_readN with (pre := [ident])).
  destruct (parseQuotedStringLiteral_template oQuote lits1 topen k inner tend lits2
              cQuote hdr (readN 1 p)) as (text & labelRange & Hlabel); try done.
  fold label diag in Hlabel. rewrite readN_add in Hlabel.
  change (1 + length label)%nat with (S (length label)) in Hlabel.
  split; [reflexivity|]. split; [reflexivity|]. split.
  { rewrite <- (readN_add (3 + length lits1) (S (length inner)) p).
    apply (recover_template_sequence k inner tend (lits2 ++ cQuote :: hdr)); try done.
    eapply Unread_readN with (pre := ident :: oQuote :: lits1 ++ [topen]).
    - rewrite Hu. unfold label, templateLabel. simpl.
      repeat (rewrite <- app_assoc; simpl). done.
    - simpl. rewrite length_app. simpl. lia. }
  split; [by exists text, labelRange|].
  destruct depth as [|depth]; [lia|].
  assert (Hitem : ParseBodyItem_open (ParseBody depth) p
                  = Ok (NodeBlock (partialBlock ident [text] [labelRange]), [diag], pnext)).
  { unfold ParseBodyItem_open. rewrite (Read_readN p ident _ Hu). cbv beta iota.
    rewrite bool_decide_eq_true_2 by done. cbn [negb].
    assert (Hpeek : Peek (readN 1 p) = oQuote).
    { eapply Peek_cons. rewrite Hu1. unfold label, templateLabel. reflexivity. }
    rewrite Hpeek, HoQuote.
    unfold finishParsingBodyBlock_open, loop_fuel. cbn [blockHeader_loop].
    rewrite Hpeek, HoQuote, Hlabel. bind_ok.
    change (HasErrors [diag]) with true. cbv iota.
    rewrite recoverAfterBodyItem_set_recovery, Hrecover. bind_ok. bind_ok.
    reflexivity. }
  assert (Hlen : (length following < length (Unread p))%nat).
  { destruct (recoverAfterBodyItem_total (readN (S (length label)) p))
      as (p' & Hp' & Hs & _).
    rewrite Hrecover in Hp'. injection Hp' as <-.
    apply suffix_length in Hs. rewrite Hnext in Hs.
    rewrite (Unread_readN (ident :: label) hdr (S (length label)) p Hu eq_refl) in Hs.
    rewrite Hu. simpl. rewrite length_app. lia. }
  cbn [ParseBody]. unfold loop_fuel. cbn [ParseBody_loop].
  rewrite (Peek_cons p ident _ Hu), Hident, bool_decide_eq_false_2 by done.
  rewrite Hitem. bind_ok. cbn [app].
  destruct (ParseBody_loop_items d following idents Hwf depth (length (Unread p))
              TokenEOF ∅ [partialBlock ident [text] [labelRange]] [diag] pnext [])
    as (fuel' & newblocks & -> & Hfuel' & Hty & Hrange); try done.
  { lia. }
  { by rewrite app_nil_r. }
  { by rewrite app_nil_r. }
  destruct fuel' as [|fuel']; [simpl in Hfuel'; lia|].
  assert (Hend : Unread (readN (length following) pnext) = [])
    by (eapply Unread_readN; [by rewrite app_nil_r|done]).
  cbn [ParseBody_loop]. rewrite (Peek_nil _ Hend). cbn [eofToken Token_Type].
  rewrite bool_decide_eq_true_2 by done. rewrite (Read_nil _ Hend). bind_ok.
  eexists _, _, _, _. split; [reflexivity|]. by repeat split.
Qed.

(** ** The parser always comes back

    With a call stack deeper than the number of unread tokens, ParseBody
    neither exhausts the fuel of a loop nor the stack: it returns, having
    consumed some of the unread tokens from the front, or it panics because
    it met an attribute. *)

Lemma blockHeader_loop_total fuel ident labels labelRanges diags p :
  (length (Unread p) < fuel)%nat ->
  exists exit,
    blockHeader_loop fuel ident labels labelRanges diags p = Ok exit /\
    headerExit_ok p exit.
Proof.
  revert labels labelRanges diags p.
  induction fuel as [|fuel IH]; intros labels labelRanges diags p Hfuel; [lia|].
  cbn [blockHeader_loop].
  assert (Hret : forall (ls : list string) (rs : list Range) (ds : Diagnostics) q,
    Unread q `suffix_of` Unread p ->
    exists exit,
      (p2 ← recoverAfterBodyItem q; Ok (HeaderReturn (partialBlock ident ls rs) ds p2))
        = Ok exit /\
      headerExit_ok p exit).
  { intros ls rs ds q Hq. destruct (recoverAfterBodyItem_total q) as (p2 & -> & Hs & _).
    eexists. split; [reflexivity|]. simpl. by etrans. }
  destruct (Token_Type (Peek p)) eqn:Hpeek; try (by apply Hret).
  - destruct (Peek_nonempty p _ Hpeek) as (tok & rest & Hu & _); [done|].
    rewrite (Read_readN p tok rest Hu). eexists. split; [reflexivity|].
    unfold headerExit_ok. rewrite (Unread_readN [tok] rest 1 p Hu eq_refl), Hu.
    split; [by apply suffix_cons_r|simpl; lia].
  - destruct (parseQuotedStringLiteral_total p)
      as (label & labelRange & labelDiags & p1 & Hparse & Hs1).
    pose proof (parseQuotedStringLiteral_consumes _ _ _ _ _ Hparse Hpeek) as Hlt.
    assert (Hsuf : Unread p1 `suffix_of` Unread p)
      by (etrans; [exact Hs1|apply Read_suffix]).
    rewrite Hparse. bind_ok.
    destruct (HasErrors labelDiags); [by apply Hret|].
    destruct (IH (labels ++ [label]) (labelRanges ++ [labelRange]) (diags ++ labelDiags) p1)
      as (exit & -> & Hexit); [lia|].
    eexists. split; [reflexivity|].
    destruct exit; simpl in *; [by etrans|].
    destruct Hexit as [Hs Hl]. split; [by etrans|lia].
Qed.

Lemma returnsOrAttributePanic_weaken {A : Type} p q (r : result (A * parser)) :
  Unread q `suffix_of` Unread p ->
  returnsOrAttributePanic q r -> returnsOrAttributePanic p r.
Proof. destruct r as [[a p']| | |]; simpl; try done. intros. by etrans. Qed.

Section Totality.

Variable ParseBody_rec : TokenType -> parser -> result (Body * Diagnostics * parser).
Variable bound : nat.
Hypothesis ParseBody_rec_ok : forall end_ q,
  (length (Unread q) < bound)%nat -> returnsOrAttributePanic q (ParseBody_rec end_ q).

Lemma finishParsingBodyBlock_open_ok ident p :
  (length (Unread p) <= bound)%nat ->
  returnsOrAttributePanic p (finishParsingBodyBlock_open ParseBody_rec ident p).
Proof.
  intros Hbound. unfold finishParsingBodyBlock_open.
  destruct (blockHeader_loop_total (loop_fuel p) ident [] [] [] p)
    as (exit & -> & Hexit); [unfold loop_fuel; lia|].
  bind_ok. destruct exit as [b diags p1|oBrace labels labelRanges diags p1]; [done|].
  destruct Hexit as [Hsuf Hlt].
  pose proof (ParseBody_rec_ok TokenCBrace p1 ltac:(lia)) as Hbody.
  destruct (ParseBody_rec TokenCBrace p1) as [[[body bodyDiags] p2]| | |]; try done.
  simpl in *. by etrans.
Qed.

Lemma ParseBodyItem_open_ok p :
  Token_Type (Peek p) = TokenIdent ->
  (length (Unread p) <= bound)%nat ->
  returnsOrAttributePanic (readN 1 p) (ParseBodyItem_open ParseBody_rec p).
Proof.
  intros Hpeek Hbound.
  destruct (Peek_nonempty p _ Hpeek) as (ident & rest & Hu & Hident); [done|].
  unfold ParseBodyItem_open. rewrite (Read_readN p ident rest Hu). cbv beta iota.
  rewrite <- Hident, Hpeek, bool_decide_eq_true_2 by done. cbn [negb].
  assert (Hu1 : Unread (readN 1 p) = rest)
    by (by eapply Unread_readN with (pre := [ident])).
  assert (Hrecover : returnsOrAttributePanic (readN 1 p)
    (p2 ← recoverAfterBodyItem (readN 1 p);
     Ok (NodeNil, [definitionRequiredDiag useEqualsDetail (Peek p)], p2))).
  { by destruct (recoverAfterBodyItem_total (readN 1 p)) as (p2 & -> & Hs & _). }
  assert (Hblock : returnsOrAttributePanic (readN 1 p)
    (finishParsingBodyBlock_open ParseBody_rec (Peek p) (readN 1 p))).
  { apply finishParsingBodyBlock_open_ok. rewrite Hu1. rewrite Hu in Hbound.
    simpl in Hbound. lia. }
  destruct (Token_Type (Peek (readN 1 p))); try exact Hrecover; try exact Hblock.
  reflexivity.
Qed.

End Totality.

Section LoopTotality.

Variable parseItem : parser -> result (Node * Diagnostics * parser).
Variable bound : nat.
Hypothesis parseItem_progress : forall p,
  Token_Type (Peek p) = TokenIdent ->
  (length (Unread p) <= bound)%nat ->
  returnsOrAttributePanic (readN 1 p) (parseItem p).

Lemma ParseBody_loop_ok fuel end_ attrs blocks diags p :
  (length (Unread p) < fuel)%nat ->
  (length (Unread p) <= bound)%nat ->
  returnsOrAttributePanic p (ParseBody_loop parseItem fuel end_ attrs blocks diags p).
Proof.
  revert attrs blocks diags p.
  induction fuel as [|fuel IH]; intros attrs blocks diags p Hfuel Hbound; [lia|].
  cbn [ParseBody_loop].
  assert (HR : Unread (Read p).2 `suffix_of` Unread p) by apply Read_suffix.
  case_bool_decide as Hend.
  { by destruct (Read p) as [tok p1]. }
  assert (Hbad : returnsOrAttributePanic p
    (let '(bad, p1) := Read p in
     p2 ← recover end_ p1;
     Ok (attrs, blocks,
         if negb (parser_recovery p1) then
           if bool_decide (Token_Type bad = TokenOQuote)
           then diags ++ [quotedNameDiag bad]
           else diags ++ [definitionRequiredDiag definitionRequiredDetail bad]
         else diags, PrevRange p1, p2))).
  { destruct (Read p) as [bad p1]. simpl in HR.
    destruct (recover_total end_ p1) as (p2 & -> & Hs & _). simpl. by etrans. }
  destruct (Token_Type (Peek p)) eqn:Hpeek; try exact Hbad.
  - destruct (Peek_nonempty p _ Hpeek) as (ident & rest & Hu & _); [done|].
    assert (Hu1 : Unread (readN 1 p) = rest)
      by (by eapply Unread_readN with (pre := [ident])).
    pose proof (parseItem_progress p Hpeek Hbound) as Hitem.
    destruct (parseItem p) as [[[item itemDiags] p1]| | |]; try done.
    bind_ok. unfold returnsOrAttributePanic in Hitem. rewrite Hu1 in Hitem.
    assert (Hs1 : Unread p1 `suffix_of` Unread p)
      by (rewrite Hu; by apply suffix_cons_r).
    assert (Hlt : (length (Unread p1) < fuel)%nat).
    { apply suffix_length in Hitem. rewrite Hu in Hfuel. simpl in Hfuel. lia. }
    assert (Hle : (length (Unread p1) <= bound)%nat).
    { apply suffix_length in Hs1. lia. }
    destruct item as [|b|a|e];
      try (eapply returnsOrAttributePanic_weaken; [exact Hs1|by apply IH]).
    destruct (attrs !! Attribute_Name a);
      (eapply returnsOrAttributePanic_weaken; [exact Hs1|by apply IH]).
  - destruct (Peek_nonempty p _ Hpeek) as (nl & rest & Hu & _); [done|].
    rewrite (Read_readN p nl rest Hu).
    assert (Hu1 : Unread (readN 1 p) = rest)
      by (by eapply Unread_readN with (pre := [nl])).
    eapply returnsOrAttributePanic_weaken with (q := readN 1 p).
    + rewrite Hu1, Hu. by apply suffix_cons_r.
    + apply IH; rewrite Hu1; rewrite Hu in Hfuel, Hbound; simpl in *; lia.
Qed.

End LoopTotality.

Lemma ParseBody_total depth :
  forall end_ p,
    (length (Unread p) < depth)%nat ->
    returnsOrAttributePanic p (ParseBody depth end_ p).
Proof.
  induction depth as [|depth IH]; intros end_ p Hdepth; [lia|].
  cbn [ParseBody].
  pose proof (ParseBody_loop_ok (ParseBodyItem_open (ParseBody depth)) depth
                (fun q Hq Hb => ParseBodyItem_open_ok (ParseBody depth) depth IH q Hq Hb)
                (loop_fuel p) end_ ∅ [] [] p) as Hloop.
  destruct (ParseBody_loop _ _ _ _ _ _ _) as [[[[[? ?] ?] ?] p']| | |];
    simpl in *; apply Hloop; unfold loop_fuel; lia.
Qed.

(** * Further properties of the recovery scans *)

(** ** The pairing table *)

(** X1.  On a bracketer, oppositeBracket never returns its argument, swaps
    openers and closers, and is its own inverse, except that the
    template-control opener comes back as the template-interpolation opener. *)
Theorem oppositeBracket_pairs (ty : TokenType) :
  oppositeBracket ty <> TokenNil ->
  oppositeBracket ty <> ty /\
  oppositeBracket (oppositeBracket ty)
    = (if bool_decide (ty = TokenTemplateControl) then TokenTemplateInterp else ty) /\
  is_opener (oppositeBracket ty) = negb (is_opener ty).
Proof. destruct ty; simpl; intros H; try done. Qed.

(** ** Where the scans stop *)

Lemma recoverType_EOF end_ tok :
  recoverType end_ tok = TokenEOF <-> Token_Type tok = TokenEOF.
Proof.
  unfold recoverType. destruct (bool_decide (end_ = TokenTemplateSeqEnd)); simpl;
    [|done]. case_bool_decide as H; [|done]. rewrite H. split; discriminate.
Qed.

Lemma stopsAfter_step stop p tok rest p1 p' :
  Unread p = tok :: rest -> Unread p1 = rest ->
  stopsAfter stop p1 p' -> stopsAfter stop p p'.
Proof.
  intros Hu Hu1 [Hnil|(consumed & tok' & Hc & Hstop)]; [by left|].
  right. exists (tok :: consumed), tok'. split; [|done].
  rewrite Hu. simpl. f_equal. by rewrite <- Hc.
Qed.

Lemma recover_loop_stops fuel start end_ nest p p' :
  recover_loop fuel start end_ nest p = Ok p' ->
  stopsAfter (fun tok => recoverType end_ tok = end_ \/ Token_Type tok = TokenEOF) p p'.
Proof.
  revert nest p. induction fuel as [|fuel IH]; intros nest p; [done|].
  cbn [recover_loop]. fold (recoverType end_ (Read p).1).
  destruct (Read_cases p) as [(tok & rest & Hu & Htok & Hu1)|(Hu & Hty & Heq)].
  - destruct (Read p) as [tok' p1]. simpl in *. subst tok'.
    fold (recoverType end_ tok).
    assert (Hnow : recoverType end_ tok = end_ \/ Token_Type tok = TokenEOF ->
      stopsAfter
        (fun tok => recoverType end_ tok = end_ \/ Token_Type tok = TokenEOF) p p1).
    { intros Hstop. right. exists [], tok. by rewrite Hu, Hu1. }
    case_bool_decide as Hstart.
    { intros H. eapply stopsAfter_step; [done|done|by eapply IH]. }
    case_bool_decide as Hend.
    { destruct (nest <? 1).
      - intros [= <-]. apply Hnow. by left.
      - intros H. eapply stopsAfter_step; [done|done|by eapply IH]. }
    case_bool_decide as Heof.
    { intros [= <-]. apply Hnow. right. by apply recoverType_EOF in Heof. }
    intros H. eapply stopsAfter_step; [done|done|by eapply IH].
  - destruct (Read p) as [tok' p1]. simpl in *. subst p1.
    fold (recoverType end_ tok').
    case_bool_decide as Hstart.
    { intros H. by eapply IH. }
    case_bool_decide as Hend.
    { destruct (nest <? 1).
      - intros [= <-]. by left.
      - intros H. by eapply IH. }
    case_bool_decide as Heof.
    { intros [= <-]. by left. }
    intros H. by eapply IH.
Qed.

(** X2.  recover(end) stops in recovery mode and only at a resynchronization
    point: just after a token counted as [end] or an end-of-file token, or
    with the whole input read. *)
Theorem recover_stops_at_end_or_eof (end_ : TokenType) (p : parser) :
  exists p',
    recover end_ p = Ok p' /\
    parser_recovery p' = true /\
    stopsAfter (fun tok => recoverType end_ tok = end_ \/ Token_Type tok = TokenEOF) p p'.
Proof.
  destruct (recover_total end_ p) as (p' & Hp' & _ & Hflag).
  exists p'. split; [done|]. split; [done|].
  unfold recover in Hp'. apply recover_loop_stops in Hp'. exact Hp'.
Qed.

Lemma recoverAfterBodyItem_loop_stops fuel open p p' :
  recoverAfterBodyItem_loop fuel open p = Ok p' ->
  stopsAfter (fun tok => Token_Type tok = TokenNewline \/ Token_Type tok = TokenEOF) p p'.
Proof.
  revert open p. induction fuel as [|fuel IH]; intros open p; [done|].
  cbn [recoverAfterBodyItem_loop].
  destruct (Read_cases p) as [(tok & rest & Hu & Htok & Hu1)|(Hu & Hty & Heq)].
  - destruct (Read p) as [tok' p1]. simpl in *. subst tok'.
    assert (Hnow : Token_Type tok = TokenNewline \/ Token_Type tok = TokenEOF ->
      stopsAfter (fun tok => Token_Type tok = TokenNewline \/ Token_Type tok = TokenEOF)
        p p1).
    { intros Hstop. right. exists [], tok. by rewrite Hu, Hu1. }
    assert (Hnext : forall open',
      recoverAfterBodyItem_loop fuel open' p1 = Ok p' ->
      stopsAfter (fun tok => Token_Type tok = TokenNewline \/ Token_Type tok = TokenEOF)
        p p').
    { intros open' H. eapply stopsAfter_step; [done|done|by eapply IH]. }
    destruct (Token_Type tok) eqn:Hty; simpl; try apply Hnext.
    + destruct open; [|apply Hnext]. intros [= <-]. apply Hnow. by left.
    + intros [= <-]. apply Hnow. by right.
  - destruct (Read p) as [tok' p1]. simpl in *. subst p1. rewrite Hty.
    intros [= <-]. by left.
Qed.

(** X3.  recoverAfterBodyItem stops in recovery mode and only just after a
    newline or an end-of-file token, or with the whole input read. *)
Theorem recoverAfterBodyItem_stops_at_newline_or_eof (p : parser) :
  exists p',
    recoverAfterBodyItem p = Ok p' /\
    parser_recovery p' = true /\
    stopsAfter (fun tok => Token_Type tok = TokenNewline \/ Token_Type tok = TokenEOF) p p'.
Proof.
  destruct (recoverAfterBodyItem_total p) as (p' & Hp' & _ & Hflag).
  exists p'. split; [done|]. split; [done|].
  unfold recoverAfterBodyItem in Hp'. apply recoverAfterBodyItem_loop_stops in Hp'.
  exact Hp'.
Qed.

(** ** Skipping bracketed groups *)

Lemma oppositeBracket_ne ty : ty <> TokenNil -> oppositeBracket ty <> ty.
Proof. destruct ty; simpl; congruence. Qed.

Lemma recover_loop_pairs end_ k toks :
  pairsBalanced end_ k toks ->
  end_ <> TokenNil ->
  forall fuel nest p rest,
    0 <= nest -> nest + Z.of_nat k <= int_max ->
    Unread p = toks ++ rest ->
    recover_loop (length toks + fuel) (oppositeBracket end_) end_ nest p
      = recover_loop fuel (oppositeBracket end_) end_ nest (readN (length toks) p).
Proof.
  intros Hbal Hnil.
  induction Hbal as [k
                 |k tok toks Hstart Hend Heof Htoks IH
                 |k topen inner tend toks Hopener Hinner IHinner Htend Htoks IHtoks];
    intros fuel nest p rest Hnest Hmax Hu; [done| |].
  - cbn [length Nat.add recover_loop]. simpl in Hu. rewrite (Read_readN p tok _ Hu).
    fold (recoverType end_ tok).
    rewrite !bool_decide_eq_false_2 by done.
    rewrite (IH fuel nest (readN 1 p) rest); [by rewrite readN_add|done|done|].
    by eapply Unread_readN with (pre := [tok]).
  - simpl in Hu. rewrite <- app_assoc in Hu. simpl in Hu.
    replace (length (topen :: inner ++ tend :: toks) + fuel)%nat
      with (S (length inner + S (length toks + fuel)))
      by (simpl; rewrite length_app; simpl; lia).
    cbn [recover_loop]. rewrite (Read_readN p topen _ Hu).
    fold (recoverType end_ topen). rewrite Hopener, bool_decide_eq_true_2 by done.
    assert (Hincr : int_add nest 1 = nest + 1).
    { apply int_wrap_small. unfold in_int, int_min, int_max in *. lia. }
    rewrite Hincr.
    rewrite (IHinner _ (nest + 1) (readN 1 p) (tend :: toks ++ rest));
      [|lia|lia|by eapply Unread_readN with (pre := [topen])].
    rewrite readN_add. cbn [recover_loop].
    assert (Hu2 : Unread (readN (1 + length inner) p) = tend :: toks ++ rest).
    { eapply Unread_readN with (pre := topen :: inner); [by rewrite Hu|done]. }
    rewrite (Read_readN _ tend _ Hu2). fold (recoverType end_ tend). rewrite Htend.
    rewrite (bool_decide_eq_false_2 (end_ = oppositeBracket end_))
      by (intros Heq; by apply (oppositeBracket_ne end_)).
    rewrite bool_decide_eq_true_2 by done.
    assert ((nest + 1 <? 1) = false) as -> by (apply Z.ltb_ge; lia).
    assert (Hdecr : int_sub (nest + 1) 1 = nest).
    { unfold int_sub. rewrite int_wrap_small; [lia|].
      unfold in_int, int_min, int_max in *. lia. }
    rewrite Hdecr, readN_add.
    rewrite (IHtoks fuel nest _ rest); [|done|lia|].
    + rewrite readN_add. do 2 f_equal. simpl. rewrite length_app. simpl. lia.
    + eapply Unread_readN with (pre := topen :: inner ++ [tend]).
      * rewrite Hu. simpl. by rewrite <- app_assoc.
      * simpl. rewrite length_app. simpl. lia.
Qed.

Lemma recover_pairs end_ k inner tend rest p :
  end_ <> TokenNil ->
  pairsBalanced end_ k inner ->
  Z.of_nat k <= int_max ->
  recoverType end_ tend = end_ ->
  Unread p = inner ++ tend :: rest ->
  recover end_ p = Ok (set_recovery (readN (S (length inner)) p)).
Proof.
  intros Hnil Hbal Hk Htend Hu. unfold recover.
  replace (recover_fuel (set_recovery p))
    with (length inner + S (length inner + 2 * S (length rest)))%nat
    by (unfold recover_fuel; rewrite Unread_set_recovery, Hu, length_app; simpl; lia).
  rewrite (recover_loop_pairs end_ k inner Hbal Hnil _ 0 (set_recovery p) (tend :: rest));
    [|done|lia|done].
  cbn [recover_loop].
  assert (Hu1 : Unread (readN (length inner) (set_recovery p)) = tend :: rest)
    by (by eapply Unread_readN).
  rewrite (Read_readN _ tend _ Hu1). fold (recoverType end_ tend). rewrite Htend.
  rewrite (bool_decide_eq_false_2 (end_ = oppositeBracket end_))
    by (intros Heq; by apply (oppositeBracket_ne end_)).
  rewrite bool_decide_eq_true_2 by done.
  cbn [Z.ltb Z.compare]. rewrite readN_add, readN_set_recovery.
  do 3 f_equal. lia.
Qed.

(** X4.  For every bracketer [end]: called inside a bracketed group, with
    balanced groups of the same kind nested in it, recover(end) reads up to
    and including the closer that matches, skipping the nested closers, and
    leaves the parser in recovery mode. *)
Theorem recover_lands_after_matching_closer
  (end_ : TokenType) (k : nat) (inner : list Token) (tend : Token) (rest : list Token)
  (p : parser) :
  end_ <> TokenNil ->
  pairsBalanced end_ k inner ->
  Z.of_nat k <= int_max ->
  recoverType end_ tend = end_ ->
  Unread p = inner ++ tend :: rest ->
  exists p',
    recover end_ p = Ok p' /\
    Unread p' = rest /\
    parser_recovery p' = true /\
    PrevRange p' = Token_Range tend.
Proof.
  intros Hnil Hbal Hk Htend Hu.
  rewrite (recover_pairs end_ k inner tend rest p Hnil Hbal Hk Htend Hu).
  eexists. split; [reflexivity|]. split; [|split; [reflexivity|]].
  - rewrite Unread_set_recovery. eapply Unread_readN with (pre := inner ++ [tend]).
    + by rewrite <- app_assoc.
    + rewrite length_app. simpl. lia.
  - replace (S (length inner)) with (length inner + 1)%nat by lia.
    rewrite <- readN_add.
    assert (Hu1 : Unread (readN (length inner) p) = tend :: rest)
      by (by eapply Unread_readN).
    cbn [readN]. rewrite (Read_cons _ tend rest Hu1). reflexivity.
Qed.

(** ** recoverOver *)

Lemma recoverOver_loop_total fuel start p :
  (length (Unread p) < fuel)%nat ->
  exists p', recoverOver_loop fuel start p = Ok p' /\
             Unread p' `suffix_of` Unread p /\
             parser_recovery p' = parser_recovery p.
Proof.
  revert p. induction fuel as [|fuel IH]; intros p Hfuel; [lia|].
  cbn [recoverOver_loop].
  destruct (Read_suffix p) as [Hsuf Hrec].
  destruct (Read_cases p) as [(tok & rest & Hu & Htok & Hu1)|(Hu & Hty & Heq)];
    destruct (Read p) as [tok' p1]; simpl in *.
  - destruct (_ || _); [by exists p1|].
    destruct (IH p1) as (p' & -> & Hs & Hr); [rewrite Hu1; rewrite Hu in Hfuel; simpl in *; lia|].
    exists p'. split; [done|]. split; [by etrans|congruence].
  - rewrite Hty. rewrite orb_true_r. by exists p1.
Qed.

(** X5.  recoverOver always returns: it consumes tokens from the front of
    the input only, and leaves the parser in recovery mode. *)
Theorem recoverOver_terminates (start : TokenType) (p : parser) :
  exists p' consumed,
    recoverOver start p = Ok p' /\
    Unread p = consumed ++ Unread p' /\
    parser_recovery p' = true.
Proof.
  unfold recoverOver.
  destruct (recoverOver_loop_total (loop_fuel p) start p) as (p1 & -> & [c1 Hs1] & _);
    [unfold loop_fuel; lia|].
  bind_ok. destruct (recover_total (oppositeBracket start) p1) as (p' & -> & [c2 Hs2] & Hflag).
  exists p', (c1 ++ c2). split; [done|]. split; [|done].
  by rewrite Hs1, Hs2, app_assoc.
Qed.

Lemma recoverOver_loop_finds start pre :
  Forall (fun tok => Token_Type tok <> start /\ Token_Type tok <> TokenEOF) pre ->
  forall fuel p sopen rest,
    Unread p = pre ++ sopen :: rest ->
    Token_Type sopen = start ->
    recoverOver_loop (length pre + S fuel) start p = Ok (readN (S (length pre)) p).
Proof.
  induction 1 as [|tok pre [Hs He] Hpre IH]; intros fuel p sopen rest Hu Hsopen.
  - cbn [length Nat.add recoverOver_loop]. rewrite (Read_readN p sopen rest Hu).
    by rewrite Hsopen, bool_decide_eq_true_2.
  - cbn [length Nat.add recoverOver_loop]. simpl in Hu. rewrite (Read_readN p tok _ Hu).
    rewrite !bool_decide_eq_false_2 by done. cbn [orb].
    rewrite (IH fuel (readN 1 p) sopen rest); [by rewrite readN_add| |done].
    by eapply Unread_readN with (pre := [tok]).
Qed.

(** X6.  For every bracketer [start]: recoverOver(start) passes over the
    tokens before the next token of type [start], then over the whole group
    that token opens (balanced groups nested in it included), and stops just
    after the closer of that group, in recovery mode. *)
Theorem recoverOver_skips_next_group
  (start : TokenType) (k : nat) (pre : list Token) (sopen : Token) (inner : list Token)
  (send : Token) (rest : list Token) (p : parser) :
  oppositeBracket start <> TokenNil ->
  Forall (fun tok => Token_Type tok <> start /\ Token_Type tok <> TokenEOF) pre ->
  Token_Type sopen = start ->
  pairsBalanced (oppositeBracket start) k inner ->
  Z.of_nat k <= int_max ->
  recoverType (oppositeBracket start) send = oppositeBracket start ->
  Unread p = pre ++ sopen :: inner ++ send :: rest ->
  exists p',
    recoverOver start p = Ok p' /\
    Unread p' = rest /\
    parser_recovery p' = true.
Proof.
  intros Hnil Hpre Hsopen Hbal Hk Hsend Hu. unfold recoverOver.
  replace (loop_fuel p) with (length pre + S (S (length (inner ++ send :: rest))))%nat
    by (unfold loop_fuel; rewrite Hu, !length_app; simpl; rewrite ?length_app; simpl; lia).
  rewrite (recoverOver_loop_finds start pre Hpre _ p sopen _ Hu Hsopen). bind_ok.
  assert (Hu1 : Unread (readN (S (length pre)) p) = inner ++ send :: rest).
  { eapply Unread_readN with (pre := pre ++ [sopen]).
    - by rewrite <- app_assoc.
    - rewrite length_app. simpl. lia. }
  rewrite (recover_pairs _ k inner send rest _ Hnil Hbal Hk Hsend Hu1).
  eexists. split; [reflexivity|]. split; [|reflexivity].
  rewrite Unread_set_recovery. eapply Unread_readN with (pre := inner ++ [send]).
  - by rewrite <- app_assoc.
  - rewrite length_app. simpl. lia.
Qed.

(** ** recoverAfterBodyItem and the end of the line *)

Section BodyItemScan.

Variables (fuel : nat) (open : list TokenType) (p : parser) (tok : Token)
  (rest : list Token).
Hypothesis Hu : Unread p = tok :: rest.

Lemma scan_opener :
  is_opener (Token_Type tok) = true ->
  recoverAfterBodyItem_loop (S fuel) open p
    = recoverAfterBodyItem_loop fuel (Token_Type tok :: open) (readN 1 p).
Proof.
  intros H. cbn [recoverAfterBodyItem_loop]. rewrite (Read_readN p tok rest Hu).
  by destruct (Token_Type tok).
Qed.

Lemma scan_plain_closer :
  is_plain_closer (Token_Type tok) = true ->
  recoverAfterBodyItem_loop (S fuel) open p
    = recoverAfterBodyItem_loop fuel
        (pop_through (fun t => bool_decide (t = oppositeBracket (Token_Type tok))) open)
        (readN 1 p).
Proof.
  intros H. cbn [recoverAfterBodyItem_loop]. rewrite (Read_readN p tok rest Hu).
  by destruct (Token_Type tok).
Qed.

Lemma scan_sequence_end :
  Token_Type tok = TokenTemplateSeqEnd ->
  recoverAfterBodyItem_loop (S fuel) open p
    = recoverAfterBodyItem_loop fuel (pop_through is_template_opener open) (readN 1 p).
Proof.
  intros H. cbn [recoverAfterBodyItem_loop]. rewrite (Read_readN p tok rest Hu).
  by rewrite H.
Qed.

Lemma scan_inert :
  inert tok ->
  (Token_Type tok = TokenNewline -> open <> []) ->
  recoverAfterBodyItem_loop (S fuel) open p
    = recoverAfterBodyItem_loop fuel open (readN 1 p).
Proof.
  intros (Ho & Hc & Hs & He) Hnl. cbn [recoverAfterBodyItem_loop].
  rewrite (Read_readN p tok rest Hu). revert Ho Hc Hs He Hnl.
  destruct (Token_Type tok); simpl; intros Ho Hc Hs He Hnl; try done.
  destruct open; [exfalso; by apply Hnl|done].
Qed.

Lemma scan_newline_outside :
  Token_Type tok = TokenNewline ->
  recoverAfterBodyItem_loop (S fuel) [] p = Ok (readN 1 p).
Proof.
  intros H. cbn [recoverAfterBodyItem_loop]. rewrite (Read_readN p tok rest Hu).
  by rewrite H.
Qed.

End BodyItemScan.

Lemma pop_through_closes opener closer open :
  closes opener closer ->
  (is_plain_closer (Token_Type closer) = true ->
   pop_through (fun t => bool_decide (t = oppositeBracket (Token_Type closer)))
     (Token_Type opener :: open) = open) /\
  (Token_Type closer = TokenTemplateSeqEnd ->
   pop_through is_template_opener (Token_Type opener :: open) = open).
Proof.
  intros (Hopener & [[Hc Hopp]|[Hs Ht]]); split; intros H; cbn [pop_through].
  - by rewrite Hopp, bool_decide_eq_true_2.
  - rewrite H in Hc. discriminate.
  - rewrite Hs in H. discriminate.
  - by rewrite Ht.
Qed.

Lemma closer_kind opener closer :
  closes opener closer ->
  is_plain_closer (Token_Type closer) = true \/ Token_Type closer = TokenTemplateSeqEnd.
Proof. intros (_ & [[? _]|[? _]]); [by left|by right]. Qed.

Lemma scan_group fuel open p opener inner closer rest :
  closes opener closer ->
  Unread p = opener :: inner ++ closer :: rest ->
  (forall fuel' q,
     Unread q = inner ++ closer :: rest ->
     recoverAfterBodyItem_loop (length inner + fuel') (Token_Type opener :: open) q
       = recoverAfterBodyItem_loop fuel' (Token_Type opener :: open)
           (readN (length inner) q)) ->
  recoverAfterBodyItem_loop (S (length inner + S fuel)) open p
    = recoverAfterBodyItem_loop fuel open (readN (S (length inner + 1)) p).
Proof.
  intros Hcloses Hu Hinner.
  rewrite (scan_opener _ open p opener _ Hu) by apply Hcloses.
  assert (Hu1 : Unread (readN 1 p) = inner ++ closer :: rest)
    by (by eapply Unread_readN with (pre := [opener])).
  rewrite (Hinner (S fuel) (readN 1 p) Hu1), readN_add.
  assert (Hu2 : Unread (readN (1 + length inner) p) = closer :: rest).
  { eapply Unread_readN with (pre := opener :: inner); [by rewrite Hu|done]. }
  destruct (pop_through_closes opener closer open Hcloses) as [Hplain Hseq].
  destruct (closer_kind opener closer Hcloses) as [Hc|Hs].
  - rewrite (scan_plain_closer _ _ _ closer rest Hu2 Hc), (Hplain Hc), readN_add.
    do 2 f_equal; lia.
  - rewrite (scan_sequence_end _ _ _ closer rest Hu2 Hs), (Hseq Hs), readN_add.
    do 2 f_equal; lia.
Qed.

Lemma scan_inside toks :
  insideBalanced toks ->
  forall fuel top below p rest,
    Unread p = toks ++ rest ->
    recoverAfterBodyItem_loop (length toks + fuel) (top :: below) p
      = recoverAfterBodyItem_loop fuel (top :: below) (readN (length toks) p).
Proof.
  induction 1 as [|tok toks Hinert Htoks IH
                 |opener inner closer toks Hcloses Hinner IHinner Htoks IHtoks];
    intros fuel top below p rest Hu; [done| |].
  - cbn [length Nat.add]. simpl in Hu.
    rewrite (scan_inert _ _ p tok _ Hu Hinert) by done.
    rewrite (IH fuel top below (readN 1 p) rest); [by rewrite readN_add|].
    by eapply Unread_readN with (pre := [tok]).
  - simpl in Hu. rewrite <- app_assoc in Hu. simpl in Hu.
    replace (length (opener :: inner ++ closer :: toks) + fuel)%nat
      with (S (length inner + S (length toks + fuel)))
      by (simpl; rewrite length_app; simpl; lia).
    rewrite (scan_group _ (top :: below) p opener inner closer (toks ++ rest) Hcloses Hu)
      by (intros fuel' q Hq; by eapply IHinner).
    rewrite (IHtoks fuel top below _ rest).
    + rewrite readN_add. do 2 f_equal; simpl; rewrite length_app; simpl; lia.
    + eapply Unread_readN with (pre := opener :: inner ++ [closer]).
      * rewrite Hu. simpl. by rewrite <- app_assoc.
      * simpl. rewrite length_app. simpl. lia.
Qed.

Lemma scan_line toks :
  lineBalanced toks ->
  forall fuel p rest,
    Unread p = toks ++ rest ->
    recoverAfterBodyItem_loop (length toks + fuel) [] p
      = recoverAfterBodyItem_loop fuel [] (readN (length toks) p).
Proof.
  induction 1 as [|tok toks Hinert Hnl Htoks IH
                 |tok toks Hstray Htoks IH
                 |opener inner closer toks Hcloses Hinner Htoks IHtoks];
    intros fuel p rest Hu; [done| | |].
  - cbn [length Nat.add]. simpl in Hu.
    rewrite (scan_inert _ _ p tok _ Hu Hinert) by done.
    rewrite (IH fuel (readN 1 p) rest); [by rewrite readN_add|].
    by eapply Unread_readN with (pre := [tok]).
  - cbn [length Nat.add]. simpl in Hu.
    assert (Hstep : recoverAfterBodyItem_loop (S (length toks + fuel)) [] p
                    = recoverAfterBodyItem_loop (length toks + fuel) [] (readN 1 p)).
    { destruct Hstray as [Hc|Hs].
      - by rewrite (scan_plain_closer _ _ p tok _ Hu Hc).
      - by rewrite (scan_sequence_end _ _ p tok _ Hu Hs). }
    rewrite Hstep, (IH fuel (readN 1 p) rest); [by rewrite readN_add|].
    by eapply Unread_readN with (pre := [tok]).
  - simpl in Hu. rewrite <- app_assoc in Hu. simpl in Hu.
    replace (length (opener :: inner ++ closer :: toks) + fuel)%nat
      with (S (length inner + S (length toks + fuel)))
      by (simpl; rewrite length_app; simpl; lia).
    rewrite (scan_group _ [] p opener inner closer (toks ++ rest) Hcloses Hu)
      by (intros fuel' q Hq; by eapply scan_inside).
    rewrite (IHtoks fuel _ rest).
    + rewrite readN_add. do 2 f_equal; simpl; rewrite length_app; simpl; lia.
    + eapply Unread_readN with (pre := opener :: inner ++ [closer]).
      * rewrite Hu. simpl. by rewrite <- app_assoc.
      * simpl. rewrite length_app. simpl. lia.
Qed.

Lemma recoverAfterBodyItem_line line nl rest p :
  lineBalanced line ->
  Token_Type nl = TokenNewline ->
  Unread p = line ++ nl :: rest ->
  recoverAfterBodyItem p = Ok (set_recovery (readN (S (length line)) p)).
Proof.
  intros Hline Hnl Hu. unfold recoverAfterBodyItem.
  replace (loop_fuel (set_recovery p)) with (length line + S (S (length rest)))%nat
    by (unfold loop_fuel; rewrite Unread_set_recovery, Hu, length_app; simpl; lia).
  rewrite (scan_line line Hline _ (set_recovery p) (nl :: rest) Hu).
  assert (Hu1 : Unread (readN (length line) (set_recovery p)) = nl :: rest)
    by (by eapply Unread_readN).
  rewrite (scan_newline_outside _ _ nl rest Hu1 Hnl), readN_add, readN_set_recovery.
  do 3 f_equal; lia.
Qed.


(** * Further properties of the escape decoder *)

Lemma str_app_cons (x : ascii) (a b : string) : String x a +:+ b = String x (a +:+ b).
Proof. reflexivity. Qed.

Lemma str_app_assoc (a b c : string) : (a +:+ b) +:+ c = a +:+ (b +:+ c).
Proof.
  induction a as [|x a IH]; [done|].
  rewrite ?str_app_cons. simpl. by f_equal.
Qed.

Lemma str_app_nil_r (a : string) : a +:+ "" = a.
Proof.
  induction a as [|x a IH]; [done|].
  rewrite ?str_app_cons. simpl. by f_equal.
Qed.

Lemma str_length_app (a b : string) :
  String.length (a +:+ b) = (String.length a + String.length b)%nat.
Proof.
  induction a as [|x a IH]; [done|].
  rewrite ?str_app_cons. simpl. by f_equal.
Qed.

Lemma decodeStep_plain quoted filename st ch :
  ds_esc st = "" ->
  plainCluster quoted ch ->
  exists pos,
    decodeStep quoted filename st ch
      = Ok (mkDecodeState (ds_ret st +:+ ch) "" pos (ds_diags st)).
Proof.
  intros Hesc Hplain. unfold decodeStep. rewrite Hesc. unfold plainCluster in Hplain.
  destruct (single ch) as [c|]; [|by eexists].
  destruct Hplain as (Hd & He & Hb).
  rewrite (bool_decide_eq_false_2 (c = "$"%char)) by done.
  rewrite (bool_decide_eq_false_2 (c = "!"%char)) by done.
  case_bool_decide as Hbs; [|by eexists].
  destruct quoted; [by destruct (Hb eq_refl)|by eexists].
Qed.

Lemma decodeLoop_plain quoted filename clusters :
  Forall (plainCluster quoted) clusters ->
  forall st, ds_esc st = "" ->
    exists pos,
      decodeLoop quoted filename st clusters
        = Ok (mkDecodeState (ds_ret st +:+ concatClusters clusters) "" pos (ds_diags st)).
Proof.
  induction 1 as [|ch clusters Hch Hrest IH]; intros st Hesc; cbn [decodeLoop].
  - exists (ds_newPos st). cbn [concatClusters foldr]. rewrite str_app_nil_r.
    destruct st. simpl in *. by subst.
  - destruct (decodeStep_plain quoted filename st ch Hesc Hch) as [pos ->]. bind_ok.
    destruct (IH (mkDecodeState (ds_ret st +:+ ch) "" pos (ds_diags st)) eq_refl)
      as [pos' ->].
    exists pos'. cbn [ds_ret ds_diags concatClusters foldr]. by rewrite str_app_assoc.
Qed.

(** X8.  A literal in which no cluster is a dollar sign, an exclamation mark
    or, in quoted mode, a backslash decodes to its own bytes without
    diagnostics; in unquoted mode backslashes are copied through. *)
Theorem plain_text_decodes_to_itself (tok : Token) (quoted : bool) :
  decodeMode tok = Some quoted ->
  concatClusters (ScanGraphemeClusters (Token_Bytes tok)) = Token_Bytes tok ->
  Forall (plainCluster quoted) (ScanGraphemeClusters (Token_Bytes tok)) ->
  decodeStringLit tok = Ok (Token_Bytes tok, []).
Proof.
  intros Hmode Hconcat Hplain. rewrite decodeStringLit_unfold, Hmode.
  destruct (decodeLoop_plain quoted (Range_Filename (Token_Range tok)) _ Hplain
              (initialDecodeState tok) eq_refl) as [pos ->].
  simpl. by rewrite Hconcat.
Qed.

Lemma decodeStep_diags quoted filename st ch st' :
  esc_unquoted quoted (ds_esc st) ->
  decodeStep quoted filename st ch = Ok st' ->
  esc_unquoted quoted (ds_esc st') /\
  (ds_diags st' = ds_diags st \/
   quoted = true /\
   exists d, ds_diags st' = ds_diags st ++ [d] /\ isInvalidEscapeDiag filename d).
Proof.
  intros Hunq. revert Hunq.
  decode_step_cases st ch quoted; intros Hunq Hst; try discriminate;
    injection Hst as <-; simpl;
    try (split; [intros Hq; try done; try (by apply Hunq) | by left]).
  all: try (by apply is_marker_not_backslash).
  all: destruct quoted; [|exfalso; by apply Hunq].
  all: split; [done|right; split; [done|eexists; split; [done|]]].
  all: repeat split; by eexists.
Qed.

Lemma decodeLoop_diags quoted filename clusters :
  forall st st',
    esc_unquoted quoted (ds_esc st) ->
    decodeLoop quoted filename st clusters = Ok st' ->
    exists new,
      ds_diags st' = ds_diags st ++ new /\
      Forall (isInvalidEscapeDiag filename) new /\
      (quoted = false -> new = []).
Proof.
  induction clusters as [|ch clusters IH]; intros st st' Hunq; simpl.
  - intros [= <-]. exists []. by rewrite app_nil_r.
  - destruct (decodeStep quoted filename st ch) as [st1| | |] eqn:Hstep; try done.
    simpl. intros Hloop.
    destruct (decodeStep_diags _ _ _ _ _ Hunq Hstep) as [Hunq1 Hd].
    destruct (IH st1 st' Hunq1 Hloop) as (new & Hnew & Hall & Hq).
    destruct Hd as [Heq|(Hquoted & d & Heq & Hdiag)].
    + exists new. by rewrite Hnew, Heq.
    + exists (d :: new). rewrite Hnew, Heq, <- app_assoc. split; [done|].
      split; [by constructor|]. intros Hf. congruence.
Qed.

(** X9.  Every diagnostic of decodeStringLit is an error with the summary
    "Invalid escape sequence", whose subject lies in the file of the token and
    which has no context range; on raw string-literal text (unquoted mode) it
    reports no diagnostic at all. *)
Theorem decodeStringLit_diagnostics (tok : Token) (text : string) (diags : Diagnostics) :
  decodeStringLit tok = Ok (text, diags) ->
  Forall (isInvalidEscapeDiag (Range_Filename (Token_Range tok))) diags /\
  (Token_Type tok = TokenStringLit -> diags = []).
Proof.
  rewrite decodeStringLit_unfold.
  destruct (decodeMode tok) as [quoted|] eqn:Hmode; [|done].
  destruct (decodeLoop quoted _ _ _) as [st| | |] eqn:Hloop; try done.
  simpl. intros [= <- <-].
  assert (Hinit : esc_unquoted quoted (ds_esc (initialDecodeState tok)))
    by (intros _; exact I).
  destruct (decodeLoop_diags _ _ _ _ _ Hinit Hloop) as (new & Hnew & Hall & Hq).
  simpl in Hnew. subst new. split; [done|].
  intros Hty. apply Hq. unfold decodeMode in Hmode. rewrite Hty in Hmode. congruence.
Qed.

Lemma decodeStep_length quoted filename st ch st' :
  decodeStep quoted filename st ch = Ok st' ->
  (String.length (ds_ret st') + String.length (ds_esc st')
   <= String.length (ds_ret st) + String.length (ds_esc st) + String.length ch)%nat.
Proof.
  decode_step_cases st ch quoted; intros Hst; try discriminate;
    injection Hst as <-; simpl; rewrite ?str_length_app; simpl;
    repeat match goal with
    | H : single _ = Some _ |- _ => apply single_Some in H; rewrite H
    end; simpl; lia.
Qed.

Lemma decodeLoop_length quoted filename clusters :
  forall st st',
    decodeLoop quoted filename st clusters = Ok st' ->
    (String.length (ds_ret st') + String.length (ds_esc st')
     <= String.length (ds_ret st) + String.length (ds_esc st)
        + String.length (concatClusters clusters))%nat.
Proof.
  induction clusters as [|ch clusters IH]; intros st st'; simpl.
  - intros [= <-]. lia.
  - destruct (decodeStep quoted filename st ch) as [st1| | |] eqn:Hstep; try done.
    simpl. intros Hloop. apply decodeStep_length in Hstep. apply IH in Hloop.
    rewrite str_length_app. lia.
Qed.

(** X10.  The decoded text is never longer than the bytes the scanner
    delivered: the buffer allocated with the capacity of the token's bytes is
    never outgrown when the clusters are a split of those bytes. *)
Theorem decoded_text_no_longer_than_input
  (tok : Token) (text : string) (diags : Diagnostics) :
  decodeStringLit tok = Ok (text, diags) ->
  (String.length text
   <= String.length (concatClusters (ScanGraphemeClusters (Token_Bytes tok))))%nat.
Proof.
  rewrite decodeStringLit_unfold.
  destruct (decodeMode tok) as [quoted|] eqn:Hmode; [|done].
  destruct (decodeLoop quoted _ _ _) as [st| | |] eqn:Hloop; try done.
  simpl. intros [= <- <-]. apply decodeLoop_length in Hloop. simpl in Hloop. lia.
Qed.

(** * What a parse reports

    ** Diagnostics and the recovery flag *)

Lemma trail_refl p : trail p [] p.
Proof. split; [constructor|]. split; [done|]. intros ?; by left. Qed.

Lemma trail_trans p d1 p1 d2 p2 :
  trail p d1 p1 -> trail p1 d2 p2 -> trail p (d1 ++ d2) p2.
Proof.
  intros (He1 & Hk1 & Hn1) (He2 & Hk2 & Hn2). split; [by apply Forall_app|].
  split; [auto|]. intros Hr. destruct (Hn2 Hr) as [H1|H2].
  - destruct (Hn1 H1) as [?|Hd]; [by left|right]. by destruct d1.
  - right. by destruct d1.
Qed.

Lemma trail_same p new p' :
  parser_recovery p' = parser_recovery p -> Forall isError new -> trail p new p'.
Proof.
  intros Heq He. split; [done|]. rewrite Heq. split; [done|]. intros ?; by left.
Qed.

Lemma trail_recovering p new p' :
  parser_recovery p' = true -> Forall isError new ->
  (parser_recovery p = true \/ new <> []) -> trail p new p'.
Proof. intros Hr He Hc. by split. Qed.

Lemma trail_clean p p' :
  trail p [] p' -> parser_recovery p = false -> parser_recovery p' = false.
Proof.
  intros (_ & _ & Hn) Hp. destruct (parser_recovery p') eqn:Hp'; [|done].
  destruct (Hn eq_refl) as [?|?]; congruence.
Qed.

Lemma Read_recovery p : parser_recovery (Read p).2 = parser_recovery p.
Proof. unfold Read. by destruct (peeker_Read (parser_peeker p)). Qed.

Lemma PrevRange_Read p :
  Token_Type (Peek p) <> TokenEOF ->
  PrevRange (Read p).2 = NextRange p /\ (Read p).1 = Peek p.
Proof.
  intros Hpeek. destruct (Unread p) as [|tok rest] eqn:Hu.
  - by rewrite (Peek_nil p Hu) in Hpeek.
  - rewrite (Read_cons p tok rest Hu). unfold NextRange, peeker_NextRange.
    fold (Peek p). by rewrite (Peek_cons p tok rest Hu).
Qed.

Lemma HasErrors_clean diags : Forall isError diags -> HasErrors diags = false -> diags = [].
Proof.
  destruct diags as [|d diags]; [done|]. intros He. apply Forall_cons in He as [Hd _].
  unfold HasErrors. simpl. by rewrite bool_decide_eq_true_2.
Qed.

Lemma HasErrors_nonempty diags : HasErrors diags = true -> diags <> [].
Proof. by destruct diags. Qed.

Lemma decodeStringLit_errors tok s ds :
  decodeStringLit tok = Ok (s, ds) -> Forall isError ds.
Proof.
  rewrite decodeStringLit_unfold.
  destruct (decodeMode tok) as [quoted|] eqn:Hmode; [|done].
  destruct (decodeLoop quoted _ _ _) as [st| | |] eqn:Hloop; try done.
  simpl. intros [= <- <-].
  assert (Hinit : esc_unquoted quoted (ds_esc (initialDecodeState tok)))
    by (intros _; exact I).
  destruct (decodeLoop_diags _ _ _ _ _ Hinit Hloop) as (new & Hnew & Hall & _).
  simpl in Hnew. subst new. eapply Forall_impl; [exact Hall|]. by intros d [? _].
Qed.

Lemma parseQuotedStringLiteral_loop_trail fuel oQuote :
  forall ret diags p ret' cQuote diags' p',
    parseQuotedStringLiteral_loop fuel oQuote ret diags p = Ok (ret', cQuote, diags', p') ->
    exists new, diags' = diags ++ new /\ trail p new p'.
Proof.
  induction fuel as [|fuel IH]; intros ret diags p ret' cQuote diags' p'; [done|].
  cbn [parseQuotedStringLiteral_loop].
  pose proof (Read_recovery p) as HR.
  destruct (Read p) as [tok p1]. simpl in HR.
  assert (Hdefault :
    (p2 ← recover TokenOQuote p1;
     Ok (ret, zeroToken, diags ++ [invalidStringItemDiag oQuote tok], p2))
      = Ok (ret', cQuote, diags', p') ->
    exists new, diags' = diags ++ new /\ trail p new p').
  { destruct (recover_total TokenOQuote p1) as (p2 & -> & _ & Hrec). simpl.
    intros [= <- <- <- <-]. eexists. split; [done|].
    apply trail_recovering; [done|by repeat constructor|by right]. }
  assert (Htemplate :
    (p2 ← recover TokenTemplateSeqEnd p1;
     parseQuotedStringLiteral_loop fuel oQuote ret
       (diags ++ [templateNotAllowedDiag oQuote tok]) p2)
      = Ok (ret', cQuote, diags', p') ->
    exists new, diags' = diags ++ new /\ trail p new p').
  { destruct (recover_total TokenTemplateSeqEnd p1) as (p2 & -> & _ & Hrec). simpl.
    intros Hloop. apply IH in Hloop as (new & -> & Ht).
    exists ([templateNotAllowedDiag oQuote tok] ++ new). split; [by rewrite app_assoc|].
    eapply trail_trans; [|exact Ht].
    apply trail_recovering; [done|by repeat constructor|by right]. }
  destruct (Token_Type tok); try exact Hdefault; try exact Htemplate.
  - intros [= <- <- <- <-]. exists []. rewrite app_nil_r. split; [done|].
    by apply trail_same.
  - destruct (decodeStringLit tok) as [[s sDiags]| | |] eqn:Hdec; try done.
    simpl. intros Hloop. apply IH in Hloop as (new & -> & Ht).
    exists (sDiags ++ new). split; [by rewrite app_assoc|].
    eapply trail_trans; [|exact Ht].
    apply trail_same; [done|by eapply decodeStringLit_errors].
  - intros [= <- <- <- <-]. eexists. split; [done|].
    apply trail_same; [done|by repeat constructor].
Qed.

Lemma parseQuotedStringLiteral_trail p label labelRange diags p' :
  parseQuotedStringLiteral p = Ok (label, labelRange, diags, p') -> trail p diags p'.
Proof.
  unfold parseQuotedStringLiteral.
  pose proof (Read_recovery p) as HR.
  destruct (Read p) as [oQuote p1]. simpl in HR.
  case_bool_decide; cbn [negb].
  - destruct (parseQuotedStringLiteral_loop _ _ _ _ _)
      as [[[[ret cQuote] ds] p2]| | |] eqn:Hloop; try done.
    simpl. intros [= <- <- <- <-].
    apply parseQuotedStringLiteral_loop_trail in Hloop as (new & -> & Ht).
    simpl. unfold trail in *. by rewrite <- HR.
  - intros [= <- <- <- <-]. apply trail_same; [done|by repeat constructor].
Qed.

(** What the header loop owes its caller. *)
Lemma blockHeader_loop_trail fuel ident :
  forall labels labelRanges diags p exit,
    blockHeader_loop fuel ident labels labelRanges diags p = Ok exit ->
    match exit with
    | HeaderReturn _ diags' p' =>
        exists new, diags' = diags ++ new /\ trail p new p' /\
                    (parser_recovery p = false -> new <> [])
    | HeaderBreak oBrace _ _ diags' p' =>
        exists new, diags' = diags ++ new /\ trail p new p' /\
                    PrevRange p' = Token_Range oBrace
    end.
Proof.
  induction fuel as [|fuel IH]; intros labels labelRanges diags p exit; [done|].
  cbn [blockHeader_loop].
  assert (Hret : forall (ls : list string) (rs : list Range) (new : Diagnostics),
    Forall isError new ->
    (parser_recovery p = false -> new <> []) ->
    (p2 ← recoverAfterBodyItem p;
     Ok (HeaderReturn (partialBlock ident ls rs) (diags ++ new) p2)) = Ok exit ->
    match exit with
    | HeaderReturn _ diags' p' =>
        exists new, diags' = diags ++ new /\ trail p new p' /\
                    (parser_recovery p = false -> new <> [])
    | HeaderBreak oBrace _ _ diags' p' =>
        exists new, diags' = diags ++ new /\ trail p new p' /\
                    PrevRange p' = Token_Range oBrace
    end).
  { intros ls rs new He Hne.
    destruct (recoverAfterBodyItem_total p) as (p2 & -> & _ & Hrec). simpl.
    intros [= <-]. exists new. split; [done|]. split; [|done].
    apply trail_recovering; [done..|].
    destruct (parser_recovery p); [by left|right; by apply Hne]. }
  assert (Hother :
    (p2 ← recoverAfterBodyItem p;
     Ok (HeaderReturn (partialBlock ident labels labelRanges)
           (if negb (parser_recovery p)
            then diags ++ [invalidBlockDiag labelOrBraceDetail ident (Peek p)]
            else diags) p2)) = Ok exit ->
    match exit with
    | HeaderReturn _ diags' p' =>
        exists new, diags' = diags ++ new /\ trail p new p' /\
                    (parser_recovery p = false -> new <> [])
    | HeaderBreak oBrace _ _ diags' p' =>
        exists new, diags' = diags ++ new /\ trail p new p' /\
                    PrevRange p' = Token_Range oBrace
    end).
  { destruct (parser_recovery p) eqn:Hp; cbn [negb].
    - intros H. apply (Hret labels labelRanges []); [constructor|done|].
      by rewrite app_nil_r.
    - apply Hret; [by repeat constructor|done]. }
  destruct (Token_Type (Peek p)) eqn:Hpeek; try exact Hother.
  - pose proof (Read_recovery p) as HR.
    destruct (PrevRange_Read p) as [Hprev Htok]; [by rewrite Hpeek|].
    destruct (Read p) as [oBrace p1]. simpl in HR, Hprev, Htok.
    intros [= <-]. exists []. rewrite app_nil_r. split; [done|].
    split; [by apply trail_same|]. by rewrite Hprev, Htok.
  - destruct (parseQuotedStringLiteral p) as [[[[label labelRange] labelDiags] p1]| | |]
      eqn:Hparse; try done.
    apply parseQuotedStringLiteral_trail in Hparse. simpl.
    destruct (HasErrors labelDiags) eqn:Herr.
    + destruct (recoverAfterBodyItem_total p1) as (p2 & -> & _ & Hrec). simpl.
      intros [= <-]. exists labelDiags. split; [done|].
      apply HasErrors_nonempty in Herr.
      split; [|done]. apply trail_recovering; [done|apply Hparse|by right].
    + intros Hloop. apply IH in Hloop.
      assert (labelDiags = []) as -> by (apply HasErrors_clean; [apply Hparse|done]).
      rewrite app_nil_r in Hloop.
      destruct exit as [b ds p'|oBrace ls rs ds p'].
      * destruct Hloop as (new & -> & Ht & Hne). exists new. split; [done|].
        split; [exact (trail_trans _ _ _ _ _ Hparse Ht)|].
        intros Hp. apply Hne. by eapply trail_clean.
      * destruct Hloop as (new & -> & Ht & Hprev). exists new. split; [done|].
        split; [exact (trail_trans _ _ _ _ _ Hparse Ht)|done].
  - apply Hret; [by repeat constructor|done].
  - apply Hret; [by repeat constructor|done].
Qed.

Lemma block_complete_unfold ty labels body typeRange labelRanges oBrace cBrace :
  block_complete (mkBlock ty labels body typeRange labelRanges oBrace cBrace) <->
  match body with
  | None => False
  | Some body' =>
      Body_SrcRange body' = RangeBetween oBrace cBrace /\
      Body_EndRange body' = endOf cBrace /\
      body_complete body'
  end.
Proof.
  simpl. destruct body as [[attrs blocks r1 r2]|]; [|done].
  unfold body_complete. simpl.
  assert ((fix all (bs : list Block) : Prop :=
             match bs with
             | [] => True
             | b' :: bs' => block_complete b' /\ all bs'
             end) blocks <-> Forall block_complete blocks) as ->; [|done].
  induction blocks as [|b bs IH]; [by split|].
  rewrite Forall_cons, IH. done.
Qed.

Section Reports.

Variable ParseBody_rec : TokenType -> parser -> result (Body * Diagnostics * parser).
Hypothesis ParseBody_rec_reports :
  forall end_ q, reports (body_parsed end_ q) q (ParseBody_rec end_ q).

Lemma finishParsingBodyBlock_open_reports ident p :
  reports item_complete p (finishParsingBodyBlock_open ParseBody_rec ident p).
Proof.
  intros item diags p'. unfold finishParsingBodyBlock_open.
  destruct (blockHeader_loop _ _ _ _ _ _) as [exit| | |] eqn:Hheader; try done.
  apply blockHeader_loop_trail in Hheader. simpl.
  destruct exit as [b ds q|oBrace labels labelRanges ds q].
  - destruct Hheader as (new & -> & Ht & Hne). intros [= <- <- <-]. simpl.
    split; [done|]. intros Hp ->. by destruct (Hne Hp).
  - destruct Hheader as (new & -> & Ht & Hprev). simpl.
    destruct (ParseBody_rec TokenCBrace q) as [[[body bodyDiags] q2]| | |] eqn:Hbody;
      try done.
    apply ParseBody_rec_reports in Hbody as [Hb Hc].
    simpl. intros [= <- <- <-]. split; [by eapply trail_trans|].
    intros Hp Hnil. apply app_eq_nil in Hnil as [-> ->].
    cbn [item_complete]. rewrite block_complete_unfold.
    destruct Hc as [Hall Hspan]; [by eapply trail_clean|done|].
    destruct Hspan as [Hsrc Hend]; [done|]. by rewrite Hsrc, Hend, Hprev.
Qed.

Lemma ParseBodyItem_open_reports p :
  reports item_complete p (ParseBodyItem_open ParseBody_rec p).
Proof.
  unfold ParseBodyItem_open.
  pose proof (Read_recovery p) as HR.
  destruct (Read p) as [ident p1]. simpl in HR.
  assert (Hrecover : forall detail,
    reports item_complete p
      (p2 ← recoverAfterBodyItem p1;
       Ok (NodeNil, [definitionRequiredDiag detail ident], p2))).
  { intros detail item diags p'.
    destruct (recoverAfterBodyItem_total p1) as (p2 & -> & _ & Hrec). simpl.
    intros [= <- <- <-]. split; [|done].
    apply trail_recovering; [done|by repeat constructor|by right]. }
  assert (Hblock : reports item_complete p
    (finishParsingBodyBlock_open ParseBody_rec ident p1)).
  { intros item diags p' Hparse.
    apply finishParsingBodyBlock_open_reports in Hparse. unfold trail in *.
    by rewrite <- HR. }
  case_bool_decide; cbn [negb]; [|by apply Hrecover].
  destruct (Token_Type (Peek p1)); try (by apply Hrecover); try exact Hblock.
  done.
Qed.

End Reports.

Section LoopReports.

Variable parseItem : parser -> result (Node * Diagnostics * parser).
Hypothesis parseItem_reports : forall p, reports item_complete p (parseItem p).

Lemma ParseBody_loop_reports fuel end_ :
  forall attrs blocks diags p attrs' blocks' diags' r p',
    ParseBody_loop parseItem fuel end_ attrs blocks diags p
      = Ok (attrs', blocks', diags', r, p') ->
    exists new,
      diags' = diags ++ new /\ trail p new p' /\
      (parser_recovery p = false -> new = [] ->
       (Forall block_complete blocks -> Forall block_complete blocks') /\
       (end_ <> TokenEOF -> r = PrevRange p')).
Proof.
  induction fuel as [|fuel IH]; intros attrs blocks diags p attrs' blocks' diags' r p';
    [done|].
  cbn [ParseBody_loop].
  pose proof (Read_recovery p) as HR.
  case_bool_decide as Hend.
  { pose proof (PrevRange_Read p) as Hprev.
    destruct (Read p) as [tok p1]. simpl in HR, Hprev. intros [= <- <- <- <- <-].
    exists []. rewrite app_nil_r. split; [done|]. split; [by apply trail_same|].
    intros _ _. split; [done|]. intros Hne. symmetry. apply Hprev. by rewrite Hend. }
  assert (Hbad :
    (let '(bad, p1) := Read p in
     p2 ← recover end_ p1;
     Ok (attrs, blocks,
         if negb (parser_recovery p1) then
           if bool_decide (Token_Type bad = TokenOQuote)
           then diags ++ [quotedNameDiag bad]
           else diags ++ [definitionRequiredDiag definitionRequiredDetail bad]
         else diags, PrevRange p1, p2)) = Ok (attrs', blocks', diags', r, p') ->
    exists new,
      diags' = diags ++ new /\ trail p new p' /\
      (parser_recovery p = false -> new = [] ->
       (Forall block_complete blocks -> Forall block_complete blocks') /\
       (end_ <> TokenEOF -> r = PrevRange p'))).
  { destruct (Read p) as [bad p1]. simpl in HR. rewrite HR.
    destruct (recover_total end_ p1) as (p2 & -> & _ & Hrec). simpl.
    destruct (parser_recovery p) eqn:Hp; cbn [negb].
    - intros [= <- <- <- <- <-]. exists []. rewrite app_nil_r. split; [done|].
      split; [|done]. apply trail_recovering; [done|constructor|by left].
    - case_bool_decide; intros [= <- <- <- <- <-]; eexists; (split; [done|]);
        (split; [|done]); apply trail_recovering;
        solve [done|by repeat constructor|by right]. }
  destruct (Token_Type (Peek p)) eqn:Hpeek; try exact Hbad.
  - destruct (parseItem p) as [[[item itemDiags] p1]| | |] eqn:Hitem; try done.
    apply parseItem_reports in Hitem as [Ht Hc]. simpl.
    assert (Hnext : forall attrs0 blocks0 ds,
      Forall isError ds ->
      (parser_recovery p = false -> itemDiags = [] -> ds = [] ->
       Forall block_complete blocks -> Forall block_complete blocks0) ->
      ParseBody_loop parseItem fuel end_ attrs0 blocks0 ((diags ++ itemDiags) ++ ds) p1
        = Ok (attrs', blocks', diags', r, p') ->
      exists new,
        diags' = diags ++ new /\ trail p new p' /\
        (parser_recovery p = false -> new = [] ->
         (Forall block_complete blocks -> Forall block_complete blocks') /\
         (end_ <> TokenEOF -> r = PrevRange p'))).
    { intros attrs0 blocks0 ds He Hb Hloop.
      apply IH in Hloop as (new & -> & Ht' & Hc').
      exists (itemDiags ++ ds ++ new). split; [by rewrite !app_assoc|].
      split.
      - eapply trail_trans; [exact Ht|].
        eapply (trail_trans p1 ds p1); [by apply trail_same|exact Ht'].
      - intros Hp Hnil.
        apply app_eq_nil in Hnil as [-> Hnil]. apply app_eq_nil in Hnil as [-> ->].
        destruct Hc' as [Hall' Hr]; [by eapply trail_clean|done|].
        split; [|done]. intros Hall. by apply Hall', Hb. }
    destruct item as [|b|a|e].
    + intros H. apply (Hnext attrs blocks []); [constructor|done|].
      by rewrite app_nil_r.
    + intros H. apply (Hnext attrs (blocks ++ [b]) []); [constructor| |].
      * intros Hp Hnil _ Hall. apply Forall_app. split; [done|].
        apply Forall_singleton. by apply Hc.
      * by rewrite app_nil_r.
    + destruct (attrs !! Attribute_Name a).
      * apply Hnext; [by repeat constructor|done].
      * intros H. apply (Hnext (<[Attribute_Name a := a]> attrs) blocks []);
          [constructor|done|]. by rewrite app_nil_r.
    + intros H. apply (Hnext attrs blocks []); [constructor|done|].
      by rewrite app_nil_r.
  - destruct (Read p) as [nl p1]. simpl in HR. intros Hloop.
    apply IH in Hloop as (new & -> & Ht & Hc). exists new. split; [done|].
    unfold trail in *. rewrite <- HR. split; [done|]. intros Hp. apply Hc. congruence.
Qed.

End LoopReports.

Lemma ParseBody_reports depth :
  forall end_ p, reports (body_parsed end_ p) p (ParseBody depth end_ p).
Proof.
  induction depth as [|depth IH]; intros end_ p body diags p'; [done|].
  cbn [ParseBody].
  destruct (ParseBody_loop _ _ _ _ _ _ _)
    as [[[[[attrs blocks] diags0] endRange] p1]| | |] eqn:Hloop; try done.
  simpl. intros [= <- <- <-].
  eapply ParseBody_loop_reports in Hloop as (new & -> & Ht & Hc).
  - simpl. split; [done|]. intros Hp Hnil.
    destruct (Hc Hp Hnil) as [Hall Hr]. split; [by apply Hall|].
    intros Hne. simpl. by rewrite (Hr Hne).
  - intros q. by apply ParseBodyItem_open_reports.
Qed.

(** X11.  Every diagnostic of ParseBody and of ParseBodyItem has severity
    error: a parse reported an error exactly when it reported anything. *)
Theorem parse_diagnostics_are_errors (depth : nat) :
  (forall end_ p body diags p',
     ParseBody depth end_ p = Ok (body, diags, p') ->
     Forall isError diags /\ HasErrors diags = bool_decide (diags <> [])) /\
  (forall p item diags p',
     ParseBodyItem depth p = Ok (item, diags, p') ->
     Forall isError diags /\ HasErrors diags = bool_decide (diags <> [])).
Proof.
  assert (Hhas : forall diags, Forall isError diags ->
            Forall isError diags /\ HasErrors diags = bool_decide (diags <> [])).
  { intros diags He. split; [done|]. destruct diags as [|d diags]; [done|].
    apply Forall_cons in He as [Hd _]. unfold HasErrors. simpl.
    by rewrite (bool_decide_eq_true_2 _ Hd). }
  split.
  - intros end_ p body diags p' Hparse. apply ParseBody_reports in Hparse as [Ht _].
    apply Hhas, Ht.
  - intros p item diags p' Hparse.
    apply (ParseBodyItem_open_reports _ (ParseBody_reports depth)) in Hparse as [Ht _].
    apply Hhas, Ht.
Qed.

(** X12.  ParseBody never leaves recovery mode, and it enters recovery mode
    only when it reports a diagnostic. *)
Theorem recovery_mode_is_kept_and_entered_with_a_report
  (depth : nat) (end_ : TokenType) (p : parser)
  (body : Body) (diags : Diagnostics) (p' : parser) :
  ParseBody depth end_ p = Ok (body, diags, p') ->
  (parser_recovery p = true -> parser_recovery p' = true) /\
  (parser_recovery p = false -> parser_recovery p' = true -> diags <> []).
Proof.
  intros Hparse. apply ParseBody_reports in Hparse as [(_ & Hk & Hn) _].
  split; [done|]. intros Hp Hp'. destruct (Hn Hp') as [?|?]; [congruence|done].
Qed.

(** X13.  A parse that starts outside recovery mode and reports no
    diagnostic returns a complete tree: at every depth each block has its
    body, and the source range of that body runs from the opening brace of
    the block to its closing brace; the parse ends outside recovery mode; and
    a body ended by a closing token spans from the token before it to that
    closing token. *)
Theorem parse_without_diagnostics_is_complete
  (depth : nat) (end_ : TokenType) (p : parser) (body : Body) (p' : parser) :
  parser_recovery p = false ->
  ParseBody depth end_ p = Ok (body, [], p') ->
  body_complete body /\
  parser_recovery p' = false /\
  (end_ <> TokenEOF ->
   Body_SrcRange body = RangeBetween (PrevRange p) (PrevRange p') /\
   Body_EndRange body = endOf (PrevRange p')).
Proof.
  intros Hp Hparse. apply ParseBody_reports in Hparse as [Ht Hc].
  destruct (Hc Hp eq_refl) as [Hall Hspan].
  split; [done|]. split; [by eapply trail_clean|done].
Qed.

(** ** Quoted labels *)

Lemma EOFRange_Read p :
  peeker_EOFRange (parser_peeker (Read p).2) = peeker_EOFRange (parser_peeker p).
Proof.
  destruct (Unread p) as [|tok rest] eqn:Hu.
  - by rewrite (Read_nil p Hu).
  - by rewrite (Read_cons p tok rest Hu).
Qed.

Lemma EOFRange_readN n p :
  peeker_EOFRange (parser_peeker (readN n p)) = peeker_EOFRange (parser_peeker p).
Proof.
  revert p. induction n as [|n IH]; intros p; [done|].
  cbn [readN]. by rewrite IH, EOFRange_Read.
Qed.

Lemma decodeStringLit_quoted tok :
  isQuotedLit tok -> decodeStringLit tok = Ok (decodedText tok, decodedDiags tok).
Proof.
  intros Hty. unfold decodedText, decodedDiags.
  destruct (decodeStringLit_ok tok) as ([s ds] & ->); [|done].
  unfold decodeMode. by rewrite Hty.
Qed.

Lemma parseQuotedStringLiteral_loop_quoted lits :
  Forall isQuotedLit lits ->
  forall fuel oQuote ret diags p rest,
    Unread p = lits ++ rest ->
    parseQuotedStringLiteral_loop (length lits + fuel) oQuote ret diags p
      = parseQuotedStringLiteral_loop fuel oQuote (ret +:+ labelText lits)
          (diags ++ labelDiags lits) (readN (length lits) p).
Proof.
  induction 1 as [|tok lits Htok Hlits IH]; intros fuel oQuote ret diags p rest Hu.
  - unfold labelText, labelDiags. simpl. by rewrite str_app_nil_r, app_nil_r.
  - simpl in Hu. cbn [length Nat.add parseQuotedStringLiteral_loop].
    rewrite (Read_readN p tok _ Hu). cbv beta iota.
    rewrite Htok, (decodeStringLit_quoted tok Htok). bind_ok.
    rewrite (IH fuel oQuote _ _ (readN 1 p) rest)
      by (by eapply Unread_readN with (pre := [tok])).
    rewrite readN_add. unfold labelText, labelDiags. simpl.
    by rewrite str_app_assoc, app_assoc.
Qed.

Lemma parseQuotedStringLiteral_literals
  (oQuote : Token) (lits : list Token) (cQuote : Token) (rest : list Token) (p : parser) :
  Token_Type oQuote = TokenOQuote ->
  Forall isQuotedLit lits ->
  Token_Type cQuote = TokenCQuote ->
  Unread p = oQuote :: lits ++ cQuote :: rest ->
  parseQuotedStringLiteral p =
    Ok (labelText lits, RangeBetween (Token_Range oQuote) (Token_Range cQuote),
        labelDiags lits, readN (S (S (length lits))) p) /\
  Unread (readN (S (S (length lits))) p) = rest /\
  parser_recovery (readN (S (S (length lits))) p) = parser_recovery p.
Proof.
  intros Hoq Hlits Hcq Hu. split; [|split; [|apply recovery_readN]].
  2: { eapply Unread_readN with (pre := oQuote :: lits ++ [cQuote]).
       - rewrite Hu. simpl. by rewrite <- app_assoc.
       - rewrite length_cons, length_app. simpl. lia. }
  unfold parseQuotedStringLiteral. rewrite (Read_readN p oQuote _ Hu). cbv beta iota.
  rewrite bool_decide_eq_true_2 by done. cbn [negb].
  assert (Hu1 : Unread (readN 1 p) = lits ++ cQuote :: rest)
    by (by eapply Unread_readN with (pre := [oQuote])).
  unfold loop_fuel. rewrite Hu1, length_app. cbn [length].
  replace (S (length lits + S (length rest)))
    with (length lits + S (S (length rest)))%nat by lia.
  rewrite (parseQuotedStringLiteral_loop_quoted lits Hlits _ _ _ _ _ _ Hu1).
  rewrite readN_add. cbn [parseQuotedStringLiteral_loop].
  assert (Hu2 : Unread (readN (1 + length lits) p) = cQuote :: rest).
  { eapply Unread_readN with (pre := oQuote :: lits); [by rewrite Hu|simpl; lia]. }
  rewrite (Read_readN _ cQuote _ Hu2). cbv beta iota. rewrite Hcq. bind_ok.
  rewrite readN_add. do 3 f_equal. f_equal. lia.
Qed.

(** X14.  A quoted label whose items are all literal text is the
    concatenation of the decoded literals, and its diagnostics are those of
    decoding them, in order; its range runs from the opening to the closing
    quote; exactly the tokens of the label are read, and the recovery flag is
    left alone. *)
Theorem label_is_concatenation_of_decoded_literals
  (oQuote : Token) (lits : list Token) (cQuote : Token) (rest : list Token) (p : parser) :
  Token_Type oQuote = TokenOQuote ->
  Forall isQuotedLit lits ->
  Token_Type cQuote = TokenCQuote ->
  Unread p = oQuote :: lits ++ cQuote :: rest ->
  parseQuotedStringLiteral p =
    Ok (labelText lits, RangeBetween (Token_Range oQuote) (Token_Range cQuote),
        labelDiags lits, readN (S (S (length lits))) p) /\
  Unread (readN (S (S (length lits))) p) = rest /\
  parser_recovery (readN (S (S (length lits))) p) = parser_recovery p.
Proof. apply parseQuotedStringLiteral_literals. Qed.

(** X15.  A quoted label that the end of the input cuts short is reported
    once, at the end-of-file token, after the diagnostics of its literals;
    the text read so far is returned, and the range of the label ends at the
    zero range, because no closing quote was seen. *)
Theorem unterminated_label_ends_at_zero_range
  (oQuote : Token) (lits : list Token) (p : parser) :
  Token_Type oQuote = TokenOQuote ->
  Forall isQuotedLit lits ->
  Unread p = oQuote :: lits ->
  parseQuotedStringLiteral p =
    Ok (labelText lits, RangeBetween (Token_Range oQuote) zeroRange,
        labelDiags lits ++ [unterminatedStringDiag oQuote (eofToken (parser_peeker p))],
        readN (S (length lits)) p) /\
  Diagnostic_Subject (unterminatedStringDiag oQuote (eofToken (parser_peeker p)))
    = Some (peeker_EOFRange (parser_peeker p)).
Proof.
  intros Hoq Hlits Hu. split; [|done].
  unfold parseQuotedStringLiteral. rewrite (Read_readN p oQuote _ Hu). cbv beta iota.
  rewrite bool_decide_eq_true_2 by done. cbn [negb].
  assert (Hu1 : Unread (readN 1 p) = lits ++ [])
    by (rewrite app_nil_r; by eapply Unread_readN with (pre := [oQuote])).
  unfold loop_fuel. rewrite Hu1, length_app. cbn [length].
  replace (S (length lits + 0)) with (length lits + 1)%nat by lia.
  rewrite (parseQuotedStringLiteral_loop_quoted lits Hlits _ _ _ _ _ _ Hu1).
  rewrite readN_add. cbn [parseQuotedStringLiteral_loop].
  assert (Hu2 : Unread (readN (1 + length lits) p) = []).
  { eapply Unread_readN with (pre := oQuote :: lits); [by rewrite Hu, app_nil_r|done]. }
  rewrite (Read_nil _ Hu2). cbv beta iota. cbn [eofToken Token_Type]. bind_ok.
  unfold eofToken. by rewrite EOFRange_readN.
Qed.

(** X16.  An item that is not valid inside a quoted label makes
    parseQuotedStringLiteral call recover with the opening-quote type: the
    scan counts closing quotes as openers, so it passes the closing quote of
    the label itself and stops only after a later opening quote that is not
    matched by such a closing quote.  The label is reported once and its
    range ends at the zero range. *)
Theorem invalid_item_in_label_recovers_to_opening_quote
  (oQuote : Token) (lits : list Token) (bad : Token) (k : nat) (inner : list Token)
  (oQuote2 : Token) (rest : list Token) (p : parser) :
  Token_Type oQuote = TokenOQuote ->
  Forall isQuotedLit lits ->
  Token_Type bad <> TokenCQuote -> Token_Type bad <> TokenQuotedLit ->
  Token_Type bad <> TokenTemplateControl -> Token_Type bad <> TokenTemplateInterp ->
  Token_Type bad <> TokenEOF ->
  pairsBalanced TokenOQuote k inner ->
  Z.of_nat k <= int_max ->
  Token_Type oQuote2 = TokenOQuote ->
  Unread p = oQuote :: lits ++ bad :: inner ++ oQuote2 :: rest ->
  exists p',
    parseQuotedStringLiteral p =
      Ok (labelText lits, RangeBetween (Token_Range oQuote) zeroRange,
          labelDiags lits ++ [invalidStringItemDiag oQuote bad], p') /\
    Unread p' = rest /\ parser_recovery p' = true.
Proof.
  intros Hoq Hlits Hb1 Hb2 Hb3 Hb4 Hb5 Hbal Hk Hoq2 Hu.
  unfold parseQuotedStringLiteral. rewrite (Read_readN p oQuote _ Hu). cbv beta iota.
  rewrite bool_decide_eq_true_2 by done. cbn [negb].
  assert (Hu1 : Unread (readN 1 p) = lits ++ bad :: inner ++ oQuote2 :: rest)
    by (by eapply Unread_readN with (pre := [oQuote])).
  unfold loop_fuel. rewrite Hu1, length_app. cbn [length].
  replace (S (length lits + S (length (inner ++ oQuote2 :: rest))))
    with (length lits + S (S (length (inner ++ oQuote2 :: rest))))%nat by lia.
  rewrite (parseQuotedStringLiteral_loop_quoted lits Hlits _ _ _ _ _ _ Hu1).
  rewrite readN_add. cbn [parseQuotedStringLiteral_loop].
  assert (Hu2 : Unread (readN (1 + length lits) p) = bad :: inner ++ oQuote2 :: rest).
  { eapply Unread_readN with (pre := oQuote :: lits); [by rewrite Hu|simpl; lia]. }
  rewrite (Read_readN _ bad _ Hu2). cbv beta iota. rewrite readN_add.
  assert (Hu3 : Unread (readN (1 + length lits + 1) p) = inner ++ oQuote2 :: rest).
  { eapply Unread_readN with (pre := oQuote :: lits ++ [bad]).
    - rewrite Hu. simpl. by rewrite <- app_assoc.
    - rewrite length_cons, length_app. simpl. lia. }
  assert (Hrec : recover TokenOQuote (readN (1 + length lits + 1) p)
                 = Ok (set_recovery (readN (S (length inner)) (readN (1 + length lits + 1) p)))).
  { eapply recover_pairs; [done|exact Hbal|exact Hk| |exact Hu3].
    unfold recoverType. by rewrite bool_decide_eq_false_2. }
  assert (Hdefault :
    (p2 ← recover TokenOQuote (readN (1 + length lits + 1) p);
     Ok ("" +:+ labelText lits, zeroToken,
         ([] ++ labelDiags lits) ++ [invalidStringItemDiag oQuote bad], p2)) ≫=
    (λ '(ret, cQuote, diags, p2),
       Ok (ret, RangeBetween (Token_Range oQuote) (Token_Range cQuote), diags, p2))
    = Ok (labelText lits, RangeBetween (Token_Range oQuote) zeroRange,
          labelDiags lits ++ [invalidStringItemDiag oQuote bad],
          set_recovery (readN (S (length inner)) (readN (1 + length lits + 1) p)))).
  { by rewrite Hrec. }
  eexists. split.
  - destruct (Token_Type bad); try done; exact Hdefault.
  - split; [|done]. rewrite Unread_set_recovery.
    eapply Unread_readN with (pre := inner ++ [oQuote2]).
    + by rewrite Hu3, <- app_assoc.
    + rewrite length_app. simpl. lia.
Qed.

(** ** Walking the child nodes *)

Lemma walkArgs_Ok w args args' :
  walkArgs w args = Ok args' <->
  Forall2 (fun arg arg' => w (NodeExpression arg) = NodeExpression arg') args args'.
Proof.
  revert args'. induction args as [|arg args IH]; intros args'; simpl.
  - split; [by intros [= <-]; constructor|by inversion 1].
  - split.
    + destruct (w (NodeExpression arg)) as [|b|a|e] eqn:Hw; try done. simpl.
      destruct (walkArgs w args) as [rest'| | |]; try done. simpl.
      intros [= <-]. constructor; [done|]. by apply IH.
    + inversion 1 as [|? arg' ? rest' Hw Hrest]; subst. rewrite Hw. simpl.
      apply IH in Hrest. by rewrite Hrest.
Qed.

(** X17.  Walking the child nodes of a function call replaces every argument
    by what the walk function returns for it, in order, and changes nothing
    else; it returns exactly when the walk function returns an expression for
    every argument. *)
Theorem walkChildNodes_maps_arguments
  (w : internalWalkFunc) (name : string) (args : list Expression)
  (nameRange openParen closeParen : Range) (e' : Expression) :
  Expression_walkChildNodes w (FunctionCallExpr name args nameRange openParen closeParen)
    = Ok e' <->
  exists args',
    e' = FunctionCallExpr name args' nameRange openParen closeParen /\
    Forall2 (fun arg arg' => w (NodeExpression arg) = NodeExpression arg') args args'.
Proof.
  simpl. split.
  - destruct (walkArgs w args) as [args'| | |] eqn:Hwalk; try done. simpl.
    intros [= <-]. exists args'. split; [done|]. by apply walkArgs_Ok.
  - intros (args' & -> & Hall). apply walkArgs_Ok in Hall. by rewrite Hall.
Qed.

(** X18.  A walk of the child nodes does not move an expression: the range
    and the start range after the walk are those before it, and a function
    call keeps its number of arguments. *)
Theorem walkChildNodes_keeps_ranges
  (w : internalWalkFunc) (e e' : Expression) :
  Expression_walkChildNodes w e = Ok e' ->
  Expression_Range e' = Expression_Range e /\
  Expression_StartRange e' = Expression_StartRange e /\
  match e, e' with
  | FunctionCallExpr _ args _ _ _, FunctionCallExpr _ args' _ _ _ =>
      length args' = length args
  | FunctionCallExpr _ _ _ _ _, _ => False
  | _, _ => e' = e
  end.
Proof.
  destruct e as [v r|t r|name args r1 r2 r3]; simpl.
  - by intros [= <-].
  - by intros [= <-].
  - destruct (walkArgs w args) as [args'| | |] eqn:Hwalk; try done. simpl.
    intros [= <-]. apply walkArgs_Ok, Forall2_length in Hwalk. done.
Qed.

(** ** Where a panic comes from *)

Lemma hasAttributeStart_suffix toks toks' :
  toks' `suffix_of` toks -> hasAttributeStart toks' -> hasAttributeStart toks.
Proof.
  intros [k ->] (pre & ident & equals & rest & -> & Hi & He).
  exists (k ++ pre), ident, equals, rest. by rewrite <- app_assoc.
Qed.

Section PanicOrigin.

Variable ParseBody_rec : TokenType -> parser -> result (Body * Diagnostics * parser).
Variable bound : nat.
Hypothesis ParseBody_rec_panic : forall end_ q msg,
  (length (Unread q) < bound)%nat ->
  ParseBody_rec end_ q = Panic msg -> hasAttributeStart (Unread q).

Lemma finishParsingBodyBlock_open_panic ident p msg :
  (length (Unread p) <= bound)%nat ->
  finishParsingBodyBlock_open ParseBody_rec ident p = Panic msg ->
  hasAttributeStart (Unread p).
Proof.
  intros Hbound. unfold finishParsingBodyBlock_open.
  destruct (blockHeader_loop_total (loop_fuel p) ident [] [] [] p)
    as (exit & -> & Hexit); [unfold loop_fuel; lia|].
  bind_ok. destruct exit as [b ds q|oBrace labels labelRanges ds q]; [done|].
  destruct Hexit as [Hsuf Hlt].
  destruct (ParseBody_rec TokenCBrace q) as [[[body bodyDiags] q2]|msg'| |] eqn:Hbody;
    try done.
  simpl. intros _. eapply hasAttributeStart_suffix; [exact Hsuf|].
  eapply ParseBody_rec_panic; [|exact Hbody]. lia.
Qed.

Lemma ParseBodyItem_open_panic p msg :
  Token_Type (Peek p) = TokenIdent ->
  (length (Unread p) <= bound)%nat ->
  ParseBodyItem_open ParseBody_rec p = Panic msg ->
  hasAttributeStart (Unread p).
Proof.
  intros Hpeek Hbound.
  destruct (Peek_nonempty p _ Hpeek) as (ident & rest & Hu & Hident); [done|].
  unfold ParseBodyItem_open. rewrite (Read_readN p ident rest Hu). cbv beta iota.
  rewrite <- Hident, Hpeek, bool_decide_eq_true_2 by done. cbn [negb].
  assert (Hu1 : Unread (readN 1 p) = rest)
    by (by eapply Unread_readN with (pre := [ident])).
  assert (Hrecover : forall detail,
    (p2 ← recoverAfterBodyItem (readN 1 p);
     Ok (NodeNil, [definitionRequiredDiag detail (Peek p)], p2)) = Panic msg ->
    hasAttributeStart (Unread p)).
  { intros detail. by destruct (recoverAfterBodyItem_total (readN 1 p)) as (p2 & -> & _). }
  assert (Hblock :
    finishParsingBodyBlock_open ParseBody_rec (Peek p) (readN 1 p) = Panic msg ->
    hasAttributeStart (Unread p)).
  { intros H. apply finishParsingBodyBlock_open_panic in H.
    - rewrite Hu1 in H. rewrite Hu.
      eapply hasAttributeStart_suffix; [|exact H]. by apply suffix_cons_r.
    - rewrite Hu1. rewrite Hu in Hbound. simpl in Hbound. lia. }
  destruct (Token_Type (Peek (readN 1 p))) eqn:Hnext;
    try (by apply Hrecover); try exact Hblock.
  intros _. destruct (Peek_nonempty (readN 1 p) _ Hnext) as (equals & rest' & Hu2 & Heq);
    [done|].
  exists [], ident, equals, rest'. rewrite Hu. simpl. rewrite <- Hu1, Hu2.
  split; [done|]. split; [congruence|]. by rewrite <- Heq.
Qed.

End PanicOrigin.

Section LoopPanic.

Variable parseItem : parser -> result (Node * Diagnostics * parser).
Variable bound : nat.
Hypothesis parseItem_progress : forall p,
  Token_Type (Peek p) = TokenIdent ->
  (length (Unread p) <= bound)%nat ->
  returnsOrAttributePanic (readN 1 p) (parseItem p).
Hypothesis parseItem_panic : forall p msg,
  Token_Type (Peek p) = TokenIdent ->
  (length (Unread p) <= bound)%nat ->
  parseItem p = Panic msg -> hasAttributeStart (Unread p).

Lemma ParseBody_loop_panic fuel end_ :
  forall attrs blocks diags p msg,
    (length (Unread p) <= bound)%nat ->
    ParseBody_loop parseItem fuel end_ attrs blocks diags p = Panic msg ->
    hasAttributeStart (Unread p).
Proof.
  induction fuel as [|fuel IH]; intros attrs blocks diags p msg Hbound; [done|].
  cbn [ParseBody_loop]. case_bool_decide as Hend.
  { by destruct (Read p). }
  assert (Hbad :
    (let '(bad, p1) := Read p in
     p2 ← recover end_ p1;
     Ok (attrs, blocks,
         if negb (parser_recovery p1) then
           if bool_decide (Token_Type bad = TokenOQuote)
           then diags ++ [quotedNameDiag bad]
           else diags ++ [definitionRequiredDiag definitionRequiredDetail bad]
         else diags, PrevRange p1, p2)) = Panic msg ->
    hasAttributeStart (Unread p)).
  { destruct (Read p) as [bad p1]. by destruct (recover_total end_ p1) as (p2 & -> & _). }
  destruct (Token_Type (Peek p)) eqn:Hpeek; try exact Hbad.
  - destruct (Peek_nonempty p _ Hpeek) as (ident & rest & Hu & _); [done|].
    assert (Hu1 : Unread (readN 1 p) = rest)
      by (by eapply Unread_readN with (pre := [ident])).
    pose proof (parseItem_progress p Hpeek Hbound) as Hitem.
    destruct (parseItem p) as [[[item itemDiags] p1]|msg'| |] eqn:Hparse; try done.
    + bind_ok. unfold returnsOrAttributePanic in Hitem. rewrite Hu1 in Hitem.
      assert (Hs1 : Unread p1 `suffix_of` Unread p)
        by (rewrite Hu; by apply suffix_cons_r).
      assert (Hle : (length (Unread p1) <= bound)%nat).
      { apply suffix_length in Hs1. lia. }
      intros Hloop. eapply hasAttributeStart_suffix; [exact Hs1|].
      destruct item as [|b|a|e]; [| |destruct (attrs !! Attribute_Name a)|];
        eapply IH; eauto.
    + simpl. intros _. by eapply parseItem_panic.
  - destruct (Peek_nonempty p _ Hpeek) as (nl & rest & Hu & _); [done|].
    rewrite (Read_readN p nl rest Hu).
    assert (Hu1 : Unread (readN 1 p) = rest)
      by (by eapply Unread_readN with (pre := [nl])).
    intros Hloop. apply IH in Hloop.
    + eapply hasAttributeStart_suffix; [|exact Hloop].
      rewrite Hu1, Hu. by apply suffix_cons_r.
    + rewrite Hu1. rewrite Hu in Hbound. simpl in Hbound. lia.
Qed.

End LoopPanic.

Lemma ParseBody_panic depth :
  forall end_ p msg,
    (length (Unread p) < depth)%nat ->
    ParseBody depth end_ p = Panic msg -> hasAttributeStart (Unread p).
Proof.
  induction depth as [|depth IH]; intros end_ p msg Hdepth; [lia|].
  cbn [ParseBody].
  destruct (ParseBody_loop _ _ _ _ _ _ _) as [[[[[? ?] ?] ?] ?]|msg'| |] eqn:Hloop;
    try done.
  simpl. intros _.
  eapply (ParseBody_loop_panic (ParseBodyItem_open (ParseBody depth)) depth);
    [| | |exact Hloop].
  - intros q Hq Hb. apply ParseBodyItem_open_ok with (bound := depth); [|done|done].
    intros e q' Hq'. by apply ParseBody_total.
  - intros q m Hq Hb. by apply ParseBodyItem_open_panic with (bound := depth).
  - lia.
Qed.

(** X19.  ParseBody comes to an end on every token stream, given a call
    stack deeper than the number of unread tokens: no loop runs on for ever.
    It returns, having only consumed tokens, whenever no identifier of the
    stream is directly followed by an equals sign; and when it panics, the
    panic is that of the missing attribute parser and such an identifier
    exists. *)
Theorem ParseBody_returns_unless_attribute
  (depth : nat) (end_ : TokenType) (p : parser) :
  (length (Unread p) < depth)%nat ->
  (~ hasAttributeStart (Unread p) ->
   exists body diags p',
     ParseBody depth end_ p = Ok (body, diags, p') /\
     Unread p' `suffix_of` Unread p) /\
  (forall msg, ParseBody depth end_ p = Panic msg ->
     msg = attributePanicMessage /\ hasAttributeStart (Unread p)) /\
  ParseBody depth end_ p <> OutOfFuel /\
  ParseBody depth end_ p <> StackOverflow.
Proof.
  intros Hdepth.
  pose proof (ParseBody_total depth end_ p Hdepth) as Htotal.
  pose proof (ParseBody_panic depth end_ p) as Hpanic.
  destruct (ParseBody depth end_ p) as [[[body diags] p']|msg| |]; simpl in Htotal;
    try done.
  - split; [|done]. intros _. by exists body, diags, p'.
  - split; [|split; [|done]].
    + intros Hno. destruct Hno. by eapply Hpanic.
    + intros m [= <-]. split; [done|]. by eapply Hpanic.
Qed.

(** ** Items in error *)

Lemma ParseBodyItem_open_skips ParseBody_rec ident line nl rest p :
  Token_Type ident = TokenIdent ->
  Token_Type (hd nl line) <> TokenEqual ->
  Token_Type (hd nl line) <> TokenOQuote ->
  Token_Type (hd nl line) <> TokenOBrace ->
  lineBalanced line ->
  Token_Type nl = TokenNewline ->
  Unread p = ident :: line ++ nl :: rest ->
  ParseBodyItem_open ParseBody_rec p =
    Ok (NodeNil, [definitionRequiredDiag useEqualsDetail ident],
        set_recovery (readN (S (S (length line))) p)).
Proof.
  intros Hident Hn1 Hn2 Hn3 Hline Hnl Hu.
  unfold ParseBodyItem_open. rewrite (Read_readN p ident _ Hu). cbv beta iota.
  rewrite bool_decide_eq_true_2 by done. cbn [negb].
  assert (Hu1 : Unread (readN 1 p) = line ++ nl :: rest)
    by (by eapply Unread_readN with (pre := [ident])).
  assert (Hpeek : Peek (readN 1 p) = hd nl line).
  { destruct line as [|tok line]; by rewrite (Peek_cons _ _ _ Hu1). }
  rewrite Hpeek.
  rewrite (recoverAfterBodyItem_line line nl rest (readN 1 p) Hline Hnl Hu1).
  rewrite readN_add. bind_ok.
  destruct (Token_Type (hd nl line)); done.
Qed.

(** X20.  An identifier followed neither by an equals sign nor by a label
    or an opening brace is no body item: ParseBodyItem returns no node and
    one diagnostic, whose subject is the identifier and which has no context,
    and leaves the parser in recovery mode just after the newline that ends
    the line. *)
Theorem item_without_value_or_block_is_skipped
  (depth : nat) (ident : Token) (line : list Token) (nl : Token) (rest : list Token)
  (p : parser) :
  Token_Type ident = TokenIdent ->
  Token_Type (hd nl line) <> TokenEqual ->
  Token_Type (hd nl line) <> TokenOQuote ->
  Token_Type (hd nl line) <> TokenOBrace ->
  lineBalanced line ->
  Token_Type nl = TokenNewline ->
  Unread p = ident :: line ++ nl :: rest ->
  exists d p',
    ParseBodyItem depth p = Ok (NodeNil, [d], p') /\
    Diagnostic_Summary d = "Attribute or block definition required" /\
    Diagnostic_Subject d = Some (Token_Range ident) /\
    Diagnostic_Context d = None /\
    Unread p' = rest /\ parser_recovery p' = true /\
    PrevRange p' = Token_Range nl.
Proof.
  intros Hident Hn1 Hn2 Hn3 Hline Hnl Hu. unfold ParseBodyItem.
  rewrite (ParseBodyItem_open_skips _ ident line nl rest p) by done.
  eexists _, _. split; [done|]. do 3 (split; [done|]).
  assert (Hu2 : Unread (readN (S (length line)) p) = nl :: rest).
  { eapply Unread_readN with (pre := ident :: line); [by rewrite Hu|done]. }
  replace (S (S (length line))) with (S (length line) + 1)%nat by lia.
  rewrite <- readN_add. set (q := readN (S (length line)) p) in *.
  change (readN 1 q) with (Read q).2. by rewrite (Read_cons q nl rest Hu2).
Qed.

Lemma Read_set_recovery p : (Read (set_recovery p)).2 = set_recovery (Read p).2.
Proof. exact (readN_set_recovery 1 p). Qed.

Lemma ParseBody_loop_end parseItem fuel end_ attrs blocks diags p :
  Token_Type (Peek p) = end_ ->
  ParseBody_loop parseItem (S fuel) end_ attrs blocks diags p
    = Ok (attrs, blocks, diags, NextRange p, (Read p).2).
Proof.
  intros Hpeek. cbn [ParseBody_loop]. rewrite bool_decide_eq_true_2 by done.
  by destruct (Read p).
Qed.

Lemma ParseBody_loop_no_item parseItem fuel end_ attrs blocks diags p itemDiags p1 :
  Token_Type (Peek p) = TokenIdent ->
  end_ <> TokenIdent ->
  parseItem p = Ok (NodeNil, itemDiags, p1) ->
  ParseBody_loop parseItem (S fuel) end_ attrs blocks diags p
    = ParseBody_loop parseItem fuel end_ attrs blocks (diags ++ itemDiags) p1.
Proof.
  intros Hpeek Hend Hitem. cbn [ParseBody_loop].
  by rewrite Hpeek, bool_decide_eq_false_2, Hitem by congruence.
Qed.

(** X21.  After an item in error the parse goes on with the next line: the
    blocks that follow are all returned, in order, and the line in error costs
    exactly one diagnostic. *)
Theorem parse_resumes_after_item_in_error
  (d depth : nat) (end_ : TokenType) (ident : Token) (line : list Token) (nl : Token)
  (toks idents rest : list Token) (p : parser) :
  Token_Type ident = TokenIdent ->
  Token_Type (hd nl line) <> TokenEqual ->
  Token_Type (hd nl line) <> TokenOQuote ->
  Token_Type (hd nl line) <> TokenOBrace ->
  lineBalanced line ->
  Token_Type nl = TokenNewline ->
  wf_items d toks idents ->
  (d < depth)%nat ->
  end_ <> TokenNewline -> end_ <> TokenIdent ->
  Unread p = ident :: line ++ nl :: toks ++ rest ->
  Token_Type (Peek (readN (S (S (length line)) + length toks) p)) = end_ ->
  exists body,
    ParseBody depth end_ p =
      Ok (body, [definitionRequiredDiag useEqualsDetail ident],
          set_recovery (Read (readN (S (S (length line)) + length toks) p)).2) /\
    Body_Attributes body = ∅ /\
    map Block_Type (Body_Blocks body) = map Token_Bytes idents /\
    map Block_TypeRange (Body_Blocks body) = map Token_Range idents.
Proof.
  intros Hident Hn1 Hn2 Hn3 Hline Hnl Hwf Hdepth Hend1 Hend2 Hu Hpeek.
  destruct depth as [|depth]; [lia|]. cbn [ParseBody].
  unfold loop_fuel. rewrite Hu. cbn [length].
  rewrite (ParseBody_loop_no_item _ _ _ _ _ _ p _ _
             ltac:(by rewrite (Peek_cons p ident _ Hu)) Hend2
             (ParseBodyItem_open_skips _ ident line nl (toks ++ rest) p
                Hident Hn1 Hn2 Hn3 Hline Hnl Hu)).
  cbn [app].
  set (p1 := set_recovery (readN (S (S (length line))) p)).
  assert (Hu1 : Unread p1 = toks ++ rest).
  { subst p1. rewrite Unread_set_recovery.
    eapply Unread_readN with (pre := ident :: line ++ [nl]).
    - rewrite Hu. simpl. by rewrite <- app_assoc.
    - rewrite length_cons, length_app. simpl. lia. }
  destruct (ParseBody_loop_items d toks idents Hwf depth
              (S (length (line ++ nl :: toks ++ rest))) end_ ∅ []
              [definitionRequiredDiag useEqualsDetail ident] p1 rest)
    as (fuel' & newblocks & -> & Hfuel' & Hty & Hrange); try done.
  { lia. }
  { rewrite !length_app. simpl. rewrite !length_app. lia. }
  destruct fuel' as [|fuel']; [lia|].
  assert (Hp1 : readN (length toks) p1
                = set_recovery (readN (S (S (length line)) + length toks) p)).
  { subst p1. by rewrite readN_set_recovery, readN_add. }
  rewrite ParseBody_loop_end by (by rewrite Hp1).
  bind_ok. rewrite Hp1, Read_set_recovery. eexists. by split.
Qed.

Lemma recover_at_end end_ p :
  Unread p = [] -> end_ <> TokenEOF -> recover end_ p = Ok (set_recovery p).
Proof.
  intros Hu Hend. unfold recover, recover_fuel. rewrite Unread_set_recovery, Hu.
  cbn [length Nat.mul Nat.add recover_loop].
  rewrite (Read_nil (set_recovery p)) by done. cbv beta iota.
  cbn [eofToken Token_Type].
  rewrite (bool_decide_eq_false_2 (TokenEOF = TokenTemplateControl)) by done.
  rewrite andb_false_r.
  rewrite bool_decide_eq_false_2 by (intros H; symmetry in H; by apply oppositeBracket_not_EOF in H).
  rewrite bool_decide_eq_false_2 by congruence.
  by rewrite bool_decide_eq_true_2.
Qed.

(** X22.  A token that can start no body item makes ParseBody give up the
    body: the blocks parsed before it are returned, the token is reported
    once (as a quoted attribute name when it is an opening quote) unless the
    parser was in recovery mode already, in which case nothing is reported;
    the body is taken to end at that token, and the parser skips to just
    after the closing token of the body. *)
Theorem unexpected_token_abandons_body
  (d depth k : nat) (end_ : TokenType) (toks idents : list Token) (bad : Token)
  (inner : list Token) (tend : Token) (rest : list Token) (p : parser) :
  wf_items d toks idents ->
  (d < depth)%nat ->
  end_ <> TokenNewline -> end_ <> TokenIdent -> end_ <> TokenNil ->
  Token_Type bad <> end_ ->
  Token_Type bad <> TokenNewline -> Token_Type bad <> TokenIdent ->
  pairsBalanced end_ k inner ->
  Z.of_nat k <= int_max ->
  recoverType end_ tend = end_ ->
  Unread p = toks ++ bad :: inner ++ tend :: rest ->
  exists body p',
    ParseBody depth end_ p =
      Ok (body,
          (if parser_recovery p then []
           else if bool_decide (Token_Type bad = TokenOQuote)
                then [quotedNameDiag bad]
                else [definitionRequiredDiag definitionRequiredDetail bad]),
          p') /\
    Body_Attributes body = ∅ /\
    map Block_Type (Body_Blocks body) = map Token_Bytes idents /\
    Body_SrcRange body = RangeBetween (PrevRange p) (Token_Range bad) /\
    Body_EndRange body = endOf (Token_Range bad) /\
    Unread p' = rest /\ parser_recovery p' = true.
Proof.
  intros Hwf Hdepth Hend1 Hend2 Hend3 Hb1 Hb2 Hb3 Hbal Hk Htend Hu.
  destruct depth as [|depth]; [lia|]. cbn [ParseBody].
  destruct (ParseBody_loop_items d toks idents Hwf depth (loop_fuel p) end_ ∅ [] [] p
              (bad :: inner ++ tend :: rest))
    as (fuel' & newblocks & -> & Hfuel' & Hty & Hrange); try done.
  { lia. }
  { unfold loop_fuel. rewrite Hu. lia. }
  destruct fuel' as [|fuel']; [simpl in Hfuel'; lia|]. cbn [ParseBody_loop].
  set (p0 := readN (length toks) p).
  assert (Hu0 : Unread p0 = bad :: inner ++ tend :: rest)
    by (by eapply Unread_readN with (pre := toks)).
  rewrite (Peek_cons p0 bad _ Hu0), bool_decide_eq_false_2 by done.
  rewrite (Read_readN p0 bad _ Hu0). cbv beta iota.
  assert (Hu1 : Unread (readN 1 p0) = inner ++ tend :: rest)
    by (by eapply Unread_readN with (pre := [bad])).
  assert (Hprev : PrevRange (readN 1 p0) = Token_Range bad).
  { cbn [readN]. by rewrite (Read_cons p0 bad _ Hu0). }
  assert (Hflag : parser_recovery (readN 1 p0) = parser_recovery p).
  { subst p0. by rewrite !recovery_readN. }
  assert (Hbad :
    (p2 ← recover end_ (readN 1 p0);
     Ok (∅ : gmap string Attribute, [] ++ newblocks,
         if negb (parser_recovery (readN 1 p0)) then
           if bool_decide (Token_Type bad = TokenOQuote)
           then [] ++ [quotedNameDiag bad]
           else [] ++ [definitionRequiredDiag definitionRequiredDetail bad]
         else [], PrevRange (readN 1 p0), p2)) ≫=
    (λ '(attrs, blocks, diags, endRange, p1),
       Ok (mkBody attrs blocks (RangeBetween (PrevRange p) endRange)
             (mkRange (Range_Filename endRange) (Range_End endRange) (Range_End endRange)),
           diags, p1))
    = Ok (mkBody ∅ newblocks (RangeBetween (PrevRange p) (Token_Range bad))
            (endOf (Token_Range bad)),
          (if parser_recovery p then []
           else if bool_decide (Token_Type bad = TokenOQuote)
                then [quotedNameDiag bad]
                else [definitionRequiredDiag definitionRequiredDetail bad]),
          set_recovery (readN (S (length inner)) (readN 1 p0)))).
  { rewrite (recover_pairs end_ k inner tend rest (readN 1 p0)) by done.
    bind_ok. rewrite Hprev, Hflag. cbn [app].
    destruct (parser_recovery p); cbn [negb]; [done|]. by case_bool_decide. }
  eexists _, _. split.
  - revert Hbad. destruct (Token_Type bad); try done; intros Hbad; exact Hbad.
  - cbn [Body_Attributes Body_Blocks Body_SrcRange Body_EndRange].
    do 4 (split; [done|]). split; [|done].
    rewrite Unread_set_recovery.
    eapply Unread_readN with (pre := inner ++ [tend]).
    + by rewrite Hu1, <- app_assoc.
    + rewrite length_app. simpl. lia.
Qed.

(** X23.  A body whose closing token is missing when the input ends is
    still returned, with the blocks parsed so far; the one report, made
    unless the parser was in recovery mode already, is "Attribute or block
    definition required" at the end-of-file token. *)
Theorem missing_closer_is_reported_at_end_of_input
  (d depth : nat) (end_ : TokenType) (toks idents : list Token) (p : parser) :
  wf_items d toks idents ->
  (d < depth)%nat ->
  end_ <> TokenNewline -> end_ <> TokenIdent -> end_ <> TokenEOF ->
  Unread p = toks ->
  exists body,
    ParseBody depth end_ p =
      Ok (body,
          (if parser_recovery p then []
           else [definitionRequiredDiag definitionRequiredDetail
                   (eofToken (parser_peeker p))]),
          set_recovery (readN (length toks) p)) /\
    Body_Attributes body = ∅ /\
    map Block_Type (Body_Blocks body) = map Token_Bytes idents /\
    Unread (readN (length toks) p) = [].
Proof.
  intros Hwf Hdepth Hend1 Hend2 Hend3 Hu.
  destruct depth as [|depth]; [lia|]. cbn [ParseBody].
  destruct (ParseBody_loop_items d toks idents Hwf depth (loop_fuel p) end_ ∅ [] [] p [])
    as (fuel' & newblocks & -> & Hfuel' & Hty & Hrange); try done.
  { lia. }
  { by rewrite app_nil_r. }
  { unfold loop_fuel. rewrite Hu, app_nil_r. lia. }
  destruct fuel' as [|fuel']; [simpl in Hfuel'; lia|]. cbn [ParseBody_loop].
  set (p0 := readN (length toks) p).
  assert (Hu0 : Unread p0 = []).
  { eapply Unread_readN with (pre := toks); [by rewrite app_nil_r|done]. }
  rewrite (Peek_nil p0 Hu0). cbn [eofToken Token_Type].
  rewrite bool_decide_eq_false_2 by congruence.
  rewrite (Read_nil p0 Hu0). cbv beta iota.
  rewrite (recover_at_end end_ p0 Hu0 Hend3). bind_ok. bind_ok.
  unfold eofToken. subst p0. rewrite EOFRange_readN, recovery_readN.
  destruct (parser_recovery p); cbn [negb Token_Type].
  - eexists. by split.
  - rewrite bool_decide_eq_false_2 by done. eexists. by split.
Qed.

(** ** Where an invalid escape is reported *)

Lemma decodeStep_newPos quoted filename st ch st' :
  decodeStep quoted filename st ch = Ok st' ->
  ds_newPos st' = advancePos (ds_newPos st) ch.
Proof.
  decode_step_cases st ch quoted; intros Hst; try discriminate;
    by injection Hst as <-.
Qed.

Lemma decodeLoop_newPos quoted filename clusters :
  forall st st',
    decodeLoop quoted filename st clusters = Ok st' ->
    ds_newPos st' = posAfter (ds_newPos st) clusters.
Proof.
  induction clusters as [|ch clusters IH]; intros st st'; cbn [decodeLoop].
  - by intros [= <-].
  - destruct (decodeStep quoted filename st ch) as [st1| | |] eqn:Hstep; try done.
    bind_ok. intros Hloop. apply IH in Hloop. apply decodeStep_newPos in Hstep.
    unfold posAfter in *. cbn [fold_left]. by rewrite <- Hstep.
Qed.

Lemma len_app (a b : string) : len (a +:+ b) = len a + len b.
Proof. unfold len. rewrite str_length_app. lia. Qed.

Lemma posAfter_same_line cs :
  Forall noLineEnding cs ->
  forall pos,
    in_int (Pos_Column pos) -> in_int (Pos_Byte pos) ->
    in_int (Pos_Column pos + Z.of_nat (length cs)) ->
    in_int (Pos_Byte pos + len (concatClusters cs)) ->
    posAfter pos cs =
      mkPos (Pos_Line pos) (Pos_Column pos + Z.of_nat (length cs))
            (Pos_Byte pos + len (concatClusters cs)).
Proof.
  induction 1 as [|ch cs Hch Hcs IH]; intros pos Hc Hb Hc' Hb'.
  - unfold posAfter, len. simpl. rewrite !Z.add_0_r. by destruct pos.
  - unfold posAfter. cbn [fold_left]. fold (posAfter (advancePos pos ch) cs).
    cbn [concatClusters foldr] in Hb'. fold (concatClusters cs) in Hb'.
    rewrite len_app in Hb'. cbn [length] in Hc'.
    assert (Hlen : 0 <= len ch /\ 0 <= len (concatClusters cs))
      by (unfold len; lia).
    unfold advancePos. rewrite Hch. unfold int_add.
    rewrite !int_wrap_small
      by (unfold in_int, int_min, int_max in *; lia).
    rewrite IH; cbn [Pos_Line Pos_Column Pos_Byte];
      try (unfold in_int, int_min, int_max in *; lia).
    change (concatClusters (ch :: cs)) with (ch +:+ concatClusters cs).
    rewrite len_app. cbn [length]. f_equal; lia.
Qed.

(** X24.  In a quoted literal, a backslash followed by a cluster that is no
    escape is reported with a subject that runs from the backslash to the end
    of that cluster: on the line of the literal, two columns wide, and one
    byte longer than the cluster. *)
Theorem invalid_escape_is_located
  (tok : Token) (pre : list string) (ch : string) (post : list string) :
  Token_Type tok = TokenQuotedLit ->
  ScanGraphemeClusters (Token_Bytes tok) = pre ++ backslash :: ch :: post ->
  Forall (plainCluster true) pre ->
  Forall noLineEnding pre ->
  (c ← single ch; backslashEscape c) = None ->
  in_int (Pos_Column (Range_Start (Token_Range tok))) ->
  in_int (Pos_Byte (Range_Start (Token_Range tok))) ->
  in_int (Pos_Column (Range_Start (Token_Range tok)) + Z.of_nat (length pre) + 2) ->
  in_int (Pos_Byte (Range_Start (Token_Range tok)) + len (concatClusters pre)
          + 1 + len ch) ->
  exists text d diags,
    decodeStringLit tok = Ok (text, d :: diags) /\
    Diagnostic_Detail d = invalidEscapeDetail ch /\
    Diagnostic_Subject d =
      Some (mkRange (Range_Filename (Token_Range tok))
              (mkPos (Pos_Line (Range_Start (Token_Range tok)))
                     (Pos_Column (Range_Start (Token_Range tok)) + Z.of_nat (length pre))
                     (Pos_Byte (Range_Start (Token_Range tok)) + len (concatClusters pre)))
              (mkPos (Pos_Line (Range_Start (Token_Range tok)))
                     (Pos_Column (Range_Start (Token_Range tok)) + Z.of_nat (length pre) + 2)
                     (Pos_Byte (Range_Start (Token_Range tok)) + len (concatClusters pre)
                      + 1 + len ch))).
Proof.
  intros Hty Hclusters Hplain Hline Hesc Hc Hb Hc' Hb'.
  set (start := Range_Start (Token_Range tok)) in *.
  set (filename := Range_Filename (Token_Range tok)).
  assert (Hlen : 0 <= len ch /\ 0 <= len (concatClusters pre)) by (unfold len; lia).
  rewrite decodeStringLit_unfold. unfold decodeMode. rewrite Hty, Hclusters.
  fold filename. rewrite decodeLoop_app.
  destruct (decodeLoop_plain true filename pre Hplain (initialDecodeState tok) eq_refl)
    as [pos1 Hpre].
  pose proof (decodeLoop_newPos _ _ _ _ _ Hpre) as Hpos1.
  cbn [ds_newPos initialDecodeState] in Hpos1. fold start in Hpos1.
  rewrite posAfter_same_line in Hpos1;
    try done; try (unfold in_int, int_min, int_max in *; lia).
  rewrite Hpre. bind_ok. cbn [decodeLoop].
  set (ret := ds_ret (initialDecodeState tok) +:+ concatClusters pre).
  assert (Hstep1 :
    decodeStep true filename (mkDecodeState ret "" pos1 []) backslash
    = Ok (mkDecodeState ret backslash (advancePos pos1 backslash) [])) by reflexivity.
  assert (Hstep2 :
    decodeStep true filename
      (mkDecodeState ret backslash (advancePos pos1 backslash) []) ch
    = Ok (mkDecodeState (ret +:+ ch) "" (advancePos (advancePos pos1 backslash) ch)
            ([] ++ [invalidEscapeDiag filename (advancePos pos1 backslash) ch]))).
  { unfold decodeStep. cbn [ds_esc ds_ret ds_diags ds_newPos backslash str1].
    rewrite (bool_decide_eq_true_2 (byte_backslash = byte_backslash)) by done.
    by rewrite Hesc. }
  change (ds_diags (initialDecodeState tok)) with (@nil Diagnostic).
  rewrite Hstep1. bind_ok. rewrite Hstep2. bind_ok.
  match goal with
  | |- context [decodeLoop true filename ?st post] =>
      destruct (decodeLoop_ok true filename post st) as [st' Hpost];
        [simpl; lia|];
      assert (Hunq : esc_unquoted true (ds_esc st)) by done;
      destruct (decodeLoop_diags _ _ _ _ _ Hunq Hpost) as (new & Hnew & _);
      rewrite Hpost
  end.
  bind_ok. cbn [ds_diags initialDecodeState app] in Hnew.
  eexists _, _, new. split; [by rewrite Hnew|]. split; [done|].
  assert (Hadv : advancePos pos1 backslash
                 = mkPos (Pos_Line pos1) (int_add (Pos_Column pos1) 1)
                         (int_add (Pos_Byte pos1) 1)) by reflexivity.
  rewrite Hadv, Hpos1. unfold invalidEscapeDiag.
  cbn [Diagnostic_Subject Pos_Line Pos_Column Pos_Byte]. unfold int_add, int_sub.
  rewrite (int_wrap_small (Pos_Column start + Z.of_nat (length pre) + 1))
    by (unfold in_int, int_min, int_max in *; lia).
  rewrite (int_wrap_small (Pos_Byte start + len (concatClusters pre) + 1))
    by (unfold in_int, int_min, int_max in *; lia).
  rewrite !int_wrap_small by (unfold in_int, int_min, int_max in *; lia).
  f_equal. f_equal; f_equal; lia.
Qed.

(** X25.  decodeStringLit returns on every quoted-literal and every
    string-literal token, however the scanner splits its bytes: the escape
    buffer never holds more than two bytes, so the panic for a longer escape
    sequence is out of reach, and the only panic left is that for a token of
    another type. *)
Theorem decodeStringLit_panics_only_on_other_tokens (tok : Token) :
  (Token_Type tok = TokenQuotedLit \/ Token_Type tok = TokenStringLit ->
   exists s ds, decodeStringLit tok = Ok (s, ds)) /\
  (forall msg, decodeStringLit tok = Panic msg ->
     msg = decodePanicMessage /\
     Token_Type tok <> TokenQuotedLit /\ Token_Type tok <> TokenStringLit).
Proof.
  split.
  - intros Hty. destruct (decodeStringLit_ok tok) as ([s ds] & ->); [|by eexists _, _].
    unfold decodeMode. destruct Hty as [-> | ->]; by eexists.
  - intros msg. destruct (decodeMode tok) as [quoted|] eqn:Hmode.
    + destruct (decodeStringLit_ok tok) as (r & ->); [by eexists|done].
    + rewrite decodeStringLit_unfold, Hmode. intros [= <-]. split; [done|].
      unfold decodeMode in Hmode. split; intros Hty; by rewrite Hty in Hmode.
Qed.

(** ** Block headers *)

Lemma headerTokens_length ls : (length ls <= length (headerTokens ls))%nat.
Proof.
  induction ls as [|[[oQuote lits] cQuote] ls IH]; [done|].
  unfold headerTokens in *. cbn [map concat labelTokens length].
  rewrite length_app. cbn [length]. lia.
Qed.

Lemma blockHeader_loop_labels ls :
  Forall cleanLabel ls ->
  forall fuel ident labels labelRanges diags p rest,
    Unread p = headerTokens ls ++ rest ->
    blockHeader_loop (length ls + fuel) ident labels labelRanges diags p
      = blockHeader_loop fuel ident (labels ++ map labelOf ls)
          (labelRanges ++ map labelRangeOf ls) diags
          (readN (length (headerTokens ls)) p).
Proof.
  induction 1 as [|[[oQuote lits] cQuote] ls (Hoq & Hlits & Hclean & Hcq) Hls IH];
    intros fuel ident labels labelRanges diags p rest Hu.
  - cbn [map]. by rewrite !app_nil_r.
  - unfold headerTokens in Hu. cbn [map concat labelTokens] in Hu.
    fold (headerTokens ls) in Hu.
    assert (Hu' : Unread p = oQuote :: lits ++ cQuote :: headerTokens ls ++ rest).
    { rewrite Hu. simpl. by rewrite <- !app_assoc. }
    cbn [length Nat.add blockHeader_loop].
    rewrite (Peek_cons p oQuote _ Hu'), Hoq.
    destruct (parseQuotedStringLiteral_literals oQuote lits cQuote _ p Hoq Hlits Hcq Hu')
      as (-> & Hu1 & _).
    bind_ok. rewrite Hclean. cbn [HasErrors existsb]. rewrite app_nil_r.
    rewrite (IH fuel ident _ _ diags _ rest Hu1). rewrite readN_add.
    cbn [map]. rewrite <- !app_assoc. cbn [app labelOf labelRangeOf].
    do 2 f_equal. unfold headerTokens. cbn [map concat labelTokens].
    rewrite !length_app. cbn [length]. rewrite !length_app. cbn [length]. lia.
Qed.

Lemma blockHeader_loop_header ls ident p rest :
  Forall cleanLabel ls ->
  Unread p = headerTokens ls ++ rest ->
  exists fuel,
    blockHeader_loop (loop_fuel p) ident [] [] [] p
      = blockHeader_loop (S fuel) ident (map labelOf ls) (map labelRangeOf ls) []
          (readN (length (headerTokens ls)) p).
Proof.
  intros Hls Hu. pose proof (headerTokens_length ls) as Hlen.
  exists (length (Unread p) - length ls)%nat.
  replace (loop_fuel p) with (length ls + S (length (Unread p) - length ls))%nat.
  - by rewrite (blockHeader_loop_labels ls Hls _ ident [] [] [] p rest Hu).
  - unfold loop_fuel. rewrite Hu, length_app. lia.
Qed.

(** X26.  A block free of errors is returned whole: its labels are the
    decoded texts of its quoted labels, in order, each with the range from
    its opening to its closing quote; its brace ranges are those of the two
    brace tokens; its body holds the blocks between them; and the parser
    stands just after the closing brace. *)
Theorem wellformed_block_has_labels_and_brace_ranges
  (d depth : nat) (ident : Token) (ls : list (Token * list Token * Token))
  (oBrace : Token) (body inner : list Token) (cBrace : Token) (rest : list Token)
  (p : parser) :
  Forall cleanLabel ls ->
  Token_Type oBrace = TokenOBrace ->
  wf_items d body inner ->
  Token_Type cBrace = TokenCBrace ->
  (d < depth)%nat ->
  Unread p = headerTokens ls ++ oBrace :: body ++ cBrace :: rest ->
  exists b body' p',
    finishParsingBodyBlock depth ident p = Ok (NodeBlock b, [], p') /\
    Block_Type b = Token_Bytes ident /\
    Block_TypeRange b = Token_Range ident /\
    Block_Labels b = map labelOf ls /\
    Block_LabelRanges b = map labelRangeOf ls /\
    Block_OpenBraceRange b = Token_Range oBrace /\
    Block_CloseBraceRange b = Token_Range cBrace /\
    Block_Body b = Some body' /\
    map Block_Type (Body_Blocks body') = map Token_Bytes inner /\
    Unread p' = rest.
Proof.
  intros Hls HoBrace Hbody HcBrace Hdepth Hu.
  unfold finishParsingBodyBlock, finishParsingBodyBlock_open.
  destruct (blockHeader_loop_header ls ident p _ Hls Hu) as [fuel ->].
  set (n := length (headerTokens ls)).
  assert (Hu1 : Unread (readN n p) = oBrace :: body ++ cBrace :: rest)
    by (by eapply Unread_readN with (pre := headerTokens ls)).
  cbn [blockHeader_loop]. rewrite (Peek_cons _ oBrace _ Hu1), HoBrace.
  rewrite (Read_readN _ oBrace _ Hu1). bind_ok. rewrite readN_add.
  assert (Hu2 : Unread (readN (n + 1) p) = body ++ cBrace :: rest).
  { rewrite <- readN_add. by eapply Unread_readN with (pre := [oBrace]). }
  assert (Hu3 : Unread (readN (length body) (readN (n + 1) p)) = cBrace :: rest)
    by (by eapply Unread_readN with (pre := body)).
  destruct (ParseBody_wf_items d body inner depth TokenCBrace (readN (n + 1) p)
              (cBrace :: rest) Hbody Hu2 Hdepth)
    as (body' & -> & _ & Hty & _); try done.
  { by rewrite (Peek_cons _ cBrace _ Hu3). }
  bind_ok. rewrite (Read_cons _ cBrace rest Hu3).
  eexists _, body', _. split; [done|]. by repeat split.
Qed.

(** X27.  When a token that is neither a label nor the opening brace ends
    the header of a block, the partial block returned keeps the labels read
    before it, with their ranges.  An equals sign and a newline are always
    reported, any other token only when the parser is not in recovery mode
    already; the subject of the report is that token and its context runs
    from the type name to it. *)
Theorem header_error_keeps_labels
  (depth : nat) (ident : Token) (ls : list (Token * list Token * Token))
  (bad : Token) (rest : list Token) (p : parser) :
  Forall cleanLabel ls ->
  Token_Type bad <> TokenOQuote ->
  Token_Type bad <> TokenOBrace ->
  Unread p = headerTokens ls ++ bad :: rest ->
  exists p',
    finishParsingBodyBlock depth ident p =
      Ok (NodeBlock (partialBlock ident (map labelOf ls) (map labelRangeOf ls)),
          headerDiags ident bad (parser_recovery p), p') /\
    recoverAfterBodyItem (readN (length (headerTokens ls)) p) = Ok p' /\
    Forall (fun d => Diagnostic_Subject d = Some (Token_Range bad) /\
                     Diagnostic_Context d
                       = Some (RangeBetween (Token_Range ident) (Token_Range bad)))
           (headerDiags ident bad (parser_recovery p)).
Proof.
  intros Hls Hb1 Hb2 Hu.
  unfold finishParsingBodyBlock, finishParsingBodyBlock_open.
  destruct (blockHeader_loop_header ls ident p _ Hls Hu) as [fuel ->].
  set (n := length (headerTokens ls)).
  assert (Hu1 : Unread (readN n p) = bad :: rest)
    by (by eapply Unread_readN with (pre := headerTokens ls)).
  destruct (recoverAfterBodyItem_total (readN n p)) as (p' & Hrec & _).
  exists p'. split; [|split; [done|]].
  - cbn [blockHeader_loop]. rewrite (Peek_cons _ bad _ Hu1), recovery_readN, Hrec.
    unfold headerDiags.
    destruct (Token_Type bad); try done; bind_ok; bind_ok;
      by destruct (parser_recovery p).
  - unfold headerDiags.
    destruct (Token_Type bad); try destruct (parser_recovery p);
      by repeat constructor.
Qed.

End Zclsyntax.

(** * A concrete instance

    The parser run with the sample stand-ins. *)

Definition sampleParseBody : nat -> TokenType -> parser -> _ :=
  ParseBody unit unit asciiClusters spanBetween rangeName quoteASCII.

Definition sampleFinishParsingBodyBlock : nat -> Token -> parser -> _ :=
  finishParsingBodyBlock unit unit asciiClusters spanBetween rangeName quoteASCII.

(** A stand-in for the missing attribute parser, for the loop of ParseBody
    only: it reads the name, the equals sign and one token as the value. *)
Definition literalAttributeItem (p : parser)
  : result (Node unit unit * Diagnostics * parser) :=
  let '(name, p1) := Read p in
  let '(_, p2) := Read p1 in
  let '(value, p3) := Read p2 in
  Ok (NodeAttribute unit unit
        (mkAttribute unit unit (Token_Bytes name)
           (LiteralValueExpr unit unit tt (Token_Range value))
           (spanBetween (Token_Range name) (Token_Range value))
           (Token_Range name)),
      [], p3).

Definition sampleParseBodyItem : nat -> parser -> _ :=
  ParseBodyItem unit unit asciiClusters spanBetween rangeName quoteASCII.

Definition sampleParseQuotedStringLiteral : parser -> _ :=
  parseQuotedStringLiteral asciiClusters spanBetween quoteASCII.

(** A walk that moves every literal value to the range [rangeAt 9]. *)
Definition moveLiterals (n : Node unit unit) : Node unit unit :=
  match n with
  | NodeExpression _ _ (LiteralValueExpr _ _ v _) =>
      NodeExpression unit unit (LiteralValueExpr unit unit v (rangeAt 9))
  | _ => n
  end.

(** [f(1)] with arbitrary ranges. *)
Definition sampleCall : Expression unit unit :=
  FunctionCallExpr unit unit "f" [LiteralValueExpr unit unit tt (rangeAt 2)]
    (rangeAt 0) (rangeAt 1) (rangeAt 3).

(** ** The theorems at the concrete instance *)

Lemma asciiClusters_clean_x :
  cleanQuotedLit asciiClusters (tokenAt TokenQuotedLit "x" 8).
Proof. split; [reflexivity|]. exists "x". reflexivity. Qed.

Lemma twoBlocks_wf :
  wf_items asciiClusters 2 twoBlocks
    [tokenAt TokenIdent "a" 0; tokenAt TokenIdent "b" 5].
Proof.
  unfold twoBlocks.
  apply (wf_items_block asciiClusters 1 (tokenAt TokenIdent "a" 0) []
           (tokenAt TokenOBrace "{" 2) [] [] (tokenAt TokenCBrace "}" 3));
    try reflexivity; try constructor; try reflexivity.
  apply (wf_items_block asciiClusters 1 (tokenAt TokenIdent "b" 5)
           [tokenAt TokenOQuote "" 7; tokenAt TokenQuotedLit "x" 8; tokenAt TokenCQuote "" 9]
           (tokenAt TokenOBrace "{" 11)
           [tokenAt TokenIdent "c" 13; tokenAt TokenOBrace "{" 15; tokenAt TokenCBrace "}" 16]
           [tokenAt TokenIdent "c" 13]
           (tokenAt TokenCBrace "}" 18) [tokenAt TokenNewline "" 19] []);
    try reflexivity.
  - apply (wf_labels_cons asciiClusters
             [tokenAt TokenOQuote "" 7; tokenAt TokenQuotedLit "x" 8; tokenAt TokenCQuote "" 9]
             []); [|constructor].
    apply (wf_label_intro asciiClusters (tokenAt TokenOQuote "" 7)
             [tokenAt TokenQuotedLit "x" 8] (tokenAt TokenCQuote "" 9));
      try reflexivity.
    constructor; [apply asciiClusters_clean_x|constructor].
  - apply (wf_items_block asciiClusters 0 (tokenAt TokenIdent "c" 13) []
             (tokenAt TokenOBrace "{" 15) [] [] (tokenAt TokenCBrace "}" 16) [] []);
      try reflexivity; constructor.
  - constructor; [reflexivity|constructor].
Qed.

(** C1 at [a { } <newline> b "x" { c { } } <newline>]. *)
Lemma wellformed_blocks_parse_in_order_witness :
  exists body p',
    sampleParseBody 3 TokenEOF (startParser twoBlocks) = Ok (body, [], p') /\
    size (Body_Attributes unit unit body) = 0%nat /\
    length (Body_Blocks unit unit body) = 2%nat /\
    map (Block_Type unit unit) (Body_Blocks unit unit body) = ["a"; "b"] /\
    map (Block_TypeRange unit unit) (Body_Blocks unit unit body) = [rangeAt 0; rangeAt 5] /\
    Unread p' = [].
Proof.
  apply (wellformed_blocks_parse_in_order unit unit asciiClusters spanBetween rangeName
           quoteASCII 2 twoBlocks [tokenAt TokenIdent "a" 0; tokenAt TokenIdent "b" 5]
           3 (startParser twoBlocks)).
  - apply twoBlocks_wf.
  - reflexivity.
  - lia.
Defined.

(** C1 as stated fails at [a = 1 <newline>], a body with one attribute and
    no syntax error: ParseBody panics, whatever call stack it is given it
    returns nothing. *)
Lemma attribute_body_panics :
  sampleParseBody 3 TokenEOF (startParser oneAttribute) = Panic attributePanicMessage /\
  ~ (exists depth body diags p',
       sampleParseBody depth TokenEOF (startParser oneAttribute) = Ok (body, diags, p')).
Proof.
  split; [reflexivity|].
  intros (depth & body & diags & p' & H). destruct depth as [|depth]; [discriminate|].
  unfold sampleParseBody in H.
  rewrite (ParseBody_attribute_panics unit unit asciiClusters spanBetween rangeName
             quoteASCII depth TokenEOF (startParser oneAttribute)
             (tokenAt TokenIdent "a" 0) (tokenAt TokenEqual "=" 2)
             [tokenAt (TokenOther 1) "1" 4; tokenAt TokenNewline "" 5]) in H;
    try done.
Qed.

(** C3 as stated fails at [a = 1 <newline> a = 2 <newline>]: no diagnostic
    is produced, ParseBody panics at the first attribute. *)
Lemma attribute_twice_panics :
  sampleParseBody 3 TokenEOF (startParser attributeTwice) = Panic attributePanicMessage /\
  ~ (exists depth body diags p',
       sampleParseBody depth TokenEOF (startParser attributeTwice) = Ok (body, diags, p')).
Proof.
  split; [reflexivity|].
  intros (depth & body & diags & p' & H). destruct depth as [|depth]; [discriminate|].
  unfold sampleParseBody in H.
  rewrite (ParseBody_attribute_panics unit unit asciiClusters spanBetween rangeName
             quoteASCII depth TokenEOF (startParser attributeTwice)
             (tokenAt TokenIdent "a" 0) (tokenAt TokenEqual "=" 2)
             (drop 2 attributeTwice)) in H; try done.
Qed.

(** C3, amended, at [a = 1 <newline> a = 2 <newline>] with the stand-in
    attribute parser. *)
Lemma attribute_redefinition_witness :
  sampleParseBody 1 TokenEOF (startParser attributeTwice) = Panic attributePanicMessage /\
  exists attrs d endRange p',
    ParseBody_loop unit unit rangeName quoteASCII literalAttributeItem 9 TokenEOF
      ∅ [] [] (startParser attributeTwice) = Ok (attrs, [], [d], endRange, p') /\
    Diagnostic_Summary d = "Attribute redefined" /\
    Diagnostic_Subject d = Some (rangeAt 6) /\
    (exists a1, attrs !! "a" = Some a1 /\ Attribute_NameRange unit unit a1 = rangeAt 0) /\
    size attrs = 1%nat.
Proof.
  pose proof (attribute_redefinition unit unit asciiClusters spanBetween rangeName
                quoteASCII literalAttributeItem) as [Hpanic Hloop].
  split.
  - apply (Hpanic 0%nat (startParser attributeTwice) (tokenAt TokenIdent "a" 0)
             (tokenAt TokenEqual "=" 2) (drop 2 attributeTwice)); reflexivity.
  - destruct (Hloop (startParser attributeTwice)
                (readN 3 (startParser attributeTwice))
                (readN 7 (startParser attributeTwice))
                (mkAttribute unit unit "a"
                   (LiteralValueExpr unit unit tt (rangeAt 4))
                   (spanBetween (rangeAt 0) (rangeAt 4)) (rangeAt 0))
                (mkAttribute unit unit "a"
                   (LiteralValueExpr unit unit tt (rangeAt 10))
                   (spanBetween (rangeAt 6) (rangeAt 10)) (rangeAt 6))
                [tokenAt TokenNewline "" 5] (drop 4 attributeTwice)
                [tokenAt TokenNewline "" 11] 9%nat)
      as (attrs & d & endRange & p' & Hrun & _ & Hsum & Hsubj & _ & Hfirst & Hsize);
      try reflexivity.
    + repeat constructor.
    + repeat constructor.
    + simpl. lia.
    + exists attrs, d, endRange, p'. repeat split; try done. by eexists.
Defined.

(** C4 at the header [a = ...]: an equals sign where a label or the opening
    brace is expected. *)
Lemma header_error_yields_partial_block_witness :
  exists b diags p',
    sampleFinishParsingBodyBlock 0 (tokenAt TokenIdent "a" 0)
      (startParser (drop 1 oneAttribute)) = Ok (NodeBlock unit unit b, diags, p') /\
    recoverAfterBodyItem (startParser (drop 1 oneAttribute)) = Ok p' /\
    parser_recovery p' = true /\
    Block_Body unit unit b = None /\
    Block_OpenBraceRange unit unit b = rangeAt 0 /\
    Block_CloseBraceRange unit unit b = rangeAt 0 /\
    Block_TypeRange unit unit b = rangeAt 0 /\
    Block_Type unit unit b = "a".
Proof.
  apply (header_error_yields_partial_block unit unit asciiClusters spanBetween rangeName
           quoteASCII 0 (tokenAt TokenIdent "a" 0) (startParser (drop 1 oneAttribute))
           (startParser (drop 1 oneAttribute))).
  apply headerError_token; discriminate.
Defined.

(** C5 with the byte-by-byte scanner. *)
Lemma escape_decoding_table_witness :
  decodeStringLit asciiClusters (quotedLit "a\nb" (rangeAt 0))
    = Ok ("a" +:+ str1 byte_newline +:+ "b", []) /\
  (exists d, decodeStringLit asciiClusters (quotedLit "\q" (rangeAt 0)) = Ok ("q", [d]) /\
             Diagnostic_Summary d = "Invalid escape sequence" /\
             Diagnostic_Severity d = DiagError) /\
  decodeStringLit asciiClusters (quotedLit "$${val}" (rangeAt 0)) = Ok ("${val}", []) /\
  decodeStringLit asciiClusters (quotedLit "$x" (rangeAt 0)) = Ok ("$x", []).
Proof.
  apply (escape_decoding_table asciiClusters (rangeAt 0)); reflexivity.
Defined.

(** C7 at the bytes [ab$$]. *)
Lemma pending_marker_escape_is_dropped_witness :
  (exists cs m st,
     is_marker m = true /\
     asciiClusters "ab$$" = cs ++ [str1 m; str1 m] /\
     decodeLoop true "test.zcl" (initialDecodeState (quotedLit "ab$$" (rangeAt 0))) cs
       = Ok st /\
     ds_esc st = "" /\
     decodeStringLit asciiClusters (quotedLit "ab$$" (rangeAt 0))
       = Ok (ds_ret st, ds_diags st)) /\
  decodeStringLit asciiClusters (quotedLit "ab$$" (rangeAt 0)) = Ok ("ab", []).
Proof.
  destruct (pending_marker_escape_is_dropped asciiClusters) as [Hgeneral Hexample].
  split.
  - destruct (Hgeneral (quotedLit "ab$$" (rangeAt 0)) true
                (mkDecodeState "ab" "$$" (mkPos 1 5 4) []))
      as (cs & m & st & Hm & Hcs & _ & Hloop & Hesc & Hdecode); try reflexivity.
    by exists cs, m, st.
  - apply Hexample. reflexivity.
Defined.



(** C9 at [a { } <newline> b "x" { c { } } <newline>] and at the partial
    block of [a "${x}" ...]. *)
Lemma labels_and_label_ranges_have_equal_length_witness :
  (exists body diags p',
     sampleParseBody 3 TokenEOF (startParser twoBlocks) = Ok (body, diags, p') /\
     Forall (fun b => length (Block_Labels unit unit b)
                      = length (Block_LabelRanges unit unit b) /\
                      block_labels_ok unit unit b)
       (Body_Blocks unit unit body)) /\
  (exists b diags p',
     sampleFinishParsingBodyBlock 1 (tokenAt TokenIdent "a" 0)
       (startParser (drop 1 templateInLabel)) = Ok (NodeBlock unit unit b, diags, p') /\
     length (Block_Labels unit unit b) = 1%nat /\
     length (Block_LabelRanges unit unit b) = 1%nat).
Proof.
  destruct (labels_and_label_ranges_have_equal_length unit unit asciiClusters spanBetween
              rangeName quoteASCII) as [Hblock Hbody].
  split.
  - destruct (sampleParseBody 3 TokenEOF (startParser twoBlocks))
      as [[[body diags] p']| | |] eqn:Hrun; try (vm_compute in Hrun; discriminate).
    exists body, diags, p'. split; [reflexivity|].
    exact (Hbody 3%nat TokenEOF (startParser twoBlocks) body diags p' Hrun).
  - destruct (sampleFinishParsingBodyBlock 1 (tokenAt TokenIdent "a" 0)
                (startParser (drop 1 templateInLabel)))
      as [[[[|b|a|e] diags] p']| | |] eqn:Hrun; try (vm_compute in Hrun; discriminate).
    exists b, diags, p'. split; [reflexivity|].
    destruct (Hblock 1%nat (tokenAt TokenIdent "a" 0)
                (startParser (drop 1 templateInLabel)) b diags p' Hrun) as [Hlen _].
    vm_compute in Hrun. injection Hrun as <- _ _. split; reflexivity.
Defined.

(** C10 at an identifier token. *)
Lemma decodeStringLit_panic_witness :
  decodeStringLit asciiClusters (tokenAt TokenIdent "a" 0) = Panic decodePanicMessage /\
  (exists text diags,
     decodeStringLit asciiClusters (tokenAt TokenQuotedLit "x" 8) = Ok (text, diags)) /\
  (exists label labelRange diags p',
     parseQuotedStringLiteral asciiClusters spanBetween quoteASCII
       (startParser (drop 1 templateInLabel)) = Ok (label, labelRange, diags, p')).
Proof.
  destruct (decodeStringLit_panic_unreachable_from_quoted_literal asciiClusters spanBetween
              quoteASCII) as (Hpanic & Hreturns & Hlabel).
  split; [|split].
  - apply Hpanic; discriminate.
  - apply Hreturns. by left.
  - apply Hlabel.
Defined.

(** C6 at [a "${x}" { } <newline> b { } <newline>]. *)
Lemma template_in_label_reported_once_witness :
  exists body d b blocks p',
    sampleParseBody 2 TokenEOF (startParser templateInLabel) = Ok (body, [d], p') /\
    Diagnostic_Summary d = "Invalid string literal" /\
    Diagnostic_Detail d = templateNotAllowedDetail quoteASCII "$" /\
    Body_Blocks unit unit body = b :: blocks /\
    Block_Type unit unit b = "a" /\
    Block_Body unit unit b = None /\
    map (Block_Type unit unit) blocks = ["b"] /\
    Unread p' = [].
Proof.
  destruct (template_in_label_reported_once unit unit asciiClusters spanBetween rangeName
              quoteASCII 2 1 0
              (tokenAt TokenIdent "a" 0) (tokenAt TokenOQuote "" 2)
              (tokenAt TokenTemplateInterp "${" 3) (tokenAt TokenTemplateSeqEnd "}" 6)
              (tokenAt TokenCQuote "" 7)
              [] [tokenAt TokenIdent "x" 5] [] (drop 6 templateInLabel)
              (drop 9 templateInLabel) [tokenAt TokenIdent "b" 12]
              (startParser templateInLabel)
              (mkParser (mkPeeker (drop 9 templateInLabel) (rangeAt 11) zeroRange) true))
    as (Hsum & Hdetail & _ & _ & body & b & blocks & p' & Hrun & Hblocks & Hty & Hbody
        & Htys & _ & Hend); try reflexivity.
  - constructor.
  - apply templateBalanced_plain; try discriminate; [reflexivity|constructor].
  - vm_compute. discriminate.
  - constructor.
  - apply (wf_items_block asciiClusters 0 (tokenAt TokenIdent "b" 12) []
             (tokenAt TokenOBrace "{" 14) [] [] (tokenAt TokenCBrace "}" 15)
             [tokenAt TokenNewline "" 16] []); try reflexivity; try constructor;
      try reflexivity; constructor.
  - lia.
  - exists body, (templateNotAllowedDiag spanBetween quoteASCII (tokenAt TokenOQuote "" 2)
                    (tokenAt TokenTemplateInterp "${" 3)), b, blocks, p'.
    repeat split; done.
Defined.

(** ** The further properties at the concrete instance *)

(** X1 at the opening brace. *)
Lemma oppositeBracket_pairs_witness :
  oppositeBracket TokenOBrace <> TokenOBrace /\
  oppositeBracket (oppositeBracket TokenOBrace) = TokenOBrace /\
  is_opener (oppositeBracket TokenOBrace) = false.
Proof. apply (oppositeBracket_pairs TokenOBrace). discriminate. Defined.

(** X4 at [x { y } } <newline>], looking for the closing brace. *)
Lemma recover_lands_after_matching_closer_witness :
  exists p',
    recover TokenCBrace (startParser insideBraces) = Ok p' /\
    Unread p' = [tokenAt TokenNewline "" 9] /\
    parser_recovery p' = true /\
    PrevRange p' = rangeAt 8.
Proof.
  apply (recover_lands_after_matching_closer TokenCBrace 1
           [tokenAt TokenIdent "x" 0; tokenAt TokenOBrace "{" 2; tokenAt TokenIdent "y" 4;
            tokenAt TokenCBrace "}" 6]
           (tokenAt TokenCBrace "}" 8) [tokenAt TokenNewline "" 9]
           (startParser insideBraces)).
  - discriminate.
  - apply pairsBalanced_plain; try (vm_compute; discriminate).
    apply (pairsBalanced_nested TokenCBrace 0 (tokenAt TokenOBrace "{" 2)
             [tokenAt TokenIdent "y" 4] (tokenAt TokenCBrace "}" 6) []);
      try reflexivity.
    + apply pairsBalanced_plain; try (vm_compute; discriminate). constructor.
    + constructor.
  - vm_compute. discriminate.
  - reflexivity.
  - reflexivity.
Defined.

(** X6 at [a { x } <newline>], skipping the next brace group. *)
Lemma recoverOver_skips_next_group_witness :
  exists p',
    recoverOver TokenOBrace (startParser braceGroup) = Ok p' /\
    Unread p' = [tokenAt TokenNewline "" 7] /\
    parser_recovery p' = true.
Proof.
  apply (recoverOver_skips_next_group TokenOBrace 0 [tokenAt TokenIdent "a" 0]
           (tokenAt TokenOBrace "{" 2) [tokenAt TokenIdent "x" 4]
           (tokenAt TokenCBrace "}" 6) [tokenAt TokenNewline "" 7]
           (startParser braceGroup)).
  - discriminate.
  - repeat constructor; discriminate.
  - reflexivity.
  - apply pairsBalanced_plain; try (vm_compute; discriminate). constructor.
  - vm_compute. discriminate.
  - reflexivity.
  - reflexivity.
Defined.


(** X8 at the raw string-literal text [a\b]: the backslash is copied. *)
Lemma plain_text_decodes_to_itself_witness :
  decodeStringLit asciiClusters (tokenAt TokenStringLit "a\b" 0) = Ok ("a\b", []).
Proof.
  apply (plain_text_decodes_to_itself asciiClusters (tokenAt TokenStringLit "a\b" 0) false).
  - reflexivity.
  - reflexivity.
  - repeat (constructor; [repeat split; discriminate|]). constructor.
Defined.

(** X9 at the quoted literal [\q]. *)
Lemma decodeStringLit_diagnostics_witness :
  exists diags,
    decodeStringLit asciiClusters (quotedLit "\q" (rangeAt 0)) = Ok ("q", diags) /\
    length diags = 1%nat /\
    Forall (isInvalidEscapeDiag "test.zcl") diags.
Proof.
  eexists. split; [reflexivity|]. split; [reflexivity|].
  apply (decodeStringLit_diagnostics asciiClusters (quotedLit "\q" (rangeAt 0)) "q").
  reflexivity.
Defined.

(** X10 at the quoted literal [a\nb], whose four bytes decode to three. *)
Lemma decoded_text_no_longer_than_input_witness :
  decodeStringLit asciiClusters (quotedLit "a\nb" (rangeAt 0))
    = Ok ("a" +:+ str1 byte_newline +:+ "b", []) /\
  (String.length ("a" +:+ str1 byte_newline +:+ "b") <= String.length "a\nb")%nat.
Proof.
  split; [reflexivity|].
  apply (decoded_text_no_longer_than_input asciiClusters (quotedLit "a\nb" (rangeAt 0))
           ("a" +:+ str1 byte_newline +:+ "b") []).
  reflexivity.
Defined.

(** X11 at [a "${x}" { } <newline> b { } <newline>]. *)
Lemma parse_diagnostics_are_errors_witness :
  exists body diags p',
    sampleParseBody 2 TokenEOF (startParser templateInLabel) = Ok (body, diags, p') /\
    Forall isError diags /\
    HasErrors diags = bool_decide (diags <> []).
Proof.
  destruct (sampleParseBody 2 TokenEOF (startParser templateInLabel))
    as [[[body diags] p']| | |] eqn:Hrun; try (vm_compute in Hrun; discriminate).
  exists body, diags, p'. split; [reflexivity|].
  exact (proj1 (parse_diagnostics_are_errors unit unit asciiClusters spanBetween rangeName
                  quoteASCII 2) TokenEOF (startParser templateInLabel) body diags p' Hrun).
Defined.

(** X12 at [a "${x}" { } <newline> b { } <newline>]: the parse enters
    recovery mode, and reports. *)
Lemma recovery_mode_is_kept_and_entered_with_a_report_witness :
  exists body diags p',
    sampleParseBody 2 TokenEOF (startParser templateInLabel) = Ok (body, diags, p') /\
    parser_recovery p' = true /\
    diags <> [].
Proof.
  destruct (sampleParseBody 2 TokenEOF (startParser templateInLabel))
    as [[[body diags] p']| | |] eqn:Hrun; try (vm_compute in Hrun; discriminate).
  exists body, diags, p'. split; [reflexivity|].
  assert (Hp' : parser_recovery p' = true).
  { vm_compute in Hrun. injection Hrun as _ _ <-. reflexivity. }
  split; [exact Hp'|].
  exact (proj2 (recovery_mode_is_kept_and_entered_with_a_report unit unit asciiClusters
                  spanBetween rangeName quoteASCII 2 TokenEOF (startParser templateInLabel)
                  body diags p' Hrun) eq_refl Hp').
Defined.

(** X13 at the body of the block [b "x" { c { } }]. *)
Lemma parse_without_diagnostics_is_complete_witness :
  exists body p',
    sampleParseBody 2 TokenCBrace (readN 9 (startParser twoBlocks)) = Ok (body, [], p') /\
    body_complete unit unit spanBetween body /\
    parser_recovery p' = false /\
    Body_SrcRange unit unit body = spanBetween (rangeAt 11) (rangeAt 18).
Proof.
  destruct (sampleParseBody 2 TokenCBrace (readN 9 (startParser twoBlocks)))
    as [[[body diags] p']| | |] eqn:Hrun; try (vm_compute in Hrun; discriminate).
  assert (Hdiags : diags = []).
  { vm_compute in Hrun. injection Hrun as _ <- _. reflexivity. }
  subst diags.
  assert (Hprev : PrevRange p' = rangeAt 18).
  { vm_compute in Hrun. injection Hrun as _ <-. reflexivity. }
  exists body, p'. split; [reflexivity|].
  destruct (parse_without_diagnostics_is_complete unit unit asciiClusters spanBetween
              rangeName quoteASCII 2 TokenCBrace (readN 9 (startParser twoBlocks))
              body p' eq_refl Hrun) as (Hcomplete & Hflag & Hspan).
  split; [exact Hcomplete|]. split; [exact Hflag|].
  destruct Hspan as [Hsrc _]; [discriminate|].
  rewrite Hsrc, Hprev. reflexivity.
Defined.

(** X14 at the label ["x"] of [b "x" { c { } }]. *)
Lemma label_is_concatenation_of_decoded_literals_witness :
  sampleParseQuotedStringLiteral (startParser (drop 5 twoBlocks))
    = Ok ("x", spanBetween (rangeAt 7) (rangeAt 9), [],
          readN 3 (startParser (drop 5 twoBlocks))) /\
  Unread (readN 3 (startParser (drop 5 twoBlocks))) = drop 8 twoBlocks /\
  parser_recovery (readN 3 (startParser (drop 5 twoBlocks))) = false.
Proof.
  apply (label_is_concatenation_of_decoded_literals asciiClusters spanBetween quoteASCII
           (tokenAt TokenOQuote "" 7) [tokenAt TokenQuotedLit "x" 8]
           (tokenAt TokenCQuote "" 9) (drop 8 twoBlocks) (startParser (drop 5 twoBlocks))).
  - reflexivity.
  - repeat constructor.
  - reflexivity.
  - reflexivity.
Defined.

(** X15 at an opening quote and [x], where the input ends. *)
Lemma unterminated_label_ends_at_zero_range_witness :
  exists d,
    sampleParseQuotedStringLiteral (startParser openLabel)
      = Ok ("x", spanBetween (rangeAt 0) zeroRange, [d], readN 2 (startParser openLabel)) /\
    Diagnostic_Summary d = "Unterminated string literal" /\
    Diagnostic_Subject d = Some zeroRange.
Proof.
  destruct (unterminated_label_ends_at_zero_range asciiClusters spanBetween quoteASCII
              (tokenAt TokenOQuote "" 0) [tokenAt TokenQuotedLit "x" 1]
              (startParser openLabel)) as [Hrun Hsubject].
  - reflexivity.
  - repeat constructor.
  - reflexivity.
  - eexists. split; [exact Hrun|]. split; [reflexivity|exact Hsubject].
Defined.

(** X16 at a label with an identifier token in it: the scan passes the
    closing quote of the label, the brace and one more opening quote. *)
Lemma invalid_item_in_label_recovers_to_opening_quote_witness :
  exists d p',
    sampleParseQuotedStringLiteral (startParser itemInLabel)
      = Ok ("x", spanBetween (rangeAt 0) zeroRange, [d], p') /\
    Diagnostic_Summary d = "Invalid string literal" /\
    Diagnostic_Subject d = Some (rangeAt 3) /\
    Unread p' = [tokenAt TokenNewline "" 11] /\
    parser_recovery p' = true.
Proof.
  destruct (invalid_item_in_label_recovers_to_opening_quote asciiClusters spanBetween
              quoteASCII (tokenAt TokenOQuote "" 0) [tokenAt TokenQuotedLit "x" 1]
              (tokenAt TokenIdent "y" 3) 1
              [tokenAt TokenCQuote "" 4; tokenAt TokenOBrace "{" 6; tokenAt TokenOQuote "" 8]
              (tokenAt TokenOQuote "" 10) [tokenAt TokenNewline "" 11]
              (startParser itemInLabel))
    as (p' & Hrun & Hrest & Hflag); try discriminate; try reflexivity.
  - repeat constructor.
  - apply (pairsBalanced_nested TokenOQuote 0 (tokenAt TokenCQuote "" 4)
             [tokenAt TokenOBrace "{" 6] (tokenAt TokenOQuote "" 8) []);
      try reflexivity; [|constructor].
    apply pairsBalanced_plain; try (vm_compute; discriminate). constructor.
  - eexists _, p'. split; [exact Hrun|]. repeat split; [exact Hrest|exact Hflag].
Defined.

(** X18 at [f(1)], walked by a function that moves literal values. *)
Lemma walkChildNodes_keeps_ranges_witness :
  exists e',
    Expression_walkChildNodes unit unit moveLiterals sampleCall = Ok e' /\
    e' <> sampleCall /\
    Expression_Range unit unit spanBetween e' = spanBetween (rangeAt 0) (rangeAt 3) /\
    Expression_StartRange unit unit spanBetween e' = spanBetween (rangeAt 0) (rangeAt 1).
Proof.
  eexists. split; [reflexivity|]. split; [discriminate|].
  destruct (walkChildNodes_keeps_ranges unit unit spanBetween moveLiterals sampleCall _
              eq_refl) as (Hrange & Hstart & _).
  split; [exact Hrange|exact Hstart].
Defined.

(** X19 at [a { } <newline> b "x" { c { } } <newline>], which holds no
    attribute. *)
Lemma ParseBody_returns_unless_attribute_witness :
  exists body diags p',
    sampleParseBody 15 TokenEOF (startParser twoBlocks) = Ok (body, diags, p') /\
    Unread p' `suffix_of` twoBlocks.
Proof.
  destruct (ParseBody_returns_unless_attribute unit unit asciiClusters spanBetween rangeName
              quoteASCII 15 TokenEOF (startParser twoBlocks)) as [Hreturns _].
  - simpl. lia.
  - apply Hreturns. intros (pre & ident & equals & rest & Heq & Hi & He).
    change (Unread (startParser twoBlocks)) with twoBlocks in Heq. unfold twoBlocks in Heq.
    repeat (destruct pre as [|? pre];
            [injection Heq as <- <- _; first [discriminate Hi|discriminate He]
            |injection Heq as _ Heq]).
    destruct pre as [|? [|? pre]]; simpl in Heq; discriminate Heq.
Defined.

(** X20 at [a b <newline> c { } <newline>]. *)
Lemma item_without_value_or_block_is_skipped_witness :
  exists d p',
    sampleParseBodyItem 1 (startParser itemInError) = Ok (NodeNil unit unit, [d], p') /\
    Diagnostic_Summary d = "Attribute or block definition required" /\
    Diagnostic_Subject d = Some (rangeAt 0) /\
    Diagnostic_Context d = None /\
    Unread p' = drop 3 itemInError /\
    parser_recovery p' = true /\
    PrevRange p' = rangeAt 3.
Proof.
  apply (item_without_value_or_block_is_skipped unit unit asciiClusters spanBetween rangeName
           quoteASCII 1 (tokenAt TokenIdent "a" 0) [tokenAt TokenIdent "b" 2]
           (tokenAt TokenNewline "" 3) (drop 3 itemInError) (startParser itemInError));
    try discriminate; try reflexivity.
  apply lineBalanced_inert; [repeat split; try reflexivity; discriminate|discriminate|].
  constructor.
Defined.

(** X21 at [a b <newline> c { } <newline>]: the block [c] is returned. *)
Lemma parse_resumes_after_item_in_error_witness :
  exists body p',
    sampleParseBody 2 TokenEOF (startParser itemInError)
      = Ok (body, [definitionRequiredDiag useEqualsDetail (tokenAt TokenIdent "a" 0)], p') /\
    map (Block_Type unit unit) (Body_Blocks unit unit body) = ["c"].
Proof.
  destruct (parse_resumes_after_item_in_error unit unit asciiClusters spanBetween rangeName
              quoteASCII 1 2 TokenEOF (tokenAt TokenIdent "a" 0) [tokenAt TokenIdent "b" 2]
              (tokenAt TokenNewline "" 3) (drop 3 itemInError) [tokenAt TokenIdent "c" 4] []
              (startParser itemInError))
    as (body & Hrun & _ & Hty & _); try discriminate; try reflexivity.
  - apply lineBalanced_inert; [repeat split; try reflexivity; discriminate|discriminate|].
    constructor.
  - apply (wf_items_block asciiClusters 0 (tokenAt TokenIdent "c" 4) []
             (tokenAt TokenOBrace "{" 6) [] [] (tokenAt TokenCBrace "}" 7)
             [tokenAt TokenNewline "" 8] []); try reflexivity; try constructor;
      try reflexivity; constructor.
  - lia.
  - eexists body, _. split; [exact Hrun|exact Hty].
Defined.

(** X22 at [a { } = x } <newline>], the inside of a block. *)
Lemma unexpected_token_abandons_body_witness :
  exists body p',
    sampleParseBody 2 TokenCBrace (startParser strayEquals)
      = Ok (body,
            [definitionRequiredDiag definitionRequiredDetail (tokenAt TokenEqual "=" 5)],
            p') /\
    map (Block_Type unit unit) (Body_Blocks unit unit body) = ["a"] /\
    Body_SrcRange unit unit body = spanBetween zeroRange (rangeAt 5) /\
    Unread p' = [tokenAt TokenNewline "" 10] /\
    parser_recovery p' = true.
Proof.
  destruct (unexpected_token_abandons_body unit unit asciiClusters spanBetween rangeName
              quoteASCII 1 2 0 TokenCBrace (take 3 strayEquals) [tokenAt TokenIdent "a" 0]
              (tokenAt TokenEqual "=" 5) [tokenAt TokenIdent "x" 7]
              (tokenAt TokenCBrace "}" 9) [tokenAt TokenNewline "" 10]
              (startParser strayEquals))
    as (body & p' & Hrun & _ & Hty & Hsrc & _ & Hrest & Hflag);
    try discriminate; try reflexivity.
  - apply (wf_items_block asciiClusters 0 (tokenAt TokenIdent "a" 0) []
             (tokenAt TokenOBrace "{" 2) [] [] (tokenAt TokenCBrace "}" 3) [] []);
      try reflexivity; constructor.
  - lia.
  - apply pairsBalanced_plain; try (vm_compute; discriminate). constructor.
  - exists body, p'. split; [exact Hrun|]. repeat split; assumption.
Defined.

(** X23 at [a { } <newline>], the inside of a block that is never closed. *)
Lemma missing_closer_is_reported_at_end_of_input_witness :
  exists body d,
    sampleParseBody 2 TokenCBrace (startParser oneBlock)
      = Ok (body, [d], set_recovery (readN 4 (startParser oneBlock))) /\
    Diagnostic_Summary d = "Attribute or block definition required" /\
    Diagnostic_Subject d = Some zeroRange /\
    map (Block_Type unit unit) (Body_Blocks unit unit body) = ["a"].
Proof.
  destruct (missing_closer_is_reported_at_end_of_input unit unit asciiClusters spanBetween
              rangeName quoteASCII 1 2 TokenCBrace oneBlock [tokenAt TokenIdent "a" 0]
              (startParser oneBlock))
    as (body & Hrun & _ & Hty & _); try discriminate; try reflexivity.
  - apply (wf_items_block asciiClusters 0 (tokenAt TokenIdent "a" 0) []
             (tokenAt TokenOBrace "{" 2) [] [] (tokenAt TokenCBrace "}" 3)
             [tokenAt TokenNewline "" 4] []); try reflexivity; try constructor;
      try reflexivity; constructor.
  - lia.
  - eexists body, _. split; [exact Hrun|]. repeat split. exact Hty.
Defined.

(** X24 at the quoted literal [ab\q], which starts at column 1, byte 0. *)
Lemma invalid_escape_is_located_witness :
  exists text d diags,
    decodeStringLit asciiClusters (quotedLit "ab\q" (rangeAt 0)) = Ok (text, d :: diags) /\
    Diagnostic_Detail d = invalidEscapeDetail "q" /\
    Diagnostic_Subject d = Some (mkRange "test.zcl" (mkPos 1 3 2) (mkPos 1 5 4)).
Proof.
  apply (invalid_escape_is_located asciiClusters (quotedLit "ab\q" (rangeAt 0))
           ["a"; "b"] "q" []).
  - reflexivity.
  - reflexivity.
  - repeat (constructor; [repeat split; discriminate|]). constructor.
  - repeat constructor.
  - reflexivity.
  - vm_compute. split; discriminate.
  - vm_compute. split; discriminate.
  - vm_compute. split; discriminate.
  - vm_compute. split; discriminate.
Defined.

(** X26 at [b "x" { c { } }], after the type name. *)
Lemma wellformed_block_has_labels_and_brace_ranges_witness :
  exists b body' p',
    sampleFinishParsingBodyBlock 2 (tokenAt TokenIdent "b" 5)
      (startParser (drop 5 twoBlocks)) = Ok (NodeBlock unit unit b, [], p') /\
    Block_Type unit unit b = "b" /\
    Block_TypeRange unit unit b = rangeAt 5 /\
    Block_Labels unit unit b = ["x"] /\
    Block_LabelRanges unit unit b = [spanBetween (rangeAt 7) (rangeAt 9)] /\
    Block_OpenBraceRange unit unit b = rangeAt 11 /\
    Block_CloseBraceRange unit unit b = rangeAt 18 /\
    Block_Body unit unit b = Some body' /\
    map (Block_Type unit unit) (Body_Blocks unit unit body') = ["c"] /\
    Unread p' = [tokenAt TokenNewline "" 19].
Proof.
  apply (wellformed_block_has_labels_and_brace_ranges unit unit asciiClusters spanBetween
           rangeName quoteASCII 1 2 (tokenAt TokenIdent "b" 5)
           [(tokenAt TokenOQuote "" 7, [tokenAt TokenQuotedLit "x" 8],
             tokenAt TokenCQuote "" 9)]
           (tokenAt TokenOBrace "{" 11)
           [tokenAt TokenIdent "c" 13; tokenAt TokenOBrace "{" 15; tokenAt TokenCBrace "}" 16]
           [tokenAt TokenIdent "c" 13] (tokenAt TokenCBrace "}" 18)
           [tokenAt TokenNewline "" 19] (startParser (drop 5 twoBlocks)));
    try reflexivity.
  - constructor; [|constructor]. repeat split; try reflexivity. repeat constructor.
  - apply (wf_items_block asciiClusters 0 (tokenAt TokenIdent "c" 13) []
             (tokenAt TokenOBrace "{" 15) [] [] (tokenAt TokenCBrace "}" 16) [] []);
      try reflexivity; constructor.
  - lia.
Defined.

(** X27 at the header [b "x" = ...]. *)
Lemma header_error_keeps_labels_witness :
  exists d p',
    sampleFinishParsingBodyBlock 0 (tokenAt TokenIdent "b" 0) (startParser labelThenEquals)
      = Ok (NodeBlock unit unit
              (partialBlock unit unit (tokenAt TokenIdent "b" 0) ["x"]
                 [spanBetween (rangeAt 2) (rangeAt 4)]),
            [d], p') /\
    Diagnostic_Summary d = "Invalid block definition" /\
    Diagnostic_Subject d = Some (rangeAt 6) /\
    Diagnostic_Context d = Some (spanBetween (rangeAt 0) (rangeAt 6)) /\
    Unread p' = [].
Proof.
  destruct (header_error_keeps_labels unit unit asciiClusters spanBetween rangeName
              quoteASCII 0 (tokenAt TokenIdent "b" 0)
              [(tokenAt TokenOQuote "" 2, [tokenAt TokenQuotedLit "x" 3],
                tokenAt TokenCQuote "" 4)]
              (tokenAt TokenEqual "=" 6) [tokenAt TokenNewline "" 7]
              (startParser labelThenEquals))
    as (p' & Hrun & Hrec & _); try discriminate; try reflexivity.
  - constructor; [|constructor]. repeat split; try reflexivity. repeat constructor.
  - eexists _, p'. split; [exact Hrun|]. repeat split.
    vm_compute in Hrec. injection Hrec as <-. reflexivity.
Defined.
